(** * The SimplyRETS ingestion job subsystem

    A shallow embedding of [internal/services/simplyrets.go] and of the
    types of [internal/models/property.go] it uses: the job registry
    ([JobManager]), the status channel, the supervisor goroutine
    ([processProperties], [processBatch]), the batch workers
    ([processProperty], [downloadImages], [downloadImage]) and the listing
    converter ([convertToProperty]).

    Conventions.
    - Go [int] is a 64-bit two's complement integer: a [Z] with the
      wrap-around of [++] written out ([int64]); [int32(i)] is [int32].
    - [string] is [string]; [error] is [option string] ([None] is [nil],
      [Some m] an error whose [Error()] is [m]).
    - [time.Time] and [time.Duration] are nanoseconds on the monotonic
      clock, in [Z]; a [*time.Time] is an [option Z].
    - [float64] values are only copied: they are carried as their 64-bit
      pattern.
    - Channels and cancellation contexts live in a store and are named by
      references, because the supervisor and the registry share them.
    - Goroutines are interleaved at the granularity of the operations that
      touch shared state: a schedule is a list of labels. A status query
      is cut where [GetJobStatus] gives up its locks.
    - A panic in a request handler is recovered by the server; a panic in
      a goroutine of a job is not recovered anywhere, so it ends the
      process: no step is taken after it.
    - The registry holds pointers: a job that has left it lives on for
      the calls that looked it up before, and is named by its channel.
    - A sender blocked on a full channel is queued behind its buffer; a
      receive hands the place over to it.
    - The download goroutines of a listing send their results in an order
      that the outside chooses. *)

From stdpp Require Import gmap strings list fin_maps pretty sorting.

Local Open Scope Z_scope.

(** ** Machine integers *)

Definition max_int : Z := 2 ^ 63 - 1.

(** Wrap-around of a 64-bit signed [int]. *)
Definition int64 (z : Z) : Z := (z + 2 ^ 63) `mod` 2 ^ 64 - 2 ^ 63.

(** The conversion [int32(i)]. *)
Definition int32 (z : Z) : Z := (z + 2 ^ 31) `mod` 2 ^ 32 - 2 ^ 31.

Definition float64 : Type := Z.

(** [time.Time] and [time.Duration], in nanoseconds. *)
Definition Time : Type := Z.
Definition Duration : Type := Z.

Definition Second : Duration := 1000000000.
Definition Minute : Duration := 60 * Second.

(** ** models/property.go *)

Module NullString.
Record t := mk { String : string; Valid : bool }.
End NullString.

Module NullInt32.
Record t := mk { Int32 : Z; Valid : bool }.
End NullInt32.

(** [FlexibleString] is a string type; [String()] is the conversion back. *)
Definition FlexibleString : Type := string.
Definition FlexibleString_String (fs : FlexibleString) : string := fs.

Module Photo.
Record t := mk { URL : string; LocalURL : string; Caption : string }.
End Photo.

Definition PhotoList : Type := list Photo.t.

Module Property.
Record t := mk {
  ID : Z;
  Name : string;
  Location : string;
  Price : float64;
  Description : NullString.t;
  Photos : PhotoList;
  CreatedAt : Time;
  UpdatedAt : Time;
  ExternalID : NullString.t;
  MLSNumber : NullString.t;
  PropertyType : NullString.t;
  Bedrooms : NullInt32.t;
  Bathrooms : NullInt32.t;
  SquareFeet : NullInt32.t;
  LotSize : NullString.t;
  YearBuilt : NullInt32.t
}.
End Property.

Module SimplyRETSAddress.
Record t := mk {
  Full : string;
  Unit : string;
  StreetNumber : FlexibleString;
  StreetName : string;
  City : string;
  State : string;
  PostalCode : string
}.
End SimplyRETSAddress.

Module SimplyRETSPropertyDetails.
Record t := mk {
  PropertyType : string;
  Style : string;
  YearBuilt : Z;
  Stories : Z;
  Area : Z;
  LotSize : string;
  Bedrooms : Z;
  Bathrooms : Z
}.
End SimplyRETSPropertyDetails.

Module SimplyRETSProperty.
Record t := mk {
  ListingID : string;
  MLSNumber : FlexibleString;
  Address : SimplyRETSAddress.t;
  ListPrice : float64;
  Property : SimplyRETSPropertyDetails.t;
  Photos : list string;
  Remarks : string
}.
End SimplyRETSProperty.

Module ProcessingStatus.
Record t := mk {
  ID : Z;
  Status : string;
  TotalProperties : Z;
  ProcessedCount : Z;
  FailedCount : Z;
  StartedAt : Time;
  CompletedAt : option Time;
  ErrorMessage : string
}.

(** The zero value of the struct. *)
Definition zero : t := mk 0 "" 0 0 0 0 None "".

Definition set_Status (v : string) (s : t) : t :=
  mk (ID s) v (TotalProperties s) (ProcessedCount s) (FailedCount s)
     (StartedAt s) (CompletedAt s) (ErrorMessage s).
Definition set_TotalProperties (v : Z) (s : t) : t :=
  mk (ID s) (Status s) v (ProcessedCount s) (FailedCount s)
     (StartedAt s) (CompletedAt s) (ErrorMessage s).
Definition set_ProcessedCount (v : Z) (s : t) : t :=
  mk (ID s) (Status s) (TotalProperties s) v (FailedCount s)
     (StartedAt s) (CompletedAt s) (ErrorMessage s).
Definition set_FailedCount (v : Z) (s : t) : t :=
  mk (ID s) (Status s) (TotalProperties s) (ProcessedCount s) v
     (StartedAt s) (CompletedAt s) (ErrorMessage s).
Definition set_CompletedAt (v : option Time) (s : t) : t :=
  mk (ID s) (Status s) (TotalProperties s) (ProcessedCount s) (FailedCount s)
     (StartedAt s) v (ErrorMessage s).
Definition set_ErrorMessage (v : string) (s : t) : t :=
  mk (ID s) (Status s) (TotalProperties s) (ProcessedCount s) (FailedCount s)
     (StartedAt s) (CompletedAt s) v.
End ProcessingStatus.

(** ** Listing converter *)

Definition nullString (s : string) : NullString.t :=
  if decide (s = "") then NullString.mk "" false
  else NullString.mk s true.

Definition nullInt32 (i : Z) : NullInt32.t :=
  if decide (i = 0) then NullInt32.mk 0 false
  else NullInt32.mk (int32 i) true.

Definition convertToProperty
    (simplyProperty : SimplyRETSProperty.t) (photos : PhotoList) : Property.t :=
  let address := SimplyRETSProperty.Address simplyProperty in
  let details := SimplyRETSProperty.Property simplyProperty in
  {| Property.ID := 0;
     Property.Name :=
       FlexibleString_String (SimplyRETSAddress.StreetNumber address)
         +:+ " " +:+ SimplyRETSAddress.StreetName address;
     Property.Location := SimplyRETSAddress.Full address;
     Property.Price := SimplyRETSProperty.ListPrice simplyProperty;
     Property.Description := nullString (SimplyRETSProperty.Remarks simplyProperty);
     Property.Photos := photos;
     Property.CreatedAt := 0;
     Property.UpdatedAt := 0;
     Property.ExternalID := nullString (SimplyRETSProperty.ListingID simplyProperty);
     Property.MLSNumber :=
       nullString (FlexibleString_String (SimplyRETSProperty.MLSNumber simplyProperty));
     Property.PropertyType := nullString (SimplyRETSPropertyDetails.PropertyType details);
     Property.Bedrooms := nullInt32 (SimplyRETSPropertyDetails.Bedrooms details);
     Property.Bathrooms := nullInt32 (SimplyRETSPropertyDetails.Bathrooms details);
     Property.SquareFeet := nullInt32 (SimplyRETSPropertyDetails.Area details);
     Property.LotSize := nullString (SimplyRETSPropertyDetails.LotSize details);
     Property.YearBuilt := nullInt32 (SimplyRETSPropertyDetails.YearBuilt details) |}.

(** An optional integer is normalised when zero is the explicit absent value
    and anything else is flagged present (carrying its 32-bit conversion). *)
Definition int_normalised (x : Z) (n : NullInt32.t) : Prop :=
  (x = 0 → n = NullInt32.mk 0 false)
  ∧ (x ≠ 0 → NullInt32.Valid n = true ∧ NullInt32.Int32 n = int32 x).

Definition string_normalised (x : string) (n : NullString.t) : Prop :=
  (x = "" → n = NullString.mk "" false)
  ∧ (x ≠ "" → n = NullString.mk x true).

(** ** Channels of status snapshots

    [make(chan models.ProcessingStatus, n)]: a bounded FIFO buffer and the
    closed flag. A goroutine blocked in a send is parked behind the buffer
    with its value: [buf] is the buffer followed by the value of the
    parked sender, if there is one (a status channel has one sender that
    blocks, the supervisor of its job), so that it holds up to [cap + 1]
    values. A receive takes the head, which moves the parked value into
    the buffer, as the runtime does when it hands the free slot to the
    parked sender. *)

Module Chan.
Record t := mk { buf : list ProcessingStatus.t; cap : nat; closed : bool }.

Definition make (n : nat) : t := mk [] n false.

Definition has_room (c : t) : bool := bool_decide (length (buf c) < cap c)%nat.

Definition push (v : ProcessingStatus.t) (c : t) : t :=
  mk (buf c ++ [v]) (cap c) (closed c).

Definition set_buf (b : list ProcessingStatus.t) (c : t) : t :=
  mk b (cap c) (closed c).

(** [close(ch)]: the buffer stays; a parked sender is woken up to panic,
    and its value is dropped. *)
Definition set_closed (c : t) : t := mk (take (cap c) (buf c)) (cap c) true.

(** A send "can proceed" in a [select] when there is room, and also when
    the channel is closed: it then proceeds by panicking. *)
Definition send_can_proceed (c : t) : bool := closed c || has_room c.
End Chan.

(** ** Jobs, the registry and the shared store *)

(** References into the store of channels and contexts. *)
Abbreviation ref := nat (only parsing).

Module ProcessingJob.
Record t := mk {
  ID : string;
  Status : ref;            (* chan models.ProcessingStatus *)
  Cancel : ref;            (* context.CancelFunc of the job's context *)
  StartTime : Time;
  LastStatus : option ProcessingStatus.t;
  CompletedAt : option Time
}.

Definition set_LastStatus (v : option ProcessingStatus.t) (j : t) : t :=
  mk (ID j) (Status j) (Cancel j) (StartTime j) v (CompletedAt j).
Definition set_CompletedAt (v : option Time) (j : t) : t :=
  mk (ID j) (Status j) (Cancel j) (StartTime j) (LastStatus j) v.
End ProcessingJob.

(** What the workers do to the outside world. *)
Inductive Effect :=
  | EGet (imageURL : string)                        (* client.Do on an image URL *)
  | EFile (filename : string)                       (* os.Create under imagesDir *)
  | ECreate (p : Property.t) (err : option string). (* propertyRepo.Create *)

Record World := mkWorld {
  jobs : gmap string ProcessingJob.t;   (* GlobalJobManager.jobs *)
  chans : gmap ref Chan.t;              (* the status channels *)
  cancelled : gset ref;                 (* contexts whose Done channel is closed *)
  next_ref : ref;                       (* allocation counter *)
  now : Time;                           (* the clock *)
  timers : list (string * Time);        (* sleeping cleanup goroutines: id, wake-up *)
  effects : list Effect;
  detached : gmap ref ProcessingJob.t;  (* jobs that left the registry, by their channel:
                                           a caller that looked one up still holds it *)
  released : gset ref                   (* channels whose parked sender a receive has
                                           released and that has not run since *)
}.

Definition set_jobs (f : gmap string ProcessingJob.t → gmap string ProcessingJob.t)
    (w : World) : World :=
  mkWorld (f (jobs w)) (chans w) (cancelled w) (next_ref w) (now w) (timers w) (effects w)
          (detached w) (released w).
Definition set_chans (f : gmap ref Chan.t → gmap ref Chan.t) (w : World) : World :=
  mkWorld (jobs w) (f (chans w)) (cancelled w) (next_ref w) (now w) (timers w) (effects w)
          (detached w) (released w).
Definition set_cancelled (f : gset ref → gset ref) (w : World) : World :=
  mkWorld (jobs w) (chans w) (f (cancelled w)) (next_ref w) (now w) (timers w) (effects w)
          (detached w) (released w).
Definition set_next_ref (n : ref) (w : World) : World :=
  mkWorld (jobs w) (chans w) (cancelled w) n (now w) (timers w) (effects w)
          (detached w) (released w).
Definition set_now (t : Time) (w : World) : World :=
  mkWorld (jobs w) (chans w) (cancelled w) (next_ref w) t (timers w) (effects w)
          (detached w) (released w).
Definition set_timers (f : list (string * Time) → list (string * Time)) (w : World) : World :=
  mkWorld (jobs w) (chans w) (cancelled w) (next_ref w) (now w) (f (timers w)) (effects w)
          (detached w) (released w).
Definition add_effect (e : Effect) (w : World) : World :=
  mkWorld (jobs w) (chans w) (cancelled w) (next_ref w) (now w) (timers w) (effects w ++ [e])
          (detached w) (released w).
Definition set_detached (f : gmap ref ProcessingJob.t → gmap ref ProcessingJob.t)
    (w : World) : World :=
  mkWorld (jobs w) (chans w) (cancelled w) (next_ref w) (now w) (timers w) (effects w)
          (f (detached w)) (released w).
Definition set_released (f : gset ref → gset ref) (w : World) : World :=
  mkWorld (jobs w) (chans w) (cancelled w) (next_ref w) (now w) (timers w) (effects w)
          (detached w) (f (released w)).

Definition add_effects (evs : list Effect) (w : World) : World :=
  mkWorld (jobs w) (chans w) (cancelled w) (next_ref w) (now w) (timers w) (effects w ++ evs)
          (detached w) (released w).

Definition empty_world : World := mkWorld ∅ ∅ ∅ 0%nat 0 [] [] ∅ ∅.

(** ** A state monad with panics *)

Inductive result (A : Type) :=
  | Ok (a : A) (w : World)
  | Panic (msg : string) (w : World).
Arguments Ok {A} a w.
Arguments Panic {A} msg w.

Definition M (A : Type) : Type := World → result A.

Definition ret {A} (a : A) : M A := λ w, Ok a w.
Definition bind {A B} (m : M A) (k : A → M B) : M B :=
  λ w, match m w with
       | Ok a w' => k a w'
       | Panic msg w' => Panic msg w'
       end.
Definition gets {A} (f : World → A) : M A := λ w, Ok (f w) w.
Definition modify (f : World → World) : M unit := λ w, Ok tt (f w).

Notation "'let*' x ':=' m 'in' k" := (bind m (λ x, k))
  (at level 10, x name, m at level 100, k at level 200, only parsing).
Notation "'do' m 'then' k" := (bind m (λ _, k))
  (at level 10, m at level 100, k at level 200, only parsing).

Definition final_world {A} (r : result A) : World :=
  match r with Ok _ w => w | Panic _ w => w end.

(** *** Channel operations *)

(** One attempt at [ch <- v]: [true] when the value was queued, [false] when
    the send cannot proceed now (full buffer, or a nil channel). *)
Definition try_send (ch : ref) (v : ProcessingStatus.t) : M bool :=
  λ w, match chans w !! ch with
       | Some c =>
           if Chan.closed c then Panic "send on closed channel" w
           else if Chan.has_room c
                then Ok true (set_chans (insert ch (Chan.push v c)) w)
                else Ok false w
       | None => Ok false w
       end.

(** One attempt at [<-ch]: a buffered value, or the zero value when the
    channel is closed and drained, or [None] when the receive cannot
    proceed now. When a sender is parked behind a full buffer, taking the
    head releases it: its value is now in the buffer and its send is
    done. *)
Definition try_recv (ch : ref) : M (option ProcessingStatus.t) :=
  λ w, match chans w !! ch with
       | Some c =>
           match Chan.buf c with
           | v :: rest =>
               Ok (Some v)
                  (set_released
                     (λ rs, if bool_decide (Chan.cap c < length (Chan.buf c))%nat
                            then {[ch]} ∪ rs else rs)
                     (set_chans (insert ch (Chan.set_buf rest c)) w))
           | [] => if Chan.closed c then Ok (Some ProcessingStatus.zero) w
                   else Ok None w
           end
       | None => Ok None w
       end.

Definition close (ch : ref) : M unit :=
  λ w, match chans w !! ch with
       | Some c =>
           if Chan.closed c then Panic "close of closed channel" w
           else Ok tt (set_chans (insert ch (Chan.set_closed c)) w)
       | None => Panic "close of nil channel" w
       end.

Definition send_can_proceed (ch : ref) (w : World) : bool :=
  match chans w !! ch with
  | Some c => Chan.send_can_proceed c
  | None => false
  end.

(** [<-ctx.Done()] can proceed, and [ctx.Err()] is non-nil, once the
    context is cancelled. *)
Definition is_cancelled (ctx : ref) (w : World) : bool :=
  bool_decide (ctx ∈ cancelled w).

Definition context_Canceled : string := "context canceled".

(** ** JobManager *)

Definition JobRetentionDuration : Duration := 5 * Minute.

(** The registry holds pointers: a job that is overwritten or deleted in
    the map lives on for the callers that looked it up before. *)
Definition detach (id : string) (w : World) : World :=
  set_detached
    (λ d, match jobs w !! id with
          | Some old => <[ProcessingJob.Status old := old]> d
          | None => d
          end) w.

Definition AddJob (id : string) (job : ProcessingJob.t) : M unit :=
  modify (λ w, set_jobs (insert id job) (detach id w)).

Definition GetJob (id : string) : M (option ProcessingJob.t) :=
  gets (λ w, jobs w !! id).

Definition RemoveJob (id : string) : M unit :=
  let* o := GetJob id in
  match o with
  | Some job =>
      do close (ProcessingJob.Status job) then
      modify (λ w, set_jobs (delete id) (detach id w))
  | None => ret tt
  end.

(** [time.Since(t)] *)
Definition time_Since (t : Time) : M Duration := gets (λ w, now w - t).

Definition CleanupJob (id : string) : M unit :=
  let* o := GetJob id in
  match o with
  | Some job =>
      let isCompleted := bool_decide (is_Some (ProcessingJob.CompletedAt job)) in
      let completedTime := ProcessingJob.CompletedAt job in
      match completedTime with
      | Some t =>
          let* d := time_Since t in
          if isCompleted && bool_decide (JobRetentionDuration ≤ d) then
            do close (ProcessingJob.Status job) then
            modify (λ w, set_jobs (delete id) (detach id w))
          else ret tt
      | None => ret tt
      end
  | None => ret tt
  end.

(** The goroutine started by [MarkJobCompleted] sleeps for the retention
    duration and then calls [CleanupJob]: it is recorded as a timer that
    cannot fire before [now + JobRetentionDuration]. *)
Definition MarkJobCompleted (id : string) (finalStatus : ProcessingStatus.t) : M unit :=
  let* o := GetJob id in
  match o with
  | Some job =>
      let* t := gets now in
      do modify (set_jobs (insert id
           (ProcessingJob.set_CompletedAt (Some t)
             (ProcessingJob.set_LastStatus (Some finalStatus) job)))) then
      modify (set_timers (λ ts, ts ++ [(id, t + JobRetentionDuration)]))
  | None => ret tt
  end.

(** ** What the network and the database answer

    The outcome of one HTTP exchange: building the request fails,
    [client.Do] fails, or a response with a status code and a body comes
    back. *)

Inductive HttpResult (B : Type) :=
  | RequestError (msg : string)
  | DoError (msg : string)
  | Response (StatusCode : Z) (body : B).
Arguments RequestError {B} msg.
Arguments DoError {B} msg.
Arguments Response {B} StatusCode body.

(** A Go slice: its length is an [int]. *)
Record Slice (A : Type) := mkSlice {
  elems : list A;
  len_ok : (Z.of_nat (length elems) <=? max_int) = true
}.
Arguments mkSlice {A} elems len_ok.
Arguments elems {A} s.
Arguments len_ok {A} s.

(** The body of the listing request: a JSON decoding error or the decoded
    slice of listings. *)
Definition ListingsBody : Type := string + Slice SimplyRETSProperty.t.

(** The body of an image request: its content type, and whether creating
    the local file and copying the data into it fail. *)
Record ImageBody := mkImageBody {
  ContentType : string;
  createFileErr : option string;
  copyErr : option string
}.

(** The outside answers seen by one batch worker: one exchange per image
    (by index), the result of [propertyRepo.Create], and the order in
    which the download goroutines send their results ([arrival k] is
    the rank of the goroutine of image [k]). *)
Record WorkerExt := mkWorkerExt {
  images : nat → HttpResult ImageBody;
  createErr : option string;
  arrival : nat → nat
}.

(** The outside answers seen by one step of the supervisor: the branch a
    [select] takes when both of its cases can proceed, and the answer to
    the listing request. *)
Record SupExt := mkSupExt {
  pick_done : bool;
  listings : HttpResult ListingsBody
}.

Definition http_StatusOK : Z := 200.

(** [client.Do(req)] with a request bound to [ctx]: a cancelled context
    fails the exchange. *)
Definition quote : string := String (Ascii.ascii_of_nat 34) EmptyString.

(** [req.URL.String()] in the message of the [*url.Error]: the URL as
    [net/url] writes it back after parsing it. It is taken to be the
    string the request was made from, which holds of the listing request;
    a photo URL with an unusual spelling may come back in another one,
    which changes the text of the message and nothing else. *)
Definition URL_String (rawurl : string) : string := rawurl.

Definition client_Do {B} (ctx : ref) (url : string) (r : HttpResult B) : M (HttpResult B) :=
  λ w, if is_cancelled ctx w
       then Ok (DoError ("Get " +:+ quote +:+ URL_String url +:+ quote +:+ ": "
                         +:+ context_Canceled)) w
       else Ok r w.

(** ** SimplyRETSService *)

Definition baseURL : string := "https://api.simplyrets.com".

Fixpoint strings_Contains (s substr : string) : bool :=
  String.prefix substr s ||
  match s with
  | EmptyString => false
  | String _ s' => strings_Contains s' substr
  end.

Fixpoint strings_Join (elems : list string) (sep : string) : string :=
  match elems with
  | [] => ""
  | [e] => e
  | e :: rest => e +:+ sep +:+ strings_Join rest sep
  end.

(** [GetJobStatus] when nothing else runs during the call. The call gives
    up its locks three times ([jm.mu] after [GetJob], [job.mu] around the
    write of [LastStatus]); [GetJobStatus_begin] and [GetJobStatus_step]
    below are its four atomic parts, for the schedules in which other
    goroutines run in between. *)
Definition GetJobStatus (jobID : string) : M (option ProcessingStatus.t * bool) :=
  let* o := GetJob jobID in
  match o with
  | None => ret (None, false)
  | Some job =>
      match ProcessingJob.LastStatus job with
      | Some last => ret (Some last, true)
      | None =>
          let* r := try_recv (ProcessingJob.Status job) in
          match r with
          | Some status =>
              do modify (set_jobs (alter
                   (ProcessingJob.set_LastStatus (Some status)) jobID)) then
              (* select { case job.Status <- status: default: } *)
              let* _ := try_send (ProcessingJob.Status job) status in
              ret (Some status, true)
          | None =>
              ret (Some (ProcessingStatus.mk 0 "running" 0 0 0
                           (ProcessingJob.StartTime job) None ""), true)
          end
      end
  end.

(** *** A status query in flight

    Where a call of [GetJobStatus] stands: it has looked the job up
    ([jm.mu] is released), it has received a snapshot under [job.mu.RLock]
    and released that lock, it has written the snapshot to
    [job.LastStatus] under [job.mu.Lock], or it has returned or
    panicked. *)
Inductive QPC :=
  | QLookedUp
  | QReceived (status : ProcessingStatus.t)
  | QStored (status : ProcessingStatus.t)
  | QDone (answer : option ProcessingStatus.t * bool)
  | QPanic (msg : string).

(** The call holds the pointer it got from [GetJob]: the job is named by
    its channel, and [StartTime] is a field that is never written. *)
Module Query.
Record t := mk {
  jobID : string;
  job : ref;
  StartTime : Time;
  pc : QPC
}.

Definition set_pc (p : QPC) (q : t) : t := mk (jobID q) (job q) (StartTime q) p.
End Query.

(** The job behind the pointer of a call: the entry of the registry when
    it is still that job, else the job that left the registry. *)
Definition held_job (id : string) (r : ref) (w : World) : option ProcessingJob.t :=
  match jobs w !! id with
  | Some job =>
      if decide (ProcessingJob.Status job = r) then Some job else detached w !! r
  | None => detached w !! r
  end.

(** [job.LastStatus = &status] through that pointer. *)
Definition write_LastStatus (id : string) (r : ref) (status : ProcessingStatus.t)
    (w : World) : World :=
  match jobs w !! id with
  | Some job =>
      if decide (ProcessingJob.Status job = r)
      then set_jobs (insert id (ProcessingJob.set_LastStatus (Some status) job)) w
      else set_detached (alter (ProcessingJob.set_LastStatus (Some status)) r) w
  | None => set_detached (alter (ProcessingJob.set_LastStatus (Some status)) r) w
  end.

(** [GlobalJobManager.GetJob(jobID)] and the test of [exists]. *)
Definition GetJobStatus_begin (jobID : string) (w : World) : Query.t :=
  match jobs w !! jobID with
  | Some job =>
      Query.mk jobID (ProcessingJob.Status job) (ProcessingJob.StartTime job) QLookedUp
  | None => Query.mk jobID 0 0 (QDone (None, false))
  end.

(** The next atomic part of the call: the test of [job.LastStatus] and
    the non-blocking receive, both under [job.mu.RLock]; the write of
    [job.LastStatus]; the non-blocking send that puts the snapshot back
    (a panic there is recovered by the server, after the deferred
    [RUnlock]). *)
Definition GetJobStatus_step (q : Query.t) (w : World) : Query.t * World :=
  match Query.pc q with
  | QLookedUp =>
      match held_job (Query.jobID q) (Query.job q) w ≫= ProcessingJob.LastStatus with
      | Some last => (Query.set_pc (QDone (Some last, true)) q, w)
      | None =>
          match try_recv (Query.job q) w with
          | Ok (Some status) w' => (Query.set_pc (QReceived status) q, w')
          | Ok None w' =>
              (Query.set_pc
                 (QDone (Some (ProcessingStatus.mk 0 "running" 0 0 0
                                 (Query.StartTime q) None ""), true)) q, w')
          | Panic msg w' => (Query.set_pc (QPanic msg) q, w')
          end
      end
  | QReceived status =>
      (Query.set_pc (QStored status) q,
       write_LastStatus (Query.jobID q) (Query.job q) status w)
  | QStored status =>
      match try_send (Query.job q) status w with
      | Ok _ w' => (Query.set_pc (QDone (Some status, true)) q, w')
      | Panic msg w' => (Query.set_pc (QPanic msg) q, w')
      end
  | QDone _ | QPanic _ => (q, w)
  end.

(** [job.Cancel()] *)
Definition cancel (ctx : ref) : M unit := modify (set_cancelled (λ s, {[ctx]} ∪ s)).

Definition CancelJob (jobID : string) : M bool :=
  let* o := GetJob jobID in
  match o with
  | None => ret false
  | Some job =>
      do cancel (ProcessingJob.Cancel job) then
      do RemoveJob jobID then
      ret true
  end.

Definition fetchProperties (ctx : ref) (limit : Z) (r : HttpResult ListingsBody)
    : M (list SimplyRETSProperty.t * option string) :=
  let url := baseURL +:+ "/properties?limit=" +:+ pretty limit in
  match r with
  | RequestError e => ret ([], Some ("failed to create request: " +:+ e))
  | _ =>
      let* resp := client_Do ctx url r in
      match resp with
      | RequestError e | DoError e =>
          ret ([], Some ("failed to fetch properties: " +:+ e))
      | Response code body =>
          if bool_decide (code ≠ http_StatusOK)
          then ret ([], Some ("API returned status " +:+ pretty code))
          else match body with
               | inl e => ret ([], Some ("failed to decode response: " +:+ e))
               | inr properties => ret (elems properties, None)
               end
      end
  end.

Definition downloadImage (ctx : ref) (imageURL propertyID : string) (index : nat)
    (r : HttpResult ImageBody) : M (string * option string) :=
  match r with
  | RequestError e => ret ("", Some ("failed to create image request: " +:+ e))
  | _ =>
      do modify (add_effect (EGet imageURL)) then
      let* resp := client_Do ctx imageURL r in
      match resp with
      | RequestError e | DoError e =>
          ret ("", Some ("failed to download image: " +:+ e))
      | Response code body =>
          if bool_decide (code ≠ http_StatusOK)
          then ret ("", Some ("image download returned status " +:+ pretty code))
          else
            let ext := if strings_Contains (ContentType body) "png"
                       then ".png" else ".jpg" in
            let filename := propertyID +:+ "_" +:+ pretty (Z.of_nat index) +:+ ext in
            do modify (add_effect (EFile filename)) then
            match createFileErr body with
            | Some e => ret ("", Some ("failed to create image file: " +:+ e))
            | None =>
                match copyErr body with
                | Some e => ret ("", Some ("failed to save image: " +:+ e))
                | None => ret ("/images/" +:+ filename, None)
                end
            end
      end
  end.

(** The goroutines of [downloadImages], one per URL from [index] on: what
    each sends on [photosChan] or on [errorsChan], with its index. *)
Fixpoint download_each (ctx : ref) (propertyID : string)
    (imgs : nat → HttpResult ImageBody) (index : nat) (imageURLs : list string)
    : M (list (nat * Photo.t) * list (nat * string)) :=
  match imageURLs with
  | [] => ret ([], [])
  | imageURL :: rest =>
      let* c := gets (is_cancelled ctx) in
      let* one :=
        (if c then ret (inr context_Canceled)
         else
           let* r := downloadImage ctx imageURL propertyID index (imgs index) in
           match r with
           | (_, Some e) => ret (inr e)
           | (localPath, None) =>
               ret (inl (Photo.mk imageURL localPath
                           ("Property image " +:+ pretty (Z.of_nat index + 1))))
           end) in
      let* others := download_each ctx propertyID imgs (S index) rest in
      match one with
      | inl photo => ret ((index, photo) :: others.1, others.2)
      | inr e => ret (others.1, (index, e) :: others.2)
      end
  end.

(** What a channel delivers: the values in the order in which the
    goroutines have sent them. *)
Definition by_arrival {A} (arrival : nat → nat) (sent : list (nat * A)) : list A :=
  (merge_sort (λ a b, Is_true (arrival a.1 <=? arrival b.1)%nat) sent).*2.

Definition downloadImages (ctx : ref) (imageURLs : list string) (propertyID : string)
    (imgs : nat → HttpResult ImageBody) (arrival : nat → nat)
    : M (PhotoList * option string) :=
  if bool_decide (length imageURLs = 0%nat) then ret ([], None)
  else
    let* r := download_each ctx propertyID imgs 0 imageURLs in
    let photos := by_arrival arrival r.1 in
    let errors := by_arrival arrival r.2 in
    if bool_decide (0 < length errors)%nat
    then ret (photos, Some ("some images failed to download: "
                            +:+ strings_Join errors "; "))
    else ret (photos, None).

Definition processProperty (ctx : ref) (simplyProperty : SimplyRETSProperty.t)
    (x : WorkerExt) : M (option string) :=
  let listingID := SimplyRETSProperty.ListingID simplyProperty in
  let* r := downloadImages ctx (SimplyRETSProperty.Photos simplyProperty)
              listingID (images x) (arrival x) in
  match r with
  | (_, Some e) =>
      ret (Some ("failed to download images for property "
                 +:+ listingID +:+ ": " +:+ e))
  | (photos, None) =>
      let property := convertToProperty simplyProperty photos in
      do modify (add_effect (ECreate property (createErr x))) then
      match createErr x with
      | Some e => ret (Some ("failed to save property " +:+ listingID +:+ ": " +:+ e))
      | None => ret None
      end
  end.

(** The body of a worker goroutine of [processBatch]: the value it sends on
    [results]. *)
Definition worker (ctx : ref) (property : SimplyRETSProperty.t) (x : WorkerExt)
    : M (option string) :=
  let* c := gets (is_cancelled ctx) in
  if c then ret (Some context_Canceled)
  else processProperty ctx property x.

(** One turn of the loop over [results] in [processBatch]. *)
Definition tally (err : option string) (status : ProcessingStatus.t) : ProcessingStatus.t :=
  match err with
  | Some _ =>
      ProcessingStatus.set_FailedCount
        (int64 (ProcessingStatus.FailedCount status + 1)) status
  | None =>
      ProcessingStatus.set_ProcessedCount
        (int64 (ProcessingStatus.ProcessedCount status + 1)) status
  end.

Definition collect (results : list (option string)) (status : ProcessingStatus.t)
    : ProcessingStatus.t :=
  foldl (λ st err, tally err st) status results.

(** ** The supervisor goroutine

    [processProperties] runs concurrently with the callers of the registry,
    so it is cut at every operation on shared state: a program counter
    says which operation comes next. The offsets [i] and [e] into
    [properties] are natural numbers: they stay below
    [len(properties) + batchSize]. *)

Inductive PC :=
  | PStart                                  (* build the initial status *)
  | PSelect (on_send on_done : PC)          (* select { statusChan <- status; <-ctx.Done() } *)
  | PFetch                                  (* fetchProperties *)
  | PSend (next : PC)                       (* statusChan <- status *)
  | PMark                                   (* GlobalJobManager.MarkJobCompleted; return *)
  | PLoop (i : nat)                         (* loop test at offset i, then the cancellation check *)
  | PWorkers (i e : nat) (pending : list nat) (results : list (option string))
                                            (* processBatch on properties[i:e]: wg.Wait() *)
  | PReturn                                 (* the goroutine has returned *)
  | PPanic (msg : string).                  (* the goroutine has panicked *)

Record Supervisor := mkSupervisor {
  jobID : string;
  ctx : ref;
  statusChan : ref;
  limit : Z;
  pc : PC;
  status : ProcessingStatus.t;
  properties : list SimplyRETSProperty.t;
  published : list ProcessingStatus.t;      (* what went through statusChan <- status *)
  parked : bool                             (* blocked in a send, its value behind the buffer *)
}.

Definition set_pc (p : PC) (s : Supervisor) : Supervisor :=
  mkSupervisor (jobID s) (ctx s) (statusChan s) (limit s) p (status s)
               (properties s) (published s) (parked s).
Definition set_status (st : ProcessingStatus.t) (s : Supervisor) : Supervisor :=
  mkSupervisor (jobID s) (ctx s) (statusChan s) (limit s) (pc s) st
               (properties s) (published s) (parked s).
Definition set_properties (ps : list SimplyRETSProperty.t) (s : Supervisor) : Supervisor :=
  mkSupervisor (jobID s) (ctx s) (statusChan s) (limit s) (pc s) (status s)
               ps (published s) (parked s).
Definition set_parked (b : bool) (s : Supervisor) : Supervisor :=
  mkSupervisor (jobID s) (ctx s) (statusChan s) (limit s) (pc s) (status s)
               (properties s) (published s) b.
Definition publish (s : Supervisor) : Supervisor :=
  mkSupervisor (jobID s) (ctx s) (statusChan s) (limit s) (pc s) (status s)
               (properties s) (published s ++ [status s]) (parked s).

Definition batchSize : nat := 10.

(** [StartPropertyProcessing], called with [context.Background()] as the
    handler does: the job's context is cancelled by [job.Cancel] only. *)
Definition StartPropertyProcessing (jobID : string) (limit : Z) : M Supervisor :=
  let* jobCtx := gets next_ref in
  let statusChan := S jobCtx in
  do modify (set_next_ref (S (S jobCtx))) then
  do modify (set_chans (insert statusChan (Chan.make 100))) then
  let* t := gets now in
  let job := ProcessingJob.mk jobID statusChan jobCtx t None None in
  do AddJob jobID job then
  ret (mkSupervisor jobID jobCtx statusChan limit PStart ProcessingStatus.zero [] [] false).

(** The supervisor parks in a send that cannot proceed: its value is
    queued behind the full buffer (a nil channel has no queue: the send
    blocks for ever). *)
Definition park (s : Supervisor) (w : World) : Supervisor * World :=
  match chans w !! statusChan s with
  | Some c =>
      (set_parked true s,
       set_chans (insert (statusChan s) (Chan.push (status s) c)) w)
  | None => (s, w)
  end.

(** A receive has taken the value of the parked supervisor into the
    buffer: its send is done, whatever has happened to the channel
    since. *)
Definition was_released (s : Supervisor) (w : World) : bool :=
  bool_decide (statusChan s ∈ released w).

Definition resume (next : PC) (s : Supervisor) (w : World) : Supervisor * World :=
  (set_pc next (publish (set_parked false s)),
   set_released (λ rs, rs ∖ {[statusChan s]}) w).

(** The supervisor leaves the queue of senders with its value: the other
    case of its [select] was chosen. *)
Definition withdraw (next : PC) (s : Supervisor) (w : World) : Supervisor * World :=
  (set_pc next (set_parked false s),
   set_chans (alter (λ c, Chan.set_buf (take (Chan.cap c) (Chan.buf c)) c)
                    (statusChan s)) w).

Definition chan_closed (ch : ref) (w : World) : bool :=
  match chans w !! ch with
  | Some c => Chan.closed c
  | None => false
  end.

(** [statusChan <- status]. A supervisor that is not parked queues the
    value and goes on to [next], or panics on a closed channel, or parks
    behind a full buffer. A parked supervisor goes on to [next] once a
    receive has released it, panics once the channel is closed, and stays
    where it is otherwise. *)
Definition send_status (next : PC) (s : Supervisor) (w : World) : Supervisor * World :=
  if parked s then
    if was_released s w then resume next s w
    else if chan_closed (statusChan s) w
         then (set_pc (PPanic "send on closed channel") s, w)
         else (s, w)
  else
    match try_send (statusChan s) (status s) w with
    | Ok true w' => (set_pc next (publish s), w')
    | Ok false w' => park s w'
    | Panic msg w' => (set_pc (PPanic msg) s, w')
    end.

Definition finish (state : string) (s : Supervisor) (w : World) : Supervisor :=
  set_pc (PSend PMark)
    (set_status (ProcessingStatus.set_CompletedAt (Some (now w))
                   (ProcessingStatus.set_Status state (status s))) s).

(** The supervisor inside [processBatch], once the workers are started:
    [wg.Wait()] cannot proceed while a worker is running; then the results
    are counted, and the [select] that sends the updated status comes
    next. Whichever branch that [select] takes, [processBatch] returns to
    the head of the loop, at offset [i + batchSize]. *)
Definition processBatch (i : nat) (pending : list nat) (results : list (option string))
    (s : Supervisor) (w : World) : Supervisor * World :=
  match pending with
  | [] =>
      (set_pc (PSelect (PLoop (i + batchSize)) (PLoop (i + batchSize)))
         (set_status (collect results (status s)) s), w)
  | _ :: _ => (s, w)
  end.

(** One step of [processProperties]. *)
Definition processProperties (x : SupExt) (s : Supervisor) (w : World) : Supervisor * World :=
  match pc s with
  | PStart =>
      (set_pc (PSelect PFetch PReturn)
         (set_status (ProcessingStatus.mk 0 "running" 0 0 0 (now w) None "") s), w)
  | PSelect on_send on_done =>
      if parked s then
        (* parked in the select: woken up by a receive, by the close of
           the channel or by the cancellation *)
        if was_released s w then resume on_send s w
        else
          match chan_closed (statusChan s) w, is_cancelled (ctx s) w with
          | true, true =>
              if pick_done x then withdraw on_done s w
              else (set_pc (PPanic "send on closed channel") s, w)
          | true, false => (set_pc (PPanic "send on closed channel") s, w)
          | false, true => withdraw on_done s w
          | false, false => (s, w)
          end
      else
        match send_can_proceed (statusChan s) w, is_cancelled (ctx s) w with
        | true, true =>
            if pick_done x then (set_pc on_done s, w) else send_status on_send s w
        | true, false => send_status on_send s w
        | false, true => (set_pc on_done s, w)
        | false, false => park s w
        end
  | PFetch =>
      match fetchProperties (ctx s) (limit s) (listings x) w with
      | Ok (_, Some err) w' =>
          (finish "failed"
             (set_status (ProcessingStatus.set_ErrorMessage err (status s)) s) w', w')
      | Ok (props, None) w' =>
          (set_pc (PSend (PLoop 0))
             (set_status (ProcessingStatus.set_TotalProperties
                            (Z.of_nat (length props)) (status s))
                (set_properties props s)), w')
      | Panic msg w' => (set_pc (PPanic msg) s, w')
      end
  | PSend next => send_status next s w
  | PMark =>
      (set_pc PReturn s, final_world (MarkJobCompleted (jobID s) (status s) w))
  | PLoop i =>
      if bool_decide (i < length (properties s))%nat then
        if is_cancelled (ctx s) w then (finish "cancelled" s w, w)
        else
          let e := if bool_decide (length (properties s) < i + batchSize)%nat
                   then length (properties s) else (i + batchSize)%nat in
          (set_pc (PWorkers i e (seq i (e - i)) []) s, w)
      else (finish "completed" s w, w)
  | PWorkers i e pending results => processBatch i pending results s w
  | PReturn | PPanic _ => (s, w)
  end.

(** The [j]-th of the workers still running in the current batch runs to
    its end and sends its result. *)
Definition processBatch_worker (j : nat) (x : WorkerExt) (s : Supervisor) (w : World)
    : Supervisor * World :=
  match pc s with
  | PWorkers i e pending results =>
      match pending !! j with
      | Some k =>
          match properties s !! k with
          | Some property =>
              match worker (ctx s) property x w with
              | Ok r w' =>
                  (set_pc (PWorkers i e (delete j pending) (results ++ [r])) s, w')
              | Panic msg w' => (set_pc (PPanic msg) s, w')
              end
          | None => (s, w)
          end
      | None => (s, w)
      end
  | _ => (s, w)
  end.

(** ** The whole system *)

Record Config := mkConfig {
  world : World;
  sups : list Supervisor;       (* the supervisor goroutines, in the order of the start requests *)
  queries : list Query.t        (* the calls of [GetJobStatus] that were cut into their parts *)
}.

Inductive Label :=
  | LStart (jobID : string) (limit : Z)     (* a start request *)
  | LStatus (jobID : string)                (* a status request *)
  | LCancelJob (jobID : string)             (* a cancel request *)
  | LCancel (jobID : string)                (* job.Cancel() alone, on the job registered under the id *)
  | LRemoveJob (jobID : string)             (* GlobalJobManager.RemoveJob alone *)
  | LTimer (k : nat)                        (* the k-th sleeping cleanup goroutine wakes up *)
  | LTick (d : N)                           (* d nanoseconds pass *)
  | LSup (n : nat) (x : SupExt)             (* the n-th supervisor takes a step *)
  | LWorker (n j : nat) (x : WorkerExt)     (* a batch worker of the n-th supervisor runs *)
  | LQuery (jobID : string)                 (* a status request arrives: GetJob returns *)
  | LQueryStep (k : nat).                   (* the k-th of these status requests goes on *)

(** The store that a call from outside the supervisor leaves behind,
    whether it returns or panics (a panic in a request handler is
    recovered by the server, [gin.Default]). *)
Definition handler {A} (m : M A) (w : World) : World := final_world (m w).

Definition with_sup (n : nat) (f : Supervisor → World → Supervisor * World)
    (c : Config) : Config :=
  match sups c !! n with
  | Some s =>
      let '(s', w') := f s (world c) in mkConfig w' (<[n := s']> (sups c)) (queries c)
  | None => c
  end.

Definition with_world (w : World) (c : Config) : Config :=
  mkConfig w (sups c) (queries c).

(** What a label does while the process runs. *)
Definition serve (l : Label) (c : Config) : Config :=
  match l with
  | LStart id lim =>
      match StartPropertyProcessing id lim (world c) with
      | Ok s w' => mkConfig w' (sups c ++ [s]) (queries c)
      | Panic _ w' => with_world w' c
      end
  | LStatus id => with_world (handler (GetJobStatus id) (world c)) c
  | LCancelJob id => with_world (handler (CancelJob id) (world c)) c
  | LCancel id =>
      match jobs (world c) !! id with
      | Some job => with_world (handler (cancel (ProcessingJob.Cancel job)) (world c)) c
      | None => c
      end
  | LRemoveJob id => with_world (handler (RemoveJob id) (world c)) c
  | LTimer k =>
      match timers (world c) !! k with
      | Some (id, due) =>
          if bool_decide (due ≤ now (world c)) then
            with_world (handler (CleanupJob id) (set_timers (delete k) (world c))) c
          else c
      | None => c
      end
  | LTick d => with_world (set_now (now (world c) + Z.of_N d) (world c)) c
  | LSup n x => with_sup n (processProperties x) c
  | LWorker n j x => with_sup n (processBatch_worker j x) c
  | LQuery id =>
      mkConfig (world c) (sups c) (queries c ++ [GetJobStatus_begin id (world c)])
  | LQueryStep k =>
      match queries c !! k with
      | Some q =>
          let '(q', w') := GetJobStatus_step q (world c) in
          mkConfig w' (sups c) (<[k := q']> (queries c))
      | None => c
      end
  end.

(** A goroutine of a job has panicked: nothing recovers it, the process
    has ended. *)
Definition panicked (p : PC) : bool :=
  match p with
  | PPanic _ => true
  | _ => false
  end.

Definition crashed (c : Config) : bool := existsb (λ s, panicked (pc s)) (sups c).

Definition step (l : Label) (c : Config) : Config :=
  if crashed c then c else serve l c.

Definition run (trace : list Label) (c : Config) : Config :=
  foldl (λ c l, step l c) c trace.

Definition init : Config := mkConfig empty_world [] [].

(** ** Invariants of the supervisor *)

Definition processed (st : ProcessingStatus.t) : Z := ProcessingStatus.ProcessedCount st.
Definition failed (st : ProcessingStatus.t) : Z := ProcessingStatus.FailedCount st.
Definition total (st : ProcessingStatus.t) : Z := ProcessingStatus.TotalProperties st.
Definition state (st : ProcessingStatus.t) : string := ProcessingStatus.Status st.

(** A snapshot is within its total. *)
Definition within_total (p : ProcessingStatus.t) : Prop :=
  0 ≤ processed p ∧ 0 ≤ failed p ∧ processed p + failed p ≤ total p.

(** Neither counter goes down from [p] to [q]. *)
Definition counts_le (p q : ProcessingStatus.t) : Prop :=
  processed p ≤ processed q ∧ failed p ≤ failed q.

(** Neither counter ever goes down along a list of snapshots. *)
Fixpoint nondecreasing (l : list ProcessingStatus.t) : Prop :=
  match l with
  | p :: (q :: _) as rest => counts_le p q ∧ nondecreasing rest
  | _ => True
  end.

(** What holds of the counters at each program point; [n] is the number of
    listings. *)
Definition pc_inv (s : Supervisor) : Prop :=
  let st := status s in
  let n := length (properties s) in
  match pc s with
  | PStart =>
      published s = [] ∧ properties s = [] ∧ st = ProcessingStatus.zero
  | PSelect on_send on_done =>
      state st = "running" ∧
      ((on_send = PFetch ∧ on_done = PReturn ∧ published s = [] ∧ properties s = []
        ∧ processed st = 0 ∧ failed st = 0)
       ∨ (∃ j, on_send = PLoop j ∧ on_done = PLoop j ∧ published s ≠ []
               ∧ processed st + failed st = Z.of_nat (j `min` n)))
  | PFetch =>
      state st = "running" ∧ length (published s) = 1%nat ∧ properties s = []
      ∧ processed st = 0 ∧ failed st = 0
  | PSend next =>
      (next = PLoop 0 ∧ state st = "running" ∧ length (published s) = 1%nat
       ∧ processed st = 0 ∧ failed st = 0)
      ∨ (next = PMark ∧ published s ≠ []
         ∧ (state st = "completed" → processed st + failed st = Z.of_nat n))
  | PMark | PReturn =>
      state st = "completed" →
      processed st + failed st = Z.of_nat n ∧ last (published s) = Some st
  | PLoop i =>
      state st = "running" ∧ published s ≠ []
      ∧ processed st + failed st = Z.of_nat (i `min` n)
  | PWorkers i e pending results =>
      state st = "running" ∧ published s ≠ []
      ∧ processed st + failed st = Z.of_nat i
      ∧ (i < n)%nat ∧ e = ((i + batchSize) `min` n)%nat
      ∧ (length pending + length results = e - i)%nat
  | PPanic _ =>
      state st = "completed" → processed st + failed st = Z.of_nat n
  end.

(** What holds of the current status and of the snapshots sent so far. *)
Definition data_inv (n : Z) (st : ProcessingStatus.t)
    (pubs : list ProcessingStatus.t) : Prop :=
  total st = n ∧ 0 ≤ processed st ∧ 0 ≤ failed st ∧ processed st + failed st ≤ n
  ∧ Forall within_total pubs
  ∧ Forall (λ p, total p = n) (tail pubs)
  ∧ nondecreasing pubs
  ∧ (∀ p, last pubs = Some p → counts_le p st).

Definition sup_inv (s : Supervisor) : Prop :=
  Z.of_nat (length (properties s)) ≤ max_int
  ∧ data_inv (Z.of_nat (length (properties s))) (status s) (published s)
  ∧ pc_inv s.

(** ** Invariants of the shared store *)

(** Every registered job has an open status channel of its own, references
    are allocated below the counter, and a completed job has its cleanup
    goroutine sleeping. *)
Definition wf (w : World) : Prop :=
  (∀ id j, jobs w !! id = Some j →
     ∃ c, chans w !! ProcessingJob.Status j = Some c ∧ Chan.closed c = false)
  ∧ (∀ id1 id2 j1 j2, jobs w !! id1 = Some j1 → jobs w !! id2 = Some j2 →
       ProcessingJob.Status j1 = ProcessingJob.Status j2 → id1 = id2)
  ∧ (∀ r, is_Some (chans w !! r) → (r < next_ref w)%nat)
  ∧ (∀ id j t, jobs w !! id = Some j → ProcessingJob.CompletedAt j = Some t →
       (id, t + JobRetentionDuration) ∈ timers w).

(** Two stores with the same jobs up to their cached snapshot, the same
    channels up to their buffers, the same counter and the same timers. *)
Definition same_shape (w w' : World) : Prop :=
  (∀ id, ProcessingJob.set_LastStatus None <$> jobs w' !! id
         = ProcessingJob.set_LastStatus None <$> jobs w !! id)
  ∧ (∀ r, Chan.closed <$> chans w' !! r = Chan.closed <$> chans w !! r)
  ∧ next_ref w' = next_ref w
  ∧ timers w' = timers w.

(** ** The jobs behind the pointers of the status queries *)

(** A call that has not returned still uses its pointer. *)
Definition live (p : QPC) : bool :=
  match p with
  | QLookedUp | QReceived _ | QStored _ => true
  | QDone _ | QPanic _ => false
  end.

(** There is a job with channel [r] that was registered under [id]: it is
    in the registry or it has left it. *)
Definition has_job (w : World) (r : ref) (id : string) : Prop :=
  (∃ k job, jobs w !! k = Some job ∧ ProcessingJob.Status job = r
            ∧ ProcessingJob.ID job = id)
  ∨ (∃ job, detached w !! r = Some job ∧ ProcessingJob.ID job = id).

(** A job is registered under its own id; a job that has left the
    registry is filed under its channel, which no registered job has; and
    the pointer of a status query in flight is the pointer to a job that
    was registered under the id of the query. *)
Definition heap_ok (w : World) (qs : list Query.t) : Prop :=
  (∀ id job, jobs w !! id = Some job → ProcessingJob.ID job = id)
  ∧ (∀ r job, detached w !! r = Some job →
       ProcessingJob.Status job = r ∧ (r < next_ref w)%nat
       ∧ ∀ id job', jobs w !! id = Some job' → ProcessingJob.Status job' ≠ r)
  ∧ (∀ k q, qs !! k = Some q → live (Query.pc q) = true →
       has_job w (Query.job q) (Query.jobID q)).

Definition heap_inv (c : Config) : Prop := heap_ok (world c) (queries c).

(** Two stores with the same jobs, in the registry and out of it, up to
    what is written on them. *)
Definition same_heap (w w' : World) : Prop :=
  (∀ id, (λ job, (ProcessingJob.ID job, ProcessingJob.Status job)) <$> jobs w' !! id
         = (λ job, (ProcessingJob.ID job, ProcessingJob.Status job)) <$> jobs w !! id)
  ∧ (∀ r, (λ job, (ProcessingJob.ID job, ProcessingJob.Status job)) <$> detached w' !! r
          = (λ job, (ProcessingJob.ID job, ProcessingJob.Status job)) <$> detached w !! r)
  ∧ next_ref w' = next_ref w.

(** ** The retention window *)

Definition finished (p : PC) : bool :=
  match p with
  | PReturn | PPanic _ => true
  | _ => false
  end.

(** No supervisor of job [id] is still running. *)
Definition all_finished (id : string) (ss : list Supervisor) : bool :=
  forallb (λ s, negb (bool_decide (jobID s = id)) || finished (pc s)) ss.

(** A label that neither cancels, removes nor starts job [id]. *)
Definition leaves_alone (id : string) (l : Label) : bool :=
  match l with
  | LStart id' _ | LCancelJob id' | LRemoveJob id' => negb (bool_decide (id' = id))
  | _ => true
  end.

Definition queryable (id : string) (w : World) : Prop :=
  ∃ st w', GetJobStatus id w = Ok (Some st, true) w'.

Definition not_found (id : string) (w : World) : Prop :=
  ∃ w', GetJobStatus id w = Ok (None, false) w'.

(** The claim that a job that has reached a terminal state at time [t]
    stays queryable until the retention window has elapsed, whatever
    happens in between. *)
Definition retention_unconditional : Prop :=
  ∀ (before after : list Label) (id : string) (job : ProcessingJob.t) (t : Time),
    jobs (world (run before init)) !! id = Some job →
    ProcessingJob.CompletedAt job = Some t →
    let c' := run after (run before init) in
    now (world c') < t + JobRetentionDuration →
    queryable id (world c').

(** A status query that has taken a snapshot from the channel [r] and has
    yet to write it to [job.LastStatus]: between the two it holds no
    lock. *)
Definition stale (r : ref) (q : Query.t) : bool :=
  bool_decide (Query.job q = r)
  && match Query.pc q with QReceived _ => true | _ => false end.

Definition no_stale (r : ref) (qs : list Query.t) : bool :=
  forallb (λ q, negb (stale r q)) qs.

(** A label that neither cancels, removes nor starts job [id], and that
    is not the call of [MarkJobCompleted] by a supervisor of [id]. *)
Definition quiet (id : string) (c : Config) (l : Label) : bool :=
  match l with
  | LStart id' _ | LCancelJob id' | LRemoveJob id' => negb (bool_decide (id' = id))
  | LSup n _ =>
      match sups c !! n with
      | Some s =>
          negb (bool_decide (jobID s = id)
                && match pc s with PMark => true | _ => false end)
      | None => true
      end
  | _ => true
  end.

(** The job [job] is registered under [id], or it has left the registry
    and no other job has taken its place. *)
Definition held (id : string) (job : ProcessingJob.t) (w : World) : Prop :=
  jobs w !! id = Some job
  ∨ (jobs w !! id = None ∧ detached w !! ProcessingJob.Status job = Some job).

(** Where a status query for [id] stands that was begun while [job]
    carried the snapshot [last]: it has looked the job up, or it has
    answered with [last], or it has found no job, the job being gone. *)
Definition answered (id : string) (job : ProcessingJob.t) (last : ProcessingStatus.t)
    (w : World) (q : Query.t) : Prop :=
  Query.jobID q = id →
  (Query.pc q = QLookedUp ∧ Query.job q = ProcessingJob.Status job)
  ∨ Query.pc q = QDone (Some last, true)
  ∨ (Query.pc q = QDone (None, false) ∧ jobs w !! id = None).

(** What stays true of a job [job] with a cached snapshot, registered
    under [id], as long as it is left alone: it is as it was, in the
    registry or out of it, no status query is about to overwrite its
    snapshot, and the queries from the [N]th on see that snapshot. *)
Definition kept (id : string) (job : ProcessingJob.t) (last : ProcessingStatus.t)
    (N : nat) (c : Config) : Prop :=
  wf (world c) ∧ heap_inv c
  ∧ ProcessingJob.ID job = id
  ∧ held id job (world c)
  ∧ no_stale (ProcessingJob.Status job) (queries c) = true
  ∧ ∀ k q, (N ≤ k)%nat → queries c !! k = Some q → answered id job last (world c) q.

(** What an operation leaves as it is for the job with channel [r] that
    was registered under [id]: the clock, the entry of the registry and
    the job itself once it has left the registry. *)
Definition frames (id : string) (r : ref) (w w' : World) : Prop :=
  now w' = now w ∧ jobs w' !! id = jobs w !! id ∧ detached w' !! r = detached w !! r.

(** ** What a batch adds to the counters *)

(** The error results and the [nil] results among the results of a batch. *)
Fixpoint failures (results : list (option string)) : Z :=
  match results with
  | [] => 0
  | Some _ :: rest => 1 + failures rest
  | None :: rest => failures rest
  end.

Fixpoint successes (results : list (option string)) : Z :=
  match results with
  | [] => 0
  | Some _ :: rest => successes rest
  | None :: rest => 1 + successes rest
  end.

(** The [n]-th supervisor is in [wg.Wait()]: it takes no step. *)
Definition waits (n : nat) (l : Label) : bool :=
  match l with
  | LSup m _ => negb (bool_decide (m = n))
  | _ => true
  end.

(** ** What a worker has persisted *)

(** The records handed to [propertyRepo.Create] so far. *)
Definition creates (evs : list Effect) : list Property.t :=
  omap (λ ev, match ev with ECreate p _ => Some p | _ => None end) evs.

(** ** Scenarios *)

(** A listing with the given id and photo URLs. *)
Definition listing (id : string) (photos : list string) : SimplyRETSProperty.t :=
  SimplyRETSProperty.mk id "1005192"
    (SimplyRETSAddress.mk "74434 East Sweet Bottom Br, Houston" "" "74434"
       "East Sweet Bottom Br" "Houston" "Texas" "77096")
    20714261
    (SimplyRETSPropertyDetails.mk "RES" "Traditional" 1998 2 1043 "" 2 0)
    photos "A charming home".

Definition one_listing : Slice SimplyRETSProperty.t :=
  mkSlice [listing "L1" ["http://img/0"; "http://img/1"; "http://img/2"]] eq_refl.

Definition no_listings : Slice SimplyRETSProperty.t := mkSlice [] eq_refl.

(** The answers of the outside. *)
Definition no_io : SupExt := mkSupExt false (DoError "connection refused").
Definition fetched (ps : Slice SimplyRETSProperty.t) : SupExt :=
  mkSupExt false (Response 200 (inr ps)).
Definition picking (done_first : bool) : SupExt :=
  mkSupExt done_first (DoError "connection refused").

Definition image_ok : HttpResult ImageBody :=
  Response 200 (mkImageBody "image/jpeg" None None).
Definition image_not_found : HttpResult ImageBody :=
  Response 404 (mkImageBody "text/plain" None None).

Definition all_images_ok : WorkerExt := mkWorkerExt (λ _, image_ok) None id.
Definition second_image_fails : WorkerExt :=
  mkWorkerExt (λ i, if decide (i = 1%nat) then image_not_found else image_ok) None id.

(** A job is started, publishes its initial snapshot, fetches the listings
    and publishes their number. *)
Definition start_and_fetch (ps : Slice SimplyRETSProperty.t) : list Label :=
  [LStart "job" 25; LSup 0 no_io; LSup 0 no_io; LSup 0 (fetched ps); LSup 0 no_io].

(** ... then starts its first batch. *)
Definition first_batch_started : list Label :=
  start_and_fetch one_listing ++ [LSup 0 no_io].

(** A whole run over one listing. *)
Definition whole_run : list Label :=
  first_batch_started
  ++ [LWorker 0 0 all_images_ok; LSup 0 no_io; LSup 0 no_io;
      LSup 0 no_io; LSup 0 no_io; LSup 0 no_io].

(** A whole run over no listing: the job is completed at time 0. *)
Definition empty_run : list Label :=
  start_and_fetch no_listings ++ [LSup 0 no_io; LSup 0 no_io; LSup 0 no_io].

Definition completed_empty : ProcessingStatus.t :=
  ProcessingStatus.mk 0 "completed" 0 0 0 0 (Some 0) "".

Definition completed_job : ProcessingJob.t :=
  ProcessingJob.mk "job" 1 0 0 (Some completed_empty) (Some 0).

(** A job is completed; one second later a status query begins, and one
    minute later it reads the job. *)
Definition query_after_completion : list Label :=
  [LTick 1000000000%N; LQuery "job"; LTick 60000000000%N; LQueryStep 0; LStatus "job"].

(** The first batch is in flight and a status query has cached the first
    snapshot on the job. *)
Definition first_query_done : list Label := first_batch_started ++ [LStatus "job"].

(** The worker and the supervisor go on while a status query runs in two
    parts. *)
Definition progress_and_query : list Label :=
  [LWorker 0 0 all_images_ok; LQuery "job"; LSup 0 no_io; LQueryStep 0; LSup 0 no_io].

(** A status query takes a snapshot from the channel and stores it on the
    job; a cancel request arrives before the query puts the snapshot
    back. *)
Definition query_then_cancel : list Label :=
  first_batch_started ++ [LQuery "job"; LQueryStep 0; LQueryStep 0; LCancelJob "job"].

(** A job over no listing is about to be marked completed; a status query
    takes a snapshot from the channel; the supervisor calls
    [MarkJobCompleted] before the query writes the snapshot to the job. *)
Definition final_then_stale_write : list Label :=
  start_and_fetch no_listings
  ++ [LSup 0 no_io; LSup 0 no_io; LQuery "job"; LQueryStep 0; LSup 0 no_io].

(** The first batch is in flight and a status query has a snapshot in
    its hands. *)
Definition query_holds_snapshot : list Label :=
  first_batch_started ++ [LQuery "job"; LQueryStep 0].

(** A job over 971 listings without photos. *)
Definition many_listings : Slice SimplyRETSProperty.t :=
  mkSlice (replicate 971 (listing "L" [])) eq_refl.

(** One batch of [k] listings: the supervisor starts it, the workers run
    in turn, the supervisor counts the results and sends the snapshot. *)
Definition one_batch (k : nat) : list Label :=
  [LSup 0 no_io] ++ replicate k (LWorker 0 0 all_images_ok)
  ++ [LSup 0 no_io; LSup 0 no_io].

(** The job has gone through its 98 batches, with no status query, and
    has set its state to ["completed"]. *)
Definition all_batches_done : list Label :=
  [LStart "job" 1000; LSup 0 no_io; LSup 0 no_io; LSup 0 (fetched many_listings);
   LSup 0 no_io]
  ++ concat (replicate 97 (one_batch 10)) ++ one_batch 1 ++ [LSup 0 no_io].

(** A cancel request arrives after the listings are fetched and before the
    check at the head of the first batch; the supervisor then makes that
    check. *)
Definition cancel_seen_at_boundary : list Label :=
  start_and_fetch one_listing ++ [LCancelJob "job"; LSup 0 no_io].

(** A cancel request arrives while the first batch is in flight; the
    worker ends, the results are counted, and the supervisor goes on. *)
Definition cancel_during_batch (done_first : bool) : list Label :=
  first_batch_started
  ++ [LCancelJob "job"; LWorker 0 0 all_images_ok; LSup 0 no_io;
      LSup 0 (picking done_first); LSup 0 no_io; LSup 0 no_io].

(** The context of the job is cancelled while the worker of the first
    batch has not run yet. *)
Definition cancelled_in_batch : list Label := first_batch_started ++ [LCancel "job"].

(** A cancel request arrives while the listings are being fetched. *)
Definition cancel_during_fetch : list Label :=
  [LStart "job" 25; LSup 0 no_io; LSup 0 no_io; LCancelJob "job";
   LSup 0 (fetched one_listing)].

Definition idle : Supervisor :=
  mkSupervisor "" 0 0 0 PReturn ProcessingStatus.zero [] [] false.

Definition sup_at (n : nat) (c : Config) : Supervisor := default idle (sups c !! n).

(** ** Reachable stores *)

(** The store after a run of the system from its initial state. *)
Definition reached (trace : list Label) : World := world (run trace init).

(** Contexts are allocated below the counter: those of the registered jobs
    and the cancelled ones. *)
Definition refs_inv (w : World) : Prop :=
  (∀ id job, jobs w !! id = Some job → (ProcessingJob.Cancel job < next_ref w)%nat)
  ∧ (∀ r, r ∈ cancelled w → (r < next_ref w)%nat).

(** ** Downloaded images *)

(** The extension, the file name and the photo that [downloadImage] and
    [downloadImages] make for the image at index [k] of a listing, from
    the body of its response. *)
Definition image_ext (body : ImageBody) : string :=
  if strings_Contains (ContentType body) "png" then ".png" else ".jpg".

Definition image_filename (propertyID : string) (k : nat) (body : ImageBody) : string :=
  propertyID +:+ "_" +:+ pretty (Z.of_nat k) +:+ image_ext body.

Definition photo_for (propertyID imageURL : string) (k : nat) (body : ImageBody)
    : Photo.t :=
  Photo.mk imageURL ("/images/" +:+ image_filename propertyID k body)
           ("Property image " +:+ pretty (Z.of_nat k + 1)).

(** An exchange that gives an image: status 200, and the file is created
    and written. *)
Definition image_arrives (r : HttpResult ImageBody) : Prop :=
  ∃ body, r = Response 200 body ∧ createFileErr body = None ∧ copyErr body = None.

(** [p] is the photo of the image at some index from [lo] on. *)
Definition photo_from (propertyID : string) (imgs : nat → HttpResult ImageBody)
    (imageURLs : list string) (first lo : nat) (p : Photo.t) : Prop :=
  ∃ k body, (lo ≤ k)%nat
    ∧ imageURLs !! (k - first)%nat = Some (Photo.URL p) ∧ (first ≤ k)%nat
    ∧ imgs k = Response 200 body
    ∧ p = photo_for propertyID (Photo.URL p) k body.

(** ** Status queries while a job runs *)

(** A label that leaves the registry's entries as they are in
    configuration [c], unless a status query caches a snapshot: time
    passing, a status query or a part of one, a worker, or a step of a
    supervisor other than its call of [MarkJobCompleted]. *)
Definition progress_label (c : Config) (l : Label) : bool :=
  match l with
  | LTick _ | LStatus _ | LWorker _ _ _ | LQuery _ | LQueryStep _ => true
  | LSup n _ =>
      match sups c !! n with
      | Some s => match pc s with PMark => false | _ => true end
      | None => true
      end
  | _ => false
  end.

Fixpoint progress_only (c : Config) (trace : list Label) : bool :=
  match trace with
  | [] => true
  | l :: rest => progress_label c l && progress_only (step l c) rest
  end.

(** ** The shape of a supervisor's run *)

(** A snapshot of a job that is running, and a snapshot of a job that has
    ended. *)
Definition running_snapshot (p : ProcessingStatus.t) : Prop :=
  state p = "running" ∧ ProcessingStatus.CompletedAt p = None
  ∧ ProcessingStatus.ErrorMessage p = "".

Definition terminal_snapshot (p : ProcessingStatus.t) : Prop :=
  (state p = "failed" ∨ state p = "cancelled" ∨ state p = "completed")
  ∧ is_Some (ProcessingStatus.CompletedAt p).

(** The program points from which no batch is started any more. *)
Definition winding_down (p : PC) : bool :=
  match p with
  | PSend PMark | PMark | PReturn | PPanic _ => true
  | _ => false
  end.

(** The published snapshots are running ones, followed by the current
    status when it is a terminal one that has been sent. *)
Definition ends_with_status (s : Supervisor) : Prop :=
  ∃ pre, published s = pre ++ [status s] ∧ Forall running_snapshot pre
         ∧ terminal_snapshot (status s)
         ∧ (10 * length (published s) ≤ length (properties s) + 39)%nat.

(** What holds at each program point of the states, of the number of
    snapshots sent and of the batches; [b] counts the batches done. *)
Definition shape_inv (s : Supervisor) : Prop :=
  let st := status s in
  let n := length (properties s) in
  let pubs := published s in
  match pc s with
  | PStart => pubs = []
  | PSelect on_send on_done =>
      running_snapshot st ∧ Forall running_snapshot pubs
      ∧ ((on_send = PFetch ∧ on_done = PReturn ∧ pubs = [])
         ∨ (∃ b, on_send = PLoop (b * 10) ∧ on_done = PLoop (b * 10)
                 ∧ (1 ≤ b)%nat ∧ ((b - 1) * 10 < n)%nat
                 ∧ (length pubs ≤ 1 + b)%nat))
  | PFetch => running_snapshot st ∧ Forall running_snapshot pubs ∧ length pubs = 1%nat
  | PSend next =>
      Forall running_snapshot pubs
      ∧ ((next = PLoop 0 ∧ running_snapshot st ∧ length pubs = 1%nat)
         ∨ (next = PMark ∧ terminal_snapshot st
            ∧ (10 * (length pubs + 1) ≤ n + 39)%nat))
  | PMark => ends_with_status s
  | PReturn => (pubs = [] ∧ running_snapshot st) ∨ ends_with_status s
  | PLoop i =>
      running_snapshot st ∧ Forall running_snapshot pubs
      ∧ ∃ b, i = (b * 10)%nat ∧ (b = 0%nat ∨ ((b - 1) * 10 < n)%nat)
             ∧ (length pubs ≤ 2 + b)%nat
  | PWorkers i e pending results =>
      running_snapshot st ∧ Forall running_snapshot pubs
      ∧ (∃ b, i = (b * 10)%nat ∧ (length pubs ≤ 2 + b)%nat)
      ∧ (i < n)%nat ∧ (e ≤ i + 10)%nat ∧ (e ≤ n)%nat
      ∧ NoDup pending ∧ Forall (λ k, (i ≤ k < e)%nat) pending
  | PPanic _ =>
      Forall running_snapshot pubs ∧ (10 * (length pubs + 1) ≤ n + 39)%nat
  end.

(** ** The status channel of a supervisor *)

(** The capacity of each channel and the number of values it holds. *)
Definition chan_sizes (w : World) : gmap ref (nat * nat) :=
  (λ ch, (Chan.cap ch, length (Chan.buf ch))) <$> chans w.

(** A status query that has a snapshot of the channel [r] in its hands:
    it has received it and has not put it back. *)
Definition holding (r : ref) (q : Query.t) : bool :=
  bool_decide (Query.job q = r)
  && match Query.pc q with QReceived _ | QStored _ => true | _ => false end.

Fixpoint in_hands (r : ref) (qs : list Query.t) : nat :=
  match qs with
  | [] => 0
  | q :: rest => (if holding r q then 1 else 0) + in_hands r rest
  end.

(** What a call that sends nothing does to a channel: the capacity stays;
    the channel may be closed; a value can leave an open channel only
    when the buffer is over-full (a receive that hands the place over to
    a blocked sender). *)
Definition chan_step (ch ch' : Chan.t) : Prop :=
  Chan.cap ch' = Chan.cap ch
  ∧ (length (Chan.buf ch') ≤ length (Chan.buf ch))%nat
  ∧ (Chan.closed ch' = false →
     Chan.closed ch = false
     ∧ (length (Chan.buf ch') = length (Chan.buf ch)
        ∨ (Chan.cap ch < length (Chan.buf ch))%nat)).

Definition chans_settle (w w' : World) : Prop :=
  next_ref w' = next_ref w
  ∧ ∀ r, option_Forall2 chan_step (chans w !! r) (chans w' !! r).

(** As long as a supervisor has sent fewer than 100 snapshots, it is not
    blocked in a send, and the snapshots it has sent are in its channel
    or in the hands of [h] status queries; a closed channel has only lost
    snapshots. *)
Definition sent_ok (s : Supervisor) (ch : Chan.t) (h : nat) : Prop :=
  (length (published s) < 100)%nat →
  parked s = false
  ∧ (length (Chan.buf ch) ≤ length (published s))%nat
  ∧ (Chan.closed ch = false →
     (length (Chan.buf ch) + h = length (published s))%nat).

(** Every channel was made with room for 100 values; the channel of a
    supervisor exists and holds what the supervisor has sent; no two
    supervisors send on the same channel. *)
Definition chan_inv (c : Config) : Prop :=
  (∀ r ch, chans (world c) !! r = Some ch → Chan.cap ch = 100%nat)
  ∧ (∀ n s, sups c !! n = Some s →
       (statusChan s < next_ref (world c))%nat
       ∧ ∃ ch, chans (world c) !! statusChan s = Some ch
               ∧ sent_ok s ch (in_hands (statusChan s) (queries c)))
  ∧ (∀ n m s s', sups c !! n = Some s → sups c !! m = Some s' →
       statusChan s = statusChan s' → n = m).

(** What a step of a supervisor does to the channels: it touches its own
    channel only and leaves its capacity; and when the supervisor is not
    blocked and its send can proceed, either nothing is sent or the
    current status is queued on the open channel. *)
Definition sends (s : Supervisor) (w : World) (s' : Supervisor) (w' : World) : Prop :=
  statusChan s' = statusChan s
  ∧ next_ref w' = next_ref w
  ∧ (length (published s) ≤ length (published s'))%nat
  ∧ (∀ r, r ≠ statusChan s → chans w' !! r = chans w !! r)
  ∧ option_Forall2
      (λ ch ch',
         Chan.cap ch' = Chan.cap ch
         ∧ (parked s = false → Chan.send_can_proceed ch = true →
            parked s' = false
            ∧ ((published s' = published s ∧ ch' = ch)
               ∨ (Chan.closed ch = false
                  ∧ published s' = published s ++ [status s]
                  ∧ ch' = Chan.push (status s) ch))))
      (chans w !! statusChan s) (chans w' !! statusChan s).

(** The program points at which the supervisor sends a snapshot. *)
Definition sending (p : PC) : bool :=
  match p with
  | PSend _ | PSelect _ _ => true
  | _ => false
  end.

(** A job is started and its supervisor has fetched one listing: it is
    about to send the snapshot that carries the total. *)
Definition listings_fetched : list Label :=
  [LStart "job" 25; LSup 0 no_io; LSup 0 no_io; LSup 0 (fetched one_listing)].

(** ** Proof automation *)

(** Unfolds the counters of a snapshot and closes linear goals. *)
Ltac counts :=
  unfold counts_le, within_total, processed, failed, total, state in *;
  simpl in *; try done; try lia.

(** Splits a step into the case of the ended process, where nothing
    happens, and the case of the running one. *)
Ltac alive :=
  unfold step;
  match goal with
  | |- context [crashed ?c] => destruct (crashed c) eqn:Halive
  end; [try done|].

(** * Properties *)

(** ** The listing converter *)

Lemma nullInt32_normalised (i : Z) : int_normalised i (nullInt32 i).
Proof. unfold int_normalised, nullInt32. case_decide; naive_solver. Qed.

Lemma nullString_normalised (s : string) : string_normalised s (nullString s).
Proof. unfold string_normalised, nullString. case_decide; naive_solver. Qed.

(** C9. [convertToProperty] is a function of the external listing and the
    photos alone; in its result each optional number (bedrooms, bathrooms,
    area, year built) is the explicit absent value when the external value
    is zero and is flagged present otherwise, and each optional string (lot
    size, property type, remarks, listing id, MLS number) is the explicit
    absent value when the external value is empty and is flagged present,
    with the same text, otherwise. *)
Theorem convertToProperty_optional_fields
    (sp : SimplyRETSProperty.t) (photos : PhotoList) :
  let d := SimplyRETSProperty.Property sp in
  let p := convertToProperty sp photos in
  int_normalised (SimplyRETSPropertyDetails.Bedrooms d) (Property.Bedrooms p)
  ∧ int_normalised (SimplyRETSPropertyDetails.Bathrooms d) (Property.Bathrooms p)
  ∧ int_normalised (SimplyRETSPropertyDetails.Area d) (Property.SquareFeet p)
  ∧ int_normalised (SimplyRETSPropertyDetails.YearBuilt d) (Property.YearBuilt p)
  ∧ string_normalised (SimplyRETSPropertyDetails.LotSize d) (Property.LotSize p)
  ∧ string_normalised (SimplyRETSPropertyDetails.PropertyType d) (Property.PropertyType p)
  ∧ string_normalised (SimplyRETSProperty.Remarks sp) (Property.Description p)
  ∧ string_normalised (SimplyRETSProperty.ListingID sp) (Property.ExternalID p)
  ∧ string_normalised (FlexibleString_String (SimplyRETSProperty.MLSNumber sp))
      (Property.MLSNumber p).
Proof.
  intros d p. subst d p. unfold convertToProperty. simpl.
  split_and!; first [ apply nullInt32_normalised | apply nullString_normalised ].
Qed.

(** ** Counting the results of a batch *)

Lemma int64_small (z : Z) : - 2 ^ 63 ≤ z ≤ max_int → int64 z = z.
Proof.
  unfold int64, max_int. intros H.
  rewrite Z.mod_small by lia. lia.
Qed.

Lemma tally_fields (r : option string) (st : ProcessingStatus.t) :
  state (tally r st) = state st ∧ total (tally r st) = total st
  ∧ ProcessingStatus.CompletedAt (tally r st) = ProcessingStatus.CompletedAt st.
Proof. destruct r; done. Qed.

Lemma tally_counts (r : option string) (st : ProcessingStatus.t) :
  0 ≤ processed st → 0 ≤ failed st → processed st + failed st < max_int →
  counts_le st (tally r st)
  ∧ processed (tally r st) + failed (tally r st) = processed st + failed st + 1.
Proof.
  intros Hp Hf Hb. unfold counts_le.
  destruct r; unfold tally, processed, failed in *; simpl;
    rewrite int64_small by (unfold max_int in *; lia); lia.
Qed.

Lemma collect_counts (rs : list (option string)) (st : ProcessingStatus.t) :
  0 ≤ processed st → 0 ≤ failed st →
  processed st + failed st + Z.of_nat (length rs) ≤ max_int →
  counts_le st (collect rs st)
  ∧ processed (collect rs st) + failed (collect rs st)
    = processed st + failed st + Z.of_nat (length rs)
  ∧ state (collect rs st) = state st ∧ total (collect rs st) = total st.
Proof.
  unfold collect. revert st.
  induction rs as [|r rs IH]; intros st Hp Hf Hb; simpl in *.
  - unfold counts_le. repeat split; lia.
  - destruct (tally_counts r st) as [[Hp1 Hf1] Hsum]; [lia..|].
    destruct (tally_fields r st) as (Hs & Ht & _).
    destruct (IH (tally r st)) as ([Hp2 Hf2] & Hsum2 & Hs2 & Ht2); [lia..|].
    unfold counts_le. repeat split; try lia; congruence.
Qed.

(** ** The supervisor keeps its invariant *)

Lemma nondecreasing_snoc (l : list ProcessingStatus.t) (x : ProcessingStatus.t) :
  nondecreasing l → (∀ p, last l = Some p → counts_le p x) →
  nondecreasing (l ++ [x]).
Proof.
  induction l as [|a l IH]; [done|].
  destruct l as [|b l]; simpl in *.
  - intros _ H. split; [by apply H | done].
  - intros [Hab Hl] H. split; [done|]. apply IH; [done|].
    intros p Hp. by apply H.
Qed.

Lemma counts_le_refl (p : ProcessingStatus.t) : counts_le p p.
Proof. unfold counts_le. lia. Qed.

Lemma counts_le_trans (p q r : ProcessingStatus.t) :
  counts_le p q → counts_le q r → counts_le p r.
Proof. unfold counts_le. lia. Qed.

Lemma data_inv_publish n st pubs :
  data_inv n st pubs → data_inv n st (pubs ++ [st]).
Proof.
  intros (Ht & Hp & Hf & Hle & Hall & Htl & Hnd & Hlast).
  unfold data_inv. split_and!; try done.
  - apply Forall_app. split; [done|]. apply Forall_singleton.
    unfold within_total. lia.
  - destruct pubs as [|a pubs]; simpl in *; [done|].
    apply Forall_app. split; [done|]. by apply Forall_singleton.
  - by apply nondecreasing_snoc.
  - intros p. rewrite last_snoc. intros [= <-]. apply counts_le_refl.
Qed.

(** Changing the current status to one with the same total and counters
    that are no smaller keeps the invariant of the data. *)
Lemma data_inv_advance n st st' pubs :
  data_inv n st pubs → total st' = total st → counts_le st st' →
  processed st' + failed st' ≤ n →
  data_inv n st' pubs.
Proof.
  intros (Ht & Hp & Hf & Hle & Hall & Htl & Hnd & Hlast) Ht' [Hp' Hf'] Hle'.
  unfold data_inv. split_and!; try done; try lia.
  intros p Hp0. eapply counts_le_trans; [by apply Hlast|]. by split.
Qed.

(** Whether the supervisor is parked says nothing about what it has
    counted or sent. *)
Lemma set_parked_id (b : bool) (s : Supervisor) : parked s = b → s = set_parked b s.
Proof. intros <-. by destruct s. Qed.

Lemma park_cases s w : ∃ b, (park s w).1 = set_parked b s.
Proof.
  unfold park. destruct (chans w !! statusChan s); simpl; [by exists true|].
  exists (parked s). by apply set_parked_id.
Qed.

(** What a send of the supervisor leaves of it: the snapshot is sent, or
    the supervisor waits, or it panics. *)
Lemma send_status_cases next s w :
  (∃ b, (send_status next s w).1 = set_parked b (set_pc next (publish s)))
  ∨ (∃ b, (send_status next s w).1 = set_parked b s)
  ∨ ∃ msg, (send_status next s w).1 = set_pc (PPanic msg) s.
Proof.
  unfold send_status. destruct (parked s) eqn:Hp.
  - destruct (was_released s w); [left; by exists false|].
    destruct (chan_closed _ _); simpl; [by eauto|].
    right; left. exists true. by apply set_parked_id.
  - destruct (try_send _ _ _) as [[] w'|]; simpl; [| |by eauto].
    + left. exists false. by apply set_parked_id.
    + right; left. apply park_cases.
Qed.

(** The same for the [select] between the send and the cancellation, which
    can also take its other case. *)
Lemma select_cases x s w k1 k2 :
  pc s = PSelect k1 k2 →
  (∃ b, (processProperties x s w).1 = set_parked b (set_pc k1 (publish s)))
  ∨ (∃ b, (processProperties x s w).1 = set_parked b s)
  ∨ (∃ msg, (processProperties x s w).1 = set_pc (PPanic msg) s)
  ∨ (∃ b, (processProperties x s w).1 = set_parked b (set_pc k2 s)).
Proof.
  intros Hpc. unfold processProperties. rewrite Hpc.
  destruct (parked s) eqn:Hp.
  - destruct (was_released s w); [left; by exists false|].
    destruct (chan_closed _ _), (is_cancelled _ _); simpl.
    + destruct (pick_done x); simpl; [|by eauto].
      right; right; right. by exists false.
    + by eauto.
    + right; right; right. by exists false.
    + right; left. exists true. by apply set_parked_id.
  - destruct (send_can_proceed _ _), (is_cancelled _ _); simpl.
    + destruct (pick_done x); simpl.
      * right; right; right. exists false. by apply set_parked_id.
      * destruct (send_status_cases k1 s w) as [?|[?|?]]; eauto.
    + destruct (send_status_cases k1 s w) as [?|[?|?]]; eauto.
    + right; right; right. exists false. by apply set_parked_id.
    + right; left. apply park_cases.
Qed.

Lemma sup_inv_set_parked b s : sup_inv s → sup_inv (set_parked b s).
Proof. done. Qed.

Lemma finish_inv name s w :
  name ≠ "completed" ∨
    processed (status s) + failed (status s) = Z.of_nat (length (properties s)) →
  published s ≠ [] →
  data_inv (Z.of_nat (length (properties s))) (status s) (published s) →
  data_inv (Z.of_nat (length (properties s))) (status (finish name s w))
    (published (finish name s w))
  ∧ pc_inv (finish name s w).
Proof.
  intros Hname Hpub Hd. unfold finish. simpl. split.
  - apply (data_inv_advance _ (status s)); [exact Hd|done|by split|].
    destruct Hd as (_ & _ & _ & Hle & _). exact Hle.
  - unfold pc_inv. simpl. right. split_and!; [done..|].
    unfold state. simpl. intros ->. by destruct Hname.
Qed.

Lemma fetchProperties_len ctx limit r w :
  ∃ props err, fetchProperties ctx limit r w = Ok (props, err) w
    ∧ Z.of_nat (length props) ≤ max_int
    ∧ (err ≠ None → props = []).
Proof.
  assert (Z.of_nat (length (@nil SimplyRETSProperty.t)) ≤ max_int) as Hnil
    by (unfold max_int; simpl; lia).
  unfold fetchProperties, client_Do, bind, ret.
  destruct r as [e|e|code [e|props]]; simpl;
    repeat case_match; simplify_eq;
    eexists _, _; (split; [done|]); split; try done.
  all: match goal with
       | p : Slice _ |- _ => pose proof (len_ok p) as H; by apply Z.leb_le in H
       end.
Qed.

Lemma select_done_inv s k1 k2 :
  pc s = PSelect k1 k2 → sup_inv s → sup_inv (set_pc k2 s).
Proof.
  intros Hpc (Hmax & Hd & Hp). unfold sup_inv. simpl. split_and!; [done..|].
  unfold pc_inv in *. rewrite Hpc in Hp. simpl.
  destruct Hp as [Hrun [(-> & -> & _)|(j & -> & -> & Hpub & Hsum)]].
  - intros Hc. counts. congruence.
  - done.
Qed.

Lemma sent_inv next s :
  pc s = PSend next ∨ (∃ k2, pc s = PSelect next k2) →
  sup_inv s →
  sup_inv (set_pc next (publish s)) ∧ ∀ msg, sup_inv (set_pc (PPanic msg) s).
Proof.
  intros Hpc (Hmax & Hd & Hp). split; [|intros msg].
  - (* the snapshot is queued *)
    unfold sup_inv. simpl. split_and!; [done|by apply data_inv_publish|].
    unfold pc_inv in *. simpl.
    destruct Hpc as [Hpc|[k2 Hpc]]; rewrite Hpc in Hp.
    + destruct Hp as [(-> & Hrun & Hlen & Hp0 & Hf0)|(-> & Hpub & Hdone)].
      * split_and!; [done| by destruct (published s) |]. simpl. lia.
      * intros Hc. split; [by apply Hdone|]. apply last_snoc.
    + destruct Hp as [Hrun [(-> & -> & Hpub & Hprops & Hp0 & Hf0)
                           |(j & -> & -> & Hpub & Hsum)]].
      * rewrite Hpub. done.
      * split_and!; [done| by destruct (published s) | done].
  - (* the channel is closed *)
    unfold sup_inv. simpl. split_and!; [done..|].
    unfold pc_inv in *. simpl.
    destruct Hpc as [Hpc|[k2 Hpc]]; rewrite Hpc in Hp.
    + destruct Hp as [(-> & Hrun & _)|(-> & Hpub & Hdone)]; [|done].
      intros Hc. counts. congruence.
    + destruct Hp as [Hrun _]. intros Hc. counts. congruence.
Qed.

Lemma send_status_inv next s w :
  pc s = PSend next ∨ (∃ k2, pc s = PSelect next k2) →
  sup_inv s → sup_inv (send_status next s w).1.
Proof.
  intros Hpc Hinv. destruct (sent_inv next s Hpc Hinv) as [Hsent Hpanic].
  destruct (send_status_cases next s w) as [[b ->]|[[b ->]|[msg ->]]];
    [by apply sup_inv_set_parked..|done].
Qed.

Lemma processProperties_inv (x : SupExt) (s : Supervisor) (w : World) :
  sup_inv s → sup_inv (processProperties x s w).1.
Proof.
  intros Hinv. unfold processProperties, processBatch.
  destruct (pc s) as [|k1 k2| |next| |i|i e pending results| |msg] eqn:Hpc.
  - (* PStart *)
    destruct Hinv as (Hmax & _ & Hp). unfold pc_inv in Hp. rewrite Hpc in Hp.
    destruct Hp as (Hpub & Hprops & Hst).
    unfold sup_inv, data_inv, pc_inv. simpl. rewrite Hprops, Hpub. simpl.
    split_and!; counts. left. done.
  - (* PSelect *)
    destruct (sent_inv k1 s) as [Hsent Hpanic]; [by eauto|done|].
    pose proof (select_cases x s w k1 k2 Hpc) as Hcases.
    unfold processProperties in Hcases. rewrite Hpc in Hcases.
    destruct Hcases as [[b ->]|[[b ->]|[[msg ->]|[b ->]]]];
      [by apply sup_inv_set_parked..|done|].
    apply sup_inv_set_parked. by eapply select_done_inv.
  - (* PFetch *)
    destruct (fetchProperties_len (ctx s) (limit s) (listings x) w)
      as (props & err & -> & Hlen & Herr).
    destruct Hinv as (Hmax & Hd & Hp). unfold pc_inv in Hp. rewrite Hpc in Hp.
    destruct Hp as (Hrun & Hpub & Hprops & Hp0 & Hf0).
    destruct err as [err|]; simpl.
    + destruct (finish_inv "failed"
        (set_status (ProcessingStatus.set_ErrorMessage err (status s)) s) w)
        as [Hd' Hp']; simpl.
      * by left.
      * by destruct (published s).
      * apply (data_inv_advance _ (status s)); [done|done|by split|].
        destruct Hd as (_ & _ & _ & Hle & _). exact Hle.
      * split_and!; done.
    + destruct Hd as (Ht & _ & _ & _ & Hall & Htl & Hnd & Hlast).
      unfold sup_inv, data_inv, pc_inv. simpl.
      split_and!; counts.
      * destruct (published s) as [|? [|? ?]]; simpl in *; done.
      * left. done.
  - (* PSend *)
    apply send_status_inv; eauto.
  - (* PMark *)
    destruct Hinv as (Hmax & Hd & Hp). unfold pc_inv in Hp. rewrite Hpc in Hp.
    unfold sup_inv, pc_inv. simpl. done.
  - (* PLoop *)
    destruct Hinv as (Hmax & Hd & Hp). unfold pc_inv in Hp. rewrite Hpc in Hp.
    destruct Hp as (Hrun & Hpub & Hsum).
    case_bool_decide as Hi; [destruct (is_cancelled _ _)|]; simpl.
    + destruct (finish_inv "cancelled" s w) as [Hd' Hp']; [by left|done..|].
      split_and!; done.
    + unfold sup_inv, pc_inv. simpl. split_and!; try done.
      * lia.
      * unfold batchSize. case_bool_decide; lia.
      * rewrite length_seq. simpl. lia.
    + destruct (finish_inv "completed" s w) as [Hd' Hp']; [right; lia|done..|].
      split_and!; done.
  - (* PWorkers *)
    destruct pending as [|k pending]; [|done].
    destruct Hinv as (Hmax & Hd & Hp). unfold pc_inv in Hp. rewrite Hpc in Hp.
    destruct Hp as (Hrun & Hpub & Hsum & Hi & He & Hlen). simpl in *.
    destruct Hd as (Ht & Hp0 & Hf0 & Hle & Hall & Htl & Hnd & Hlast).
    destruct (collect_counts results (status s)) as (Hc & Hsum' & Hst & Htot);
      [done|done|lia|].
    unfold sup_inv. simpl. split_and!; [done| |].
    + apply (data_inv_advance _ (status s)); [by unfold data_inv|done|done|lia].
    + unfold pc_inv. simpl. split; [congruence|]. right.
      exists (i + batchSize)%nat. split_and!; try done. lia.
  - done.
  - done.
Qed.

Lemma processBatch_worker_inv (j : nat) (x : WorkerExt) (s : Supervisor) (w : World) :
  sup_inv s → sup_inv (processBatch_worker j x s w).1.
Proof.
  intros Hinv. unfold processBatch_worker.
  destruct (pc s) as [| | | | | |i e pending results| |] eqn:Hpc; try done.
  destruct (pending !! j) as [k|] eqn:Hj; [|done].
  destruct (properties s !! k) as [property|]; [|done].
  destruct Hinv as (Hmax & Hd & Hp). unfold pc_inv in Hp. rewrite Hpc in Hp.
  destruct Hp as (Hrun & Hpub & Hsum & Hi & He & Hlen).
  destruct (worker _ _ _ _) as [r w'|msg w']; unfold sup_inv, pc_inv; simpl.
  - split_and!; try done.
    rewrite length_delete by eauto. rewrite length_app. simpl.
    apply lookup_lt_Some in Hj. lia.
  - split_and!; try done. intros Hc. counts. congruence.
Qed.

Lemma sup_inv_start id lim w s w' :
  StartPropertyProcessing id lim w = Ok s w' → sup_inv s.
Proof.
  unfold StartPropertyProcessing, bind, gets, modify, AddJob, ret. simpl.
  intros [= <- _]. unfold sup_inv, data_inv, pc_inv; simpl.
  split_and!; counts.
Qed.

Lemma with_sup_inv n f c :
  (∀ s w, sup_inv s → sup_inv (f s w).1) →
  Forall sup_inv (sups c) → Forall sup_inv (sups (with_sup n f c)).
Proof.
  intros Hf Hall. unfold with_sup.
  destruct (sups c !! n) as [s|] eqn:Hn; [|done].
  specialize (Hf s (world c)). destruct (f s (world c)) as [s' w']. simpl in *.
  apply Forall_insert; [done|]. apply Hf.
  eapply Forall_lookup_1; eauto.
Qed.

Lemma step_sup_inv (l : Label) (c : Config) :
  Forall sup_inv (sups c) → Forall sup_inv (sups (step l c)).
Proof.
  intros Hall. alive.
  destruct l as [id lim|id|id|id|id|k|d|n x|n j x|id|k]; unfold serve; try done.
  - destruct (StartPropertyProcessing id lim (world c)) as [s w'|] eqn:Hs;
      simpl; [|done].
    apply Forall_app. split; [done|]. apply Forall_singleton.
    by eapply sup_inv_start.
  - by case_match.
  - by repeat case_match.
  - apply with_sup_inv; [|done]. intros; by apply processProperties_inv.
  - apply with_sup_inv; [|done]. intros; by apply processBatch_worker_inv.
  - by repeat case_match.
Qed.

Lemma run_snoc (trace : list Label) (l : Label) (c : Config) :
  run (trace ++ [l]) c = step l (run trace c).
Proof. unfold run. by rewrite foldl_snoc. Qed.

Lemma run_app (t1 t2 : list Label) (c : Config) :
  run (t1 ++ t2) c = run t2 (run t1 c).
Proof. unfold run. by rewrite foldl_app. Qed.

Lemma run_sup_inv (trace : list Label) (c : Config) :
  Forall sup_inv (sups c) → Forall sup_inv (sups (run trace c)).
Proof.
  intros Hc. induction trace as [|l trace IH] using rev_ind; [done|].
  rewrite run_snoc. by apply step_sup_inv.
Qed.

Lemma reachable_sup_inv (trace : list Label) (n : nat) (s : Supervisor) :
  sups (run trace init) !! n = Some s → sup_inv s.
Proof.
  intros Hn. eapply Forall_lookup_1; [|exact Hn].
  apply run_sup_inv. simpl. constructor.
Qed.

(** C1. In every run of the system, a supervisor whose status is
    ["completed"] has processed + failed = total, where total is the
    number of listings that the fetch returned; once it has returned, this
    status is the last snapshot it published. *)
Theorem completed_counts_add_up
    (trace : list Label) (n : nat) (s : Supervisor) :
  sups (run trace init) !! n = Some s →
  state (status s) = "completed" →
  processed (status s) + failed (status s) = total (status s)
  ∧ total (status s) = Z.of_nat (length (properties s))
  ∧ (pc s = PReturn → last (published s) = Some (status s)).
Proof.
  intros Hn Hdone.
  destruct (reachable_sup_inv _ _ _ Hn) as (Hmax & Hd & Hp).
  destruct Hd as (Ht & _).
  assert (processed (status s) + failed (status s)
          = Z.of_nat (length (properties s))
          ∧ (pc s = PReturn → last (published s) = Some (status s))) as [Hsum Hl].
  { unfold pc_inv in Hp.
    destruct (pc s) as [|k1 k2| |next| |i|i e pending results| |msg].
    - destruct Hp as (_ & _ & Hz). by rewrite Hz in Hdone.
    - destruct Hp as [Hrun _]. congruence.
    - destruct Hp as [Hrun _]. congruence.
    - destruct Hp as [(_ & Hrun & _)|(_ & _ & Hsum)]; [congruence|].
      split; [by apply Hsum|done].
    - split; [by apply Hp|done].
    - destruct Hp as [Hrun _]. congruence.
    - destruct Hp as [Hrun _]. congruence.
    - split; [|intros _]; by apply Hp.
    - split; [by apply Hp|done]. }
  split_and!; [lia|done|done].
Qed.

(** C8. In every run of the system, every snapshot a supervisor has
    published has non-negative counters with processed + failed <= total;
    every snapshot published after the initial one, that is, once the
    fetch has returned, carries the number of listings as its total; and
    neither counter goes down from one published snapshot to the next. *)
Theorem published_counters_bounded_and_monotone
    (trace : list Label) (n : nat) (s : Supervisor) :
  sups (run trace init) !! n = Some s →
  Forall within_total (published s)
  ∧ Forall (λ p, total p = Z.of_nat (length (properties s))) (tail (published s))
  ∧ nondecreasing (published s).
Proof.
  intros Hn.
  destruct (reachable_sup_inv _ _ _ Hn) as (_ & Hd & _).
  destruct Hd as (_ & _ & _ & _ & Hall & Htl & Hnd & _). done.
Qed.

(** ** Batch workers *)

Lemma tally_error (msg : string) (st : ProcessingStatus.t) :
  0 ≤ failed st < max_int →
  failed (tally (Some msg) st) = failed st + 1
  ∧ processed (tally (Some msg) st) = processed st.
Proof.
  intros H. unfold tally, failed, processed in *. simpl.
  rewrite int64_small by (unfold max_int in *; lia). done.
Qed.

Lemma crashed_step (l : Label) (c : Config) :
  crashed (step l c) = false → crashed c = false ∧ step l c = serve l c.
Proof. unfold step. destruct (crashed c) eqn:H; [congruence|done]. Qed.

Lemma crashed_run (trace : list Label) (c : Config) :
  crashed (run trace c) = false → crashed c = false.
Proof.
  induction trace as [|l trace IH] using rev_ind; [done|].
  rewrite run_snoc. intros H. by apply crashed_step in H as [H _]; auto.
Qed.

Lemma step_worker (c : Config) (n j : nat) (x : WorkerExt) (s : Supervisor)
    i e pending results k property r w' :
  crashed c = false →
  sups c !! n = Some s →
  pc s = PWorkers i e pending results →
  pending !! j = Some k →
  properties s !! k = Some property →
  worker (ctx s) property x (world c) = Ok r w' →
  step (LWorker n j x) c
  = mkConfig w' (<[n := set_pc (PWorkers i e (delete j pending) (results ++ [r])) s]>
                   (sups c)) (queries c).
Proof.
  intros Ha Hn Hpc Hj Hk Hw. unfold step, serve, with_sup, processBatch_worker.
  by rewrite Ha, Hn, Hpc, Hj, Hk, Hw.
Qed.

Lemma failures_app (rs1 rs2 : list (option string)) :
  failures (rs1 ++ rs2) = failures rs1 + failures rs2.
Proof. induction rs1 as [|[] rs1 IH]; simpl; lia. Qed.

Lemma successes_app (rs1 rs2 : list (option string)) :
  successes (rs1 ++ rs2) = successes rs1 + successes rs2.
Proof. induction rs1 as [|[] rs1 IH]; simpl; lia. Qed.

Lemma collect_split (rs : list (option string)) (st : ProcessingStatus.t) :
  0 ≤ processed st → 0 ≤ failed st →
  processed st + failed st + Z.of_nat (length rs) ≤ max_int →
  failed (collect rs st) = failed st + failures rs
  ∧ processed (collect rs st) = processed st + successes rs.
Proof.
  unfold collect. revert st.
  induction rs as [|r rs IH]; intros st Hp Hf Hb; simpl in *; [lia|].
  destruct (tally_counts r st) as [[Hp1 Hf1] Hsum]; [lia..|].
  destruct (IH (tally r st)) as [IHf IHp]; [lia..|].
  rewrite IHf, IHp.
  destruct r; unfold tally, processed, failed in *; simpl in *;
    rewrite int64_small by (unfold max_int in *; lia); lia.
Qed.

(** ** What a worker does to the outside world *)

Lemma add_effects_nil (w : World) : add_effects [] w = w.
Proof. destruct w. unfold add_effects. simpl. by rewrite app_nil_r. Qed.

Lemma add_effects_app (evs1 evs2 : list Effect) (w : World) :
  add_effects evs2 (add_effects evs1 w) = add_effects (evs1 ++ evs2) w.
Proof. unfold add_effects. simpl. by rewrite app_assoc. Qed.

Lemma add_effect_add_effects (e : Effect) (evs : list Effect) (w : World) :
  add_effect e (add_effects evs w) = add_effects (evs ++ [e]) w.
Proof. unfold add_effect, add_effects. simpl. by rewrite app_assoc. Qed.

Lemma add_effect_one (e : Effect) (w : World) : add_effect e w = add_effects [e] w.
Proof. done. Qed.

Lemma creates_add_effects (evs : list Effect) (w : World) :
  creates (effects (add_effects evs w)) = creates (effects w) ++ creates evs.
Proof. unfold creates. simpl. by rewrite omap_app. Qed.

(** An image download only adds image requests and files to the effects. *)
Lemma downloadImage_effects ctx imageURL propertyID index r w :
  ∃ res evs, downloadImage ctx imageURL propertyID index r w
               = Ok res (add_effects evs w)
    ∧ creates evs = [].
Proof.
  unfold downloadImage, client_Do, bind, ret, modify.
  destruct r as [e|e|code body]; simpl.
  - exists ("", Some ("failed to create image request: " +:+ e)), [].
    by rewrite add_effects_nil.
  - rewrite add_effect_one.
    destruct (is_cancelled ctx _); eexists _, _; (split; [done|]); done.
  - rewrite add_effect_one.
    destruct (is_cancelled ctx _); [eexists _, _; split; done|].
    case_bool_decide; [eexists _, _; split; done|].
    rewrite add_effect_add_effects.
    destruct (createFileErr body), (copyErr body); eexists _, _; (split; done).
Qed.

Lemma download_each_effects ctx propertyID imgs urls : ∀ index w,
  ∃ res evs, download_each ctx propertyID imgs index urls w
               = Ok res (add_effects evs w)
    ∧ creates evs = [].
Proof.
  induction urls as [|url urls IH]; intros index w; simpl.
  - exists ([], []), []. by rewrite add_effects_nil.
  - unfold bind, gets, ret.
    destruct (is_cancelled ctx w).
    + destruct (IH (S index) w) as (res & evs & -> & Hc). eauto.
    + destruct (downloadImage_effects ctx url propertyID index (imgs index) w)
        as ([path err] & evs1 & -> & Hc1).
      destruct err;
        destruct (IH (S index) (add_effects evs1 w)) as (res & evs2 & -> & Hc2);
        rewrite add_effects_app; eexists _, _; (split; [done|]);
        unfold creates in *; rewrite omap_app, Hc1, Hc2; done.
Qed.

Lemma downloadImages_effects ctx urls propertyID imgs arrival w :
  ∃ res evs, downloadImages ctx urls propertyID imgs arrival w
             = Ok res (add_effects evs w)
    ∧ creates evs = [].
Proof.
  unfold downloadImages. case_bool_decide.
  - exists ([], None), []. by rewrite add_effects_nil.
  - unfold bind.
    destruct (download_each_effects ctx propertyID imgs urls 0%nat w)
      as ([photos errors] & evs & -> & Hc).
    case_bool_decide; unfold ret; eauto.
Qed.

(** A worker only adds effects, whatever it does. *)
Lemma worker_effects ctx property x w :
  ∃ r evs, worker ctx property x w = Ok r (add_effects evs w).
Proof.
  unfold worker, processProperty, bind, gets, ret, modify.
  destruct (is_cancelled ctx w).
  - exists (Some context_Canceled), []. by rewrite add_effects_nil.
  - destruct (downloadImages_effects ctx (SimplyRETSProperty.Photos property)
                (SimplyRETSProperty.ListingID property) (images x) (arrival x) w)
      as ([photos err] & evs & -> & _).
    destruct err; [by eauto|].
    rewrite add_effect_add_effects. destruct (createErr x); eauto.
Qed.

(** While the supervisor waits for its workers, whatever else happens, the
    batch stays the same, the results that were sent stay, in their
    order, and the status is not touched. *)
Lemma batch_waits (after : list Label) (c : Config) (n : nat) (s : Supervisor)
    (i e : nat) (pending : list nat) (results : list (option string)) :
  sups c !! n = Some s →
  pc s = PWorkers i e pending results →
  forallb (waits n) after = true →
  ∃ s' pending' rest,
    sups (run after c) !! n = Some s'
    ∧ pc s' = PWorkers i e pending' (results ++ rest)
    ∧ status s' = status s.
Proof.
  intros Hn Hpc. induction after as [|l after IH] using rev_ind; intros Hw.
  { exists s, pending, []. by rewrite app_nil_r. }
  rewrite forallb_app in Hw. apply andb_true_iff in Hw as [Hw Hl].
  simpl in Hl. rewrite andb_true_r in Hl.
  destruct (IH Hw) as (s1 & p1 & rest & Hn1 & Hpc1 & Hst1). clear IH.
  rewrite run_snoc. set (c1 := run after c) in *.
  assert (∃ s' pending' rest', sups c1 !! n = Some s'
            ∧ pc s' = PWorkers i e pending' (results ++ rest')
            ∧ status s' = status s) as Hsame by (by exists s1, p1, rest).
  assert (∀ m f, m ≠ n →
            ∃ s' pending' rest', sups (with_sup m f c1) !! n = Some s'
              ∧ pc s' = PWorkers i e pending' (results ++ rest')
              ∧ status s' = status s) as Hother.
  { intros m f Hne. unfold with_sup. destruct (sups c1 !! m); [|done].
    destruct (f _ _). simpl. rewrite list_lookup_insert_ne by done. done. }
  alive.
  destruct l as [id lim|id|id|id|id|k|d|m x|m j x|id|k]; unfold serve; try done.
  - destruct (StartPropertyProcessing _ _ _); [|done]. simpl.
    exists s1, p1, rest. split; [|done]. by apply lookup_app_l_Some.
  - by case_match.
  - by repeat case_match.
  - apply Hother. simpl in Hl. by case_bool_decide.
  - destruct (decide (m = n)) as [->|Hne]; [|by apply Hother].
    unfold with_sup. rewrite Hn1. unfold processBatch_worker. rewrite Hpc1.
    assert (n < length (sups c1))%nat as Hlt by (by eapply lookup_lt_Some).
    destruct (p1 !! j); [|by simpl; rewrite list_insert_id].
    destruct (properties s1 !! _) as [property|];
      [|by simpl; rewrite list_insert_id].
    destruct (worker_effects (ctx s1) property x (world c1)) as (r & evs & ->).
    simpl. rewrite list_lookup_insert_eq by done.
    eexists _, _, (rest ++ [r]). split; [done|]. simpl.
    by rewrite app_assoc.
  - by repeat case_match.
Qed.

(** Once the workers of the batch are done, the next step of the
    supervisor counts their results: the error results go to the failed
    counter, the others to the processed counter. *)
Lemma batch_counted (trace : list Label) (n : nat) (s : Supervisor)
    (i e : nat) (results : list (option string)) (x : SupExt) :
  crashed (run trace init) = false →
  sups (run trace init) !! n = Some s →
  pc s = PWorkers i e [] results →
  ∃ s', sups (step (LSup n x) (run trace init)) !! n = Some s'
    ∧ pc s' = PSelect (PLoop (i + batchSize)) (PLoop (i + batchSize))
    ∧ failed (status s') = failed (status s) + failures results
    ∧ processed (status s') = processed (status s) + successes results.
Proof.
  intros Ha Hn Hpc.
  destruct (reachable_sup_inv _ _ _ Hn) as (Hmax & Hd & Hp).
  unfold pc_inv in Hp. rewrite Hpc in Hp.
  destruct Hp as (_ & _ & Hsum & Hi & He & Hlen).
  destruct Hd as (_ & Hp0 & Hf0 & _).
  destruct (collect_split results (status s)) as [Hf Hpr]; [done..| |].
  { simpl in Hlen. lia. }
  unfold step, serve, with_sup, processProperties, processBatch.
  rewrite Ha, Hn, Hpc. simpl.
  rewrite list_lookup_insert_eq by (by eapply lookup_lt_Some).
  eexists. split; [done|]. by simpl.
Qed.

(** C10. When a batch worker finds the job's context cancelled before it
    processes its listing, it sends the context error as the listing's
    result and changes nothing else: no image request, no conversion, no
    call to the repository. Whatever happens while the supervisor waits
    for the other workers, that result is among those the supervisor
    counts when the batch is over, and counting them leaves the failed
    counter of the job's status higher by one for this listing, on top of
    one for every other error result, and the processed counter higher by
    the number of results without error. *)
Theorem cancelled_worker_counts_as_failed
    (trace after : list Label) (n j : nat) (x : WorkerExt) (x' : SupExt)
    (s s2 : Supervisor) (i e : nat) (pending : list nat)
    (results results2 : list (option string))
    (k : nat) (property : SimplyRETSProperty.t) :
  let c := run trace init in
  let c1 := step (LWorker n j x) c in
  let c2 := run after c1 in
  crashed c2 = false →
  sups c !! n = Some s →
  pc s = PWorkers i e pending results →
  pending !! j = Some k →
  properties s !! k = Some property →
  is_cancelled (ctx s) (world c) = true →
  forallb (waits n) after = true →
  sups c2 !! n = Some s2 →
  pc s2 = PWorkers i e [] results2 →
  c1 = mkConfig (world c)
         (<[n := set_pc (PWorkers i e (delete j pending)
                           (results ++ [Some context_Canceled])) s]> (sups c))
         (queries c)
  ∧ ∃ rest s3,
      results2 = results ++ [Some context_Canceled] ++ rest
      ∧ sups (step (LSup n x') c2) !! n = Some s3
      ∧ pc s3 = PSelect (PLoop (i + batchSize)) (PLoop (i + batchSize))
      ∧ failed (status s3)
        = failed (status s) + failures results + 1 + failures rest
      ∧ processed (status s3)
        = processed (status s) + successes results + successes rest.
Proof.
  intros c c1 c2 Ha2 Hn Hpc Hj Hk Hc Hw Hn2 Hpc2.
  assert (crashed c1 = false) as Ha1 by (by eapply crashed_run).
  assert (crashed c = false) as Ha by (by apply (crashed_step _ _ Ha1)).
  assert (c1 = mkConfig (world c)
                 (<[n := set_pc (PWorkers i e (delete j pending)
                                   (results ++ [Some context_Canceled])) s]> (sups c))
                 (queries c)) as Hc1.
  { eapply step_worker; eauto. unfold worker, bind, gets, ret. by rewrite Hc. }
  split; [done|].
  destruct (batch_waits after c1 n
              (set_pc (PWorkers i e (delete j pending)
                         (results ++ [Some context_Canceled])) s)
              i e (delete j pending) (results ++ [Some context_Canceled]))
    as (s2' & p2 & rest & Hn2' & Hpc2' & Hst2); [|done|done|].
  { rewrite Hc1. simpl. apply list_lookup_insert_eq. by eapply lookup_lt_Some. }
  fold c2 in Hn2'. rewrite Hn2 in Hn2'. injection Hn2' as <-.
  rewrite Hpc2 in Hpc2'. injection Hpc2' as _ ->.
  destruct (batch_counted (trace ++ [LWorker n j x] ++ after) n s2 i e
              (results ++ [Some context_Canceled] ++ rest) x')
    as (s3 & Hn3 & Hpc3 & Hf & Hp).
  { by rewrite !run_app. }
  { by rewrite !run_app. }
  { by rewrite Hpc2, <- app_assoc. }
  rewrite !run_app in Hn3. exists rest, s3.
  rewrite Hf, Hp, Hst2, !failures_app, !successes_app. simpl.
  split_and!; [by rewrite <- app_assoc|done..|lia|lia].
Qed.

(** C3. When the image downloads of a listing partly succeed (some photos
    came back, together with an error), its worker sends exactly one
    result, an error, and nothing is handed to the repository for the
    listing. Whatever happens while the supervisor waits for the other
    workers, that result is among those the supervisor counts when the
    batch is over, and counting them leaves the failed counter of the
    job's status higher by one for this listing, however many of its
    downloads failed, on top of one for every other error result; the
    processed counter is higher by the number of results without error. *)
Theorem partial_media_failure_drops_listing
    (trace after : list Label) (n j : nat) (x : WorkerExt) (x' : SupExt)
    (s s2 : Supervisor) (i e : nat) (pending : list nat)
    (results results2 : list (option string))
    (k : nat) (property : SimplyRETSProperty.t)
    (photos : PhotoList) (err : string) (w1 : World) :
  let c := run trace init in
  let c1 := step (LWorker n j x) c in
  let c2 := run after c1 in
  crashed c2 = false →
  sups c !! n = Some s →
  pc s = PWorkers i e pending results →
  pending !! j = Some k →
  properties s !! k = Some property →
  downloadImages (ctx s) (SimplyRETSProperty.Photos property)
    (SimplyRETSProperty.ListingID property) (images x) (arrival x) (world c)
    = Ok (photos, Some err) w1 →
  photos ≠ [] →
  forallb (waits n) after = true →
  sups c2 !! n = Some s2 →
  pc s2 = PWorkers i e [] results2 →
  ∃ msg w' rest s3,
    c1 = mkConfig w'
           (<[n := set_pc (PWorkers i e (delete j pending) (results ++ [Some msg])) s]>
              (sups c))
           (queries c)
    ∧ creates (effects w') = creates (effects (world c))
    ∧ results2 = results ++ [Some msg] ++ rest
    ∧ sups (step (LSup n x') c2) !! n = Some s3
    ∧ pc s3 = PSelect (PLoop (i + batchSize)) (PLoop (i + batchSize))
    ∧ failed (status s3)
      = failed (status s) + failures results + 1 + failures rest
    ∧ processed (status s3)
      = processed (status s) + successes results + successes rest.
Proof.
  intros c c1 c2 Ha2 Hn Hpc Hj Hk Hdl _ Hw Hn2 Hpc2.
  assert (crashed c1 = false) as Ha1 by (by eapply crashed_run).
  assert (crashed c = false) as Ha by (by apply (crashed_step _ _ Ha1)).
  destruct (downloadImages_effects (ctx s) (SimplyRETSProperty.Photos property)
              (SimplyRETSProperty.ListingID property) (images x) (arrival x) (world c))
    as (res & evs & Hdl' & Hc).
  rewrite Hdl in Hdl'. injection Hdl' as <- ->.
  (* the step of the worker *)
  assert (∃ msg w',
            c1 = mkConfig w'
                   (<[n := set_pc (PWorkers i e (delete j pending)
                                     (results ++ [Some msg])) s]> (sups c))
                   (queries c)
            ∧ creates (effects w') = creates (effects (world c)))
    as (msg & w' & Hc1 & Hcr).
  { destruct (is_cancelled (ctx s) (world c)) eqn:Hcan.
    - exists context_Canceled, (world c). split; [|done].
      eapply step_worker; eauto. unfold worker, bind, gets, ret. by rewrite Hcan.
    - eexists _, (add_effects evs (world c)). split.
      + eapply step_worker; eauto.
        unfold worker, processProperty, bind, gets, ret. by rewrite Hcan, Hdl.
      + by rewrite creates_add_effects, Hc, app_nil_r. }
  (* the wait and the count *)
  destruct (batch_waits after c1 n
              (set_pc (PWorkers i e (delete j pending) (results ++ [Some msg])) s)
              i e (delete j pending) (results ++ [Some msg]))
    as (s2' & p2 & rest & Hn2' & Hpc2' & Hst2); [|done|done|].
  { rewrite Hc1. simpl. apply list_lookup_insert_eq. by eapply lookup_lt_Some. }
  fold c2 in Hn2'. rewrite Hn2 in Hn2'. injection Hn2' as <-.
  rewrite Hpc2 in Hpc2'. injection Hpc2' as _ ->.
  destruct (batch_counted (trace ++ [LWorker n j x] ++ after) n s2 i e
              (results ++ [Some msg] ++ rest) x')
    as (s3 & Hn3 & Hpc3 & Hf & Hp).
  { by rewrite !run_app. }
  { by rewrite !run_app. }
  { by rewrite Hpc2, <- app_assoc. }
  rewrite !run_app in Hn3. exists msg, w', rest, s3.
  rewrite Hf, Hp, Hst2, !failures_app, !successes_app. simpl.
  split_and!; [done|done|by rewrite <- app_assoc|done..|lia|lia].
Qed.

(** ** The shared store stays well formed *)

Lemma same_shape_refl (w : World) : same_shape w w.
Proof. by unfold same_shape. Qed.

Lemma same_shape_trans (w1 w2 w3 : World) :
  same_shape w1 w2 → same_shape w2 w3 → same_shape w1 w3.
Proof.
  intros (Hj & Hc & Hn & Ht) (Hj' & Hc' & Hn' & Ht').
  unfold same_shape. split_and!; intros; congruence.
Qed.

Lemma same_shape_job (w w' : World) (id : string) (j' : ProcessingJob.t) :
  same_shape w w' → jobs w' !! id = Some j' →
  ∃ j, jobs w !! id = Some j
    ∧ ProcessingJob.Status j' = ProcessingJob.Status j
    ∧ ProcessingJob.CompletedAt j' = ProcessingJob.CompletedAt j.
Proof.
  intros (Hj & _) H. specialize (Hj id). rewrite H in Hj.
  destruct (jobs w !! id) as [j|]; [|done].
  exists j. injection Hj as Hj. destruct j, j'. simpl in *.
  unfold ProcessingJob.set_LastStatus in Hj. simpl in Hj. by simplify_eq.
Qed.

Lemma wf_same_shape (w w' : World) : same_shape w w' → wf w → wf w'.
Proof.
  intros Hs (A & B & C & D). pose proof Hs as (_ & Hc & Hn & Ht).
  unfold wf. split_and!.
  - intros id j' H. destruct (same_shape_job _ _ _ _ Hs H) as (j & Hj & Hst & _).
    destruct (A _ _ Hj) as (c & Hch & Hopen).
    specialize (Hc (ProcessingJob.Status j')). rewrite Hst, Hch in Hc.
    destruct (chans w' !! ProcessingJob.Status j) as [c'|] eqn:Hc'; [|done].
    exists c'. rewrite Hst. split; [done|]. simpl in Hc. congruence.
  - intros id1 id2 j1' j2' H1 H2 Heq.
    destruct (same_shape_job _ _ _ _ Hs H1) as (j1 & Hj1 & Hst1 & _).
    destruct (same_shape_job _ _ _ _ Hs H2) as (j2 & Hj2 & Hst2 & _).
    eapply B; eauto. congruence.
  - intros r [c' Hr]. rewrite Hn. apply C. specialize (Hc r). rewrite Hr in Hc.
    destruct (chans w !! r); [by eauto|done].
  - intros id j' t H Ht'.
    destruct (same_shape_job _ _ _ _ Hs H) as (j & Hj & _ & Hcomp).
    rewrite Ht. eapply D; eauto. congruence.
Qed.

Lemma same_shape_chan_buf (w : World) (ch : ref) (c c' : Chan.t) :
  chans w !! ch = Some c → Chan.closed c' = Chan.closed c →
  same_shape w (set_chans (insert ch c') w).
Proof.
  intros Hch Hcl. unfold same_shape. simpl. split_and!; try done.
  intros r. destruct (decide (ch = r)) as [<-|Hne].
  - rewrite lookup_insert_eq, Hch. simpl. by rewrite Hcl.
  - by rewrite lookup_insert_ne.
Qed.

Lemma try_send_shape (ch : ref) (v : ProcessingStatus.t) (w : World) :
  same_shape w (final_world (try_send ch v w)).
Proof.
  unfold try_send. destruct (chans w !! ch) as [c|] eqn:Hch; simpl;
    [|apply same_shape_refl].
  destruct (Chan.closed c); [apply same_shape_refl|].
  destruct (Chan.has_room c); simpl; [|apply same_shape_refl].
  by eapply same_shape_chan_buf.
Qed.

Lemma try_recv_shape (ch : ref) (w : World) :
  same_shape w (final_world (try_recv ch w)).
Proof.
  unfold try_recv. destruct (chans w !! ch) as [c|] eqn:Hch; simpl;
    [|apply same_shape_refl].
  destruct (Chan.buf c) as [|v rest]; simpl.
  - destruct (Chan.closed c); apply same_shape_refl.
  - by eapply same_shape_chan_buf.
Qed.

Lemma same_shape_LastStatus (id : string) (o : option ProcessingStatus.t) (w : World) :
  same_shape w (set_jobs (alter (ProcessingJob.set_LastStatus o) id) w).
Proof.
  unfold same_shape. simpl. split_and!; try done.
  intros id'. rewrite lookup_alter. case_decide as Heq; [|done].
  subst id'. destruct (jobs w !! id) as [j|]; [|done]. by destruct j.
Qed.

Lemma GetJobStatus_shape (id : string) (w : World) :
  same_shape w (final_world (GetJobStatus id w)).
Proof.
  unfold GetJobStatus, GetJob, bind, gets, ret, modify.
  destruct (jobs w !! id) as [job|]; [|apply same_shape_refl].
  destruct (ProcessingJob.LastStatus job); [apply same_shape_refl|].
  pose proof (try_recv_shape (ProcessingJob.Status job) w) as Hr.
  destruct (try_recv (ProcessingJob.Status job) w) as [[status|] w1|msg w1];
    simpl in *; try done.
  eapply same_shape_trans; [exact Hr|].
  eapply same_shape_trans; [apply (same_shape_LastStatus id (Some status))|].
  match goal with
  | |- context [try_send ?ch ?v ?w0] =>
      pose proof (try_send_shape ch v w0) as Hs; destruct (try_send ch v w0)
  end; done.
Qed.

Lemma wf_close_delete (id : string) (job : ProcessingJob.t) (w : World) :
  wf w → jobs w !! id = Some job →
  ∃ w1, close (ProcessingJob.Status job) w = Ok tt w1
    ∧ wf (set_jobs (delete id) (detach id w1)).
Proof.
  intros (A & B & C & D) Hj.
  destruct (A _ _ Hj) as (c & Hch & Hopen).
  unfold close. rewrite Hch, Hopen. eexists. split; [done|].
  unfold wf. simpl. split_and!.
  - intros id' j' H. apply lookup_delete_Some in H as [Hne H].
    destruct (A _ _ H) as (c' & Hch' & Hopen').
    exists c'. split; [|done]. rewrite lookup_insert_ne; [done|].
    intros Heq. apply Hne. eapply B; eauto.
  - intros id1 id2 j1 j2 H1 H2. apply lookup_delete_Some in H1 as [_ H1].
    apply lookup_delete_Some in H2 as [_ H2]. by eapply B.
  - intros r [c' Hr]. apply C. destruct (decide (ProcessingJob.Status job = r)) as [<-|Hne].
    + by eauto.
    + rewrite lookup_insert_ne in Hr by done. by eauto.
  - intros id' j' t H. apply lookup_delete_Some in H as [_ H]. by eapply D.
Qed.

Lemma RemoveJob_wf (id : string) (w : World) :
  wf w → wf (final_world (RemoveJob id w)).
Proof.
  intros Hwf. unfold RemoveJob, GetJob, bind, gets, ret, modify.
  destruct (jobs w !! id) as [job|] eqn:Hj; [|done].
  destruct (wf_close_delete id job w Hwf Hj) as (w1 & -> & Hwf1). done.
Qed.

Lemma CleanupJob_wf (id : string) (w : World) :
  wf w → wf (final_world (CleanupJob id w)).
Proof.
  intros Hwf. unfold CleanupJob, GetJob, time_Since, bind, gets, ret, modify.
  destruct (jobs w !! id) as [job|] eqn:Hj; [|done].
  destruct (ProcessingJob.CompletedAt job); [|done].
  destruct (_ && _); [|done].
  destruct (wf_close_delete id job w Hwf Hj) as (w1 & -> & Hwf1). done.
Qed.

Lemma MarkJobCompleted_wf (id : string) (st : ProcessingStatus.t) (w : World) :
  wf w → wf (final_world (MarkJobCompleted id st w)).
Proof.
  intros (A & B & C & D). unfold MarkJobCompleted, GetJob, bind, gets, ret, modify.
  destruct (jobs w !! id) as [job|] eqn:Hj; [|done]. simpl.
  unfold wf. simpl. split_and!.
  - intros id' j' H. apply lookup_insert_Some in H as [[<- <-]|[Hne H]]; simpl; eauto.
  - intros id1 id2 j1 j2 H1 H2.
    apply lookup_insert_Some in H1 as [[<- <-]|[Hne1 H1]];
      apply lookup_insert_Some in H2 as [[<- <-]|[Hne2 H2]]; simpl; eauto.
  - done.
  - intros id' j' t H Ht. apply elem_of_app.
    apply lookup_insert_Some in H as [[<- <-]|[Hne H]]; simpl in *.
    + right. injection Ht as <-. apply list_elem_of_singleton. done.
    + left. eauto.
Qed.

Lemma StartPropertyProcessing_wf (id : string) (lim : Z) (w : World) :
  wf w → wf (final_world (StartPropertyProcessing id lim w)).
Proof.
  intros (A & B & C & D).
  unfold StartPropertyProcessing, AddJob, bind, gets, ret, modify. simpl.
  assert (chans w !! S (next_ref w) = None) as Hfresh.
  { destruct (chans w !! S (next_ref w)) eqn:H; [|done].
    assert (S (next_ref w) < next_ref w)%nat by (apply C; eauto). lia. }
  unfold wf. simpl. split_and!.
  - intros id' j' H. apply lookup_insert_Some in H as [[<- <-]|[Hne H]]; simpl.
    + rewrite lookup_insert_eq. eauto.
    + destruct (A _ _ H) as (c & Hc & Ho). exists c. split; [|done].
      rewrite lookup_insert_ne; [done|]. intros Heq. congruence.
  - intros id1 id2 j1 j2 H1 H2.
    apply lookup_insert_Some in H1 as [[<- <-]|[Hne1 H1]];
      apply lookup_insert_Some in H2 as [[<- <-]|[Hne2 H2]]; simpl; try done.
    + intros Heq. destruct (A _ _ H2) as (c & Hc & _). congruence.
    + intros Heq. destruct (A _ _ H1) as (c & Hc & _). congruence.
    + by eapply B.
  - intros r [c Hr]. apply lookup_insert_Some in Hr as [[<- _]|[_ Hr]]; [lia|].
    assert (r < next_ref w)%nat by (apply C; eauto). lia.
  - intros id' j' t H Ht.
    apply lookup_insert_Some in H as [[<- <-]|[Hne H]]; simpl in *; [done|eauto].
Qed.

Lemma park_shape s w : same_shape w (park s w).2.
Proof.
  unfold park. destruct (chans w !! statusChan s) eqn:Hch; simpl;
    [|apply same_shape_refl].
  by eapply same_shape_chan_buf.
Qed.

Lemma resume_shape next s w : same_shape w (resume next s w).2.
Proof. by unfold same_shape. Qed.

Lemma withdraw_shape next s w : same_shape w (withdraw next s w).2.
Proof.
  unfold withdraw, same_shape. simpl. split_and!; try done.
  intros r. rewrite lookup_alter. case_decide; [|done]. subst r.
  by destruct (chans w !! statusChan s).
Qed.

Lemma send_status_shape_world next s w : same_shape w (send_status next s w).2.
Proof.
  unfold send_status. destruct (parked s).
  - destruct (was_released s w); [apply resume_shape|].
    destruct (chan_closed _ _); apply same_shape_refl.
  - pose proof (try_send_shape (statusChan s) (status s) w) as H.
    destruct (try_send _ _ _) as [[] w'|]; simpl in *; try done.
    eapply same_shape_trans; [exact H|apply park_shape].
Qed.

Lemma processProperties_wf (x : SupExt) (s : Supervisor) (w : World) :
  wf w → wf (processProperties x s w).2.
Proof.
  intros Hwf. unfold processProperties, processBatch.
  assert (∀ w', same_shape w w' → wf w') as Hshape
    by (intros w' H; by eapply wf_same_shape).
  destruct (pc s); try done.
  - repeat case_match;
      first [ exact Hwf
            | apply Hshape, send_status_shape_world | apply Hshape, resume_shape
            | apply Hshape, withdraw_shape | apply Hshape, park_shape ].
  - destruct (fetchProperties_len (ctx s) (limit s) (listings x) w)
      as (props & err & -> & _). by destruct err.
  - apply Hshape, send_status_shape_world.
  - simpl. by apply MarkJobCompleted_wf.
  - by repeat case_match.
  - by case_match.
Qed.

Lemma processBatch_worker_wf (j : nat) (x : WorkerExt) (s : Supervisor) (w : World) :
  wf w → wf (processBatch_worker j x s w).2.
Proof.
  intros Hwf. unfold processBatch_worker.
  destruct (pc s); try done.
  destruct (_ !! j); [|done].
  destruct (_ !! _) as [property|]; [|done].
  destruct (worker_effects (ctx s) property x w) as (r & evs & ->). simpl.
  eapply wf_same_shape; [|done]. by unfold same_shape.
Qed.

Lemma with_sup_wf n f c :
  (∀ s w, wf w → wf (f s w).2) → wf (world c) → wf (world (with_sup n f c)).
Proof.
  intros Hf Hwf. unfold with_sup. destruct (sups c !! n) as [s|]; [|done].
  specialize (Hf s (world c) Hwf). by destruct (f s (world c)).
Qed.

Lemma timer_fires_wf (k : nat) (id : string) (due : Time) (w : World) :
  wf w → timers w !! k = Some (id, due) → due ≤ now w →
  wf (final_world (CleanupJob id (set_timers (delete k) w))).
Proof.
  intros Hwf Hk Hdue. pose proof Hwf as (A & B & C & D).
  (* the timers that remain *)
  assert (∀ x, x ∈ timers w → x ≠ (id, due) → x ∈ delete k (timers w)) as Hrest.
  { intros x Hx Hne. apply list_elem_of_lookup in Hx as [i Hi].
    apply list_elem_of_lookup.
    destruct (decide (i < k)%nat).
    - exists i. by rewrite list_lookup_delete_lt.
    - assert (i ≠ k) by (intros ->; congruence).
      exists (pred i). rewrite list_lookup_delete_ge by lia.
      by replace (S (pred i)) with i by lia. }
  unfold CleanupJob, GetJob, time_Since, bind, gets, ret, modify. simpl.
  assert (∀ w', jobs w' = jobs w → chans w' = chans w → next_ref w' = next_ref w →
            timers w' = delete k (timers w) →
            (∀ j t, jobs w !! id = Some j → ProcessingJob.CompletedAt j = Some t →
                    t + JobRetentionDuration ≠ due) →
            wf w') as Hkeep.
  { intros w' Hj Hc Hn Ht Hother. unfold wf. rewrite Hj, Hc, Hn, Ht.
    split_and!; [done..|].
    intros id' j' t H Hcomp. apply Hrest; [by eapply D|].
    intros [= -> Ht']. by eapply Hother. }
  destruct (jobs w !! id) as [job|] eqn:Hj; [|by apply Hkeep].
  destruct (ProcessingJob.CompletedAt job) as [t|] eqn:Hcomp;
    [|apply Hkeep; try done; congruence].
  simpl. case_bool_decide as Hold; simpl.
  - (* the job is removed *)
    destruct (A _ _ Hj) as (c & Hch & Hopen).
    unfold close. simpl. rewrite Hch, Hopen. simpl.
    destruct (wf_close_delete id job w Hwf Hj) as (w1 & Hcl & (A1 & B1 & C1 & D1)).
    unfold close in Hcl. rewrite Hch, Hopen in Hcl. injection Hcl as <-.
    unfold wf. simpl in *. split_and!; [done..|].
    intros id' j' t' H Hcomp'. pose proof H as H'.
    apply lookup_delete_Some in H' as [Hne _].
    apply Hrest; [by eapply D1|]. congruence.
  - apply Hkeep; try done.
    intros j t' [= <-] Ht'. rewrite Hcomp in Ht'. injection Ht' as <-. lia.
Qed.

Lemma write_LastStatus_shape id r v w : same_shape w (write_LastStatus id r v w).
Proof.
  unfold write_LastStatus.
  destruct (jobs w !! id) as [job|] eqn:Hj; [|by unfold same_shape].
  case_decide; [|by unfold same_shape].
  unfold same_shape. simpl. split_and!; try done.
  intros id'. destruct (decide (id = id')) as [<-|Hne].
  - rewrite lookup_insert_eq, Hj. by destruct job.
  - by rewrite lookup_insert_ne.
Qed.

Lemma GetJobStatus_step_shape q w : same_shape w (GetJobStatus_step q w).2.
Proof.
  unfold GetJobStatus_step. destruct (Query.pc q) as [|st|st|a|msg];
    try apply same_shape_refl.
  - destruct (_ ≫= _); [apply same_shape_refl|].
    pose proof (try_recv_shape (Query.job q) w) as H.
    by destruct (try_recv _ _) as [[] ?|].
  - apply write_LastStatus_shape.
  - pose proof (try_send_shape (Query.job q) st w) as H.
    by destruct (try_send _ _ _).
Qed.

Lemma step_wf (l : Label) (c : Config) : wf (world c) → wf (world (step l c)).
Proof.
  intros Hwf. alive.
  destruct l as [id lim|id|id|id|id|k|d|n x|n j x|id|k]; unfold serve.
  - pose proof (StartPropertyProcessing_wf id lim _ Hwf) as H.
    by destruct (StartPropertyProcessing id lim (world c)).
  - simpl. eapply wf_same_shape; [apply GetJobStatus_shape|done].
  - simpl. unfold handler, CancelJob, GetJob, bind, gets, ret, cancel, modify.
    destruct (jobs (world c) !! id) as [job|] eqn:Hj; [|done].
    match goal with
    | |- context [RemoveJob id ?w0] =>
        assert (wf w0) as Hwf0 by (eapply wf_same_shape; [|exact Hwf]; by unfold same_shape);
        pose proof (RemoveJob_wf id w0 Hwf0) as H; destruct (RemoveJob id w0)
    end; done.
  - destruct (jobs (world c) !! id); [|done]. simpl.
    eapply wf_same_shape; [|done]. by unfold same_shape.
  - simpl. by apply RemoveJob_wf.
  - destruct (timers (world c) !! k) as [[id due]|] eqn:Hk; [|done].
    case_bool_decide; [|done]. simpl. by eapply timer_fires_wf.
  - simpl. eapply wf_same_shape; [|done]. by unfold same_shape.
  - apply with_sup_wf; [|done]. intros; by apply processProperties_wf.
  - apply with_sup_wf; [|done]. intros; by apply processBatch_worker_wf.
  - done.
  - destruct (queries c !! k) as [q|]; [|done].
    pose proof (GetJobStatus_step_shape q (world c)) as H.
    destruct (GetJobStatus_step q (world c)). simpl in *.
    by eapply wf_same_shape.
Qed.

Lemma wf_empty : wf empty_world.
Proof.
  unfold wf, empty_world. simpl. split_and!; intros *; try done.
  intros [? H]. done.
Qed.

Lemma run_wf (trace : list Label) (c : Config) :
  wf (world c) → wf (world (run trace c)).
Proof.
  intros Hc. induction trace as [|l trace IH] using rev_ind; [done|].
  rewrite run_snoc. by apply step_wf.
Qed.

Lemma reachable_wf (trace : list Label) : wf (world (run trace init)).
Proof. apply run_wf, wf_empty. Qed.

(** ** Status queries *)

(** C7. In every run of the system, a status query for a registered job
    returns a snapshot: the snapshot cached on the job when there is one;
    otherwise the oldest snapshot waiting in the job's channel, which is
    taken out, cached on the job and put back at the end of the channel if
    there is room; otherwise a snapshot made up on the spot, with state
    ["running"] and the job's start time. *)
Theorem registered_job_status_never_absent
    (trace : list Label) (jobID : string) (job : ProcessingJob.t) :
  let w := world (run trace init) in
  jobs w !! jobID = Some job →
  ∃ st w', GetJobStatus jobID w = Ok (Some st, true) w'
    ∧ match ProcessingJob.LastStatus job with
      | Some last => st = last ∧ w' = w
      | None =>
          ∃ c, chans w !! ProcessingJob.Status job = Some c
            ∧ match Chan.buf c with
              | v :: rest =>
                  st = v
                  ∧ jobs w' !! jobID
                    = Some (ProcessingJob.set_LastStatus (Some v) job)
                  ∧ chans w' !! ProcessingJob.Status job
                    = Some (Chan.mk
                              (if bool_decide (length rest < Chan.cap c)%nat
                               then rest ++ [v] else rest)
                              (Chan.cap c) false)
              | [] =>
                  st = ProcessingStatus.mk 0 "running" 0 0 0
                         (ProcessingJob.StartTime job) None ""
                  ∧ w' = w
              end
      end.
Proof.
  intros w Hj. pose proof (reachable_wf trace) as (A & _). fold w in A.
  destruct (A _ _ Hj) as (c & Hch & Hopen).
  unfold GetJobStatus, GetJob, bind, gets, ret, modify. rewrite Hj.
  destruct (ProcessingJob.LastStatus job) as [last|]; [by eauto|].
  unfold try_recv. rewrite Hch.
  destruct (Chan.buf c) as [|v rest] eqn:Hbuf.
  - rewrite Hopen. eexists _, _. split; [done|]. exists c. by rewrite Hbuf.
  - unfold try_send. simpl. rewrite lookup_insert_eq. simpl. rewrite Hopen.
    unfold Chan.has_room. simpl.
    case_bool_decide; eexists _, _; (split; [done|]); exists c; rewrite Hbuf;
      simpl; rewrite lookup_alter_eq, Hj, ?lookup_insert_eq; split_and!; try done.
    + rewrite bool_decide_eq_true_2 by done.
      unfold Chan.push, Chan.set_buf. simpl. by rewrite Hopen.
    + rewrite bool_decide_eq_false_2 by done.
      unfold Chan.set_buf. by rewrite Hopen.
Qed.

Lemma same_heap_refl w : same_heap w w.
Proof. by unfold same_heap. Qed.

Lemma same_heap_trans w1 w2 w3 : same_heap w1 w2 → same_heap w2 w3 → same_heap w1 w3.
Proof. intros (A & B & C) (A' & B' & C'). unfold same_heap. split_and!; intros; congruence. Qed.

Lemma same_heap_jobs w w' id job' :
  same_heap w w' → jobs w' !! id = Some job' →
  ∃ job, jobs w !! id = Some job ∧ ProcessingJob.ID job = ProcessingJob.ID job'
         ∧ ProcessingJob.Status job = ProcessingJob.Status job'.
Proof.
  intros (A & _) H. specialize (A id). rewrite H in A.
  destruct (jobs w !! id) as [job|]; [|done]. exists job. simpl in A. by simplify_eq.
Qed.

Lemma same_heap_jobs_r w w' id job :
  same_heap w w' → jobs w !! id = Some job →
  ∃ job', jobs w' !! id = Some job' ∧ ProcessingJob.ID job' = ProcessingJob.ID job
         ∧ ProcessingJob.Status job' = ProcessingJob.Status job.
Proof.
  intros (A & _) H. specialize (A id). rewrite H in A.
  destruct (jobs w' !! id) as [job'|]; [|done]. exists job'. simpl in A. by simplify_eq.
Qed.

Lemma same_heap_detached w w' r job' :
  same_heap w w' → detached w' !! r = Some job' →
  ∃ job, detached w !! r = Some job ∧ ProcessingJob.ID job = ProcessingJob.ID job'
         ∧ ProcessingJob.Status job = ProcessingJob.Status job'.
Proof.
  intros (_ & B & _) H. specialize (B r). rewrite H in B.
  destruct (detached w !! r) as [job|]; [|done]. exists job. simpl in B. by simplify_eq.
Qed.

Lemma same_heap_detached_r w w' r job :
  same_heap w w' → detached w !! r = Some job →
  ∃ job', detached w' !! r = Some job' ∧ ProcessingJob.ID job' = ProcessingJob.ID job
         ∧ ProcessingJob.Status job' = ProcessingJob.Status job.
Proof.
  intros (_ & B & _) H. specialize (B r). rewrite H in B.
  destruct (detached w' !! r) as [job'|]; [|done]. exists job'. simpl in B. by simplify_eq.
Qed.

Lemma has_job_same_heap w w' r id : same_heap w w' → has_job w r id → has_job w' r id.
Proof.
  intros Hs [(k & job & Hk & Hr & Hid)|(job & Hd & Hid)].
  - destruct (same_heap_jobs_r _ _ _ _ Hs Hk) as (job' & Hk' & Hid' & Hr').
    left. exists k, job'. split_and!; congruence.
  - destruct (same_heap_detached_r _ _ _ _ Hs Hd) as (job' & Hd' & Hid' & Hr').
    right. exists job'. split; congruence.
Qed.

Lemma heap_ok_same_heap w w' qs :
  same_heap w w' → heap_ok w qs → heap_ok w' qs.
Proof.
  intros Hs (A & B & C). pose proof Hs as (_ & _ & Hn). unfold heap_ok. split_and!.
  - intros id job' H. destruct (same_heap_jobs _ _ _ _ Hs H) as (job & Hj & Hid & _).
    rewrite <- Hid. by eapply A.
  - intros r job' H. destruct (same_heap_detached _ _ _ _ Hs H) as (job & Hd & _ & Hst).
    destruct (B _ _ Hd) as (B1 & B2 & B3). split_and!; [congruence|lia|].
    intros id job'' H'. destruct (same_heap_jobs _ _ _ _ Hs H') as (j & Hj & _ & Hst').
    rewrite <- Hst'. by eapply B3.
  - intros k q Hk Hl. eapply has_job_same_heap; eauto.
Qed.

(** What the operations leave of the heap. *)
Lemma try_send_heap ch v w : same_heap w (final_world (try_send ch v w)).
Proof. unfold try_send. repeat case_match; by unfold same_heap. Qed.

Lemma try_recv_heap ch w : same_heap w (final_world (try_recv ch w)).
Proof. unfold try_recv. repeat case_match; by unfold same_heap. Qed.

Lemma close_heap ch w : same_heap w (final_world (close ch w)).
Proof. unfold close. repeat case_match; by unfold same_heap. Qed.

Lemma insert_same_heap id job job' w :
  jobs w !! id = Some job →
  ProcessingJob.ID job' = ProcessingJob.ID job →
  ProcessingJob.Status job' = ProcessingJob.Status job →
  same_heap w (set_jobs (insert id job') w).
Proof.
  intros Hj Hid Hst. unfold same_heap. simpl. split_and!; try done.
  intros id'. destruct (decide (id = id')) as [<-|Hne].
  - rewrite lookup_insert_eq, Hj. simpl. by rewrite Hid, Hst.
  - by rewrite lookup_insert_ne.
Qed.

Lemma write_LastStatus_heap id r v w : same_heap w (write_LastStatus id r v w).
Proof.
  assert (same_heap w (set_detached (alter (ProcessingJob.set_LastStatus (Some v)) r) w))
    as Hd.
  { unfold same_heap. simpl. split_and!; try done.
    intros r'. rewrite lookup_alter. case_decide; [|done]. subst.
    by destruct (detached w !! r'). }
  unfold write_LastStatus. destruct (jobs w !! id) as [job|] eqn:Hj; [|exact Hd].
  case_decide; [|exact Hd]. by eapply insert_same_heap.
Qed.

Lemma GetJobStatus_heap id w : same_heap w (final_world (GetJobStatus id w)).
Proof.
  unfold GetJobStatus, GetJob, bind, gets, ret, modify.
  destruct (jobs w !! id) as [job|] eqn:Hj; [|apply same_heap_refl].
  destruct (ProcessingJob.LastStatus job); [apply same_heap_refl|].
  pose proof (try_recv_heap (ProcessingJob.Status job) w) as Hr.
  destruct (try_recv (ProcessingJob.Status job) w) as [[status|] w1|msg w1];
    simpl in *; try done.
  eapply same_heap_trans; [exact Hr|].
  assert (same_heap w1 (set_jobs (alter (ProcessingJob.set_LastStatus (Some status)) id) w1))
    as Ha.
  { unfold same_heap. simpl. split_and!; try done.
    intros id'. rewrite lookup_alter. case_decide; [|done]. subst.
    by destruct (jobs w1 !! id'). }
  eapply same_heap_trans; [exact Ha|].
  match goal with
  | |- context [try_send ?ch ?v ?w0] =>
      pose proof (try_send_heap ch v w0) as Hs; destruct (try_send ch v w0)
  end; done.
Qed.

Lemma MarkJobCompleted_heap id st w : same_heap w (final_world (MarkJobCompleted id st w)).
Proof.
  unfold MarkJobCompleted, GetJob, bind, gets, ret, modify.
  destruct (jobs w !! id) as [job|] eqn:Hj; [|apply same_heap_refl]. simpl.
  unfold same_heap. simpl. split_and!; try done.
  intros id'. destruct (decide (id = id')) as [<-|Hne].
  - by rewrite lookup_insert_eq, Hj.
  - by rewrite lookup_insert_ne.
Qed.

Lemma GetJobStatus_step_heap q w : same_heap w (GetJobStatus_step q w).2.
Proof.
  unfold GetJobStatus_step. destruct (Query.pc q) as [|st|st|a|msg];
    try apply same_heap_refl.
  - destruct (_ ≫= _); [apply same_heap_refl|].
    pose proof (try_recv_heap (Query.job q) w) as H.
    by destruct (try_recv _ _) as [[] ?|].
  - apply write_LastStatus_heap.
  - pose proof (try_send_heap (Query.job q) st w) as H.
    by destruct (try_send _ _ _).
Qed.

Lemma park_heap s w : same_heap w (park s w).2.
Proof. unfold park. by destruct (chans w !! statusChan s). Qed.

Lemma send_status_heap next s w : same_heap w (send_status next s w).2.
Proof.
  unfold send_status. destruct (parked s).
  - destruct (was_released s w); [done|]. by destruct (chan_closed _ _).
  - pose proof (try_send_heap (statusChan s) (status s) w) as H.
    destruct (try_send _ _ _) as [[] w'|]; simpl in *; try done.
    eapply same_heap_trans; [exact H|apply park_heap].
Qed.

Lemma processProperties_heap x s w : same_heap w (processProperties x s w).2.
Proof.
  unfold processProperties, processBatch.
  destruct (pc s); try apply same_heap_refl.
  - repeat case_match;
      first [ apply same_heap_refl | apply send_status_heap | apply park_heap
            | by unfold same_heap ].
  - destruct (fetchProperties_len (ctx s) (limit s) (listings x) w)
      as (props & err & -> & _). destruct err; apply same_heap_refl.
  - apply send_status_heap.
  - apply MarkJobCompleted_heap.
  - repeat case_match; apply same_heap_refl.
  - case_match; apply same_heap_refl.
Qed.

Lemma processBatch_worker_heap j x s w : same_heap w (processBatch_worker j x s w).2.
Proof.
  unfold processBatch_worker.
  destruct (pc s); try apply same_heap_refl.
  destruct (_ !! j); [|apply same_heap_refl].
  destruct (_ !! _) as [property|]; [|apply same_heap_refl].
  by destruct (worker_effects (ctx s) property x w) as (r & evs & ->).
Qed.

(** A job leaves the registry. *)
Lemma heap_ok_unregister id job w qs :
  (ProcessingJob.Status job < next_ref w)%nat →
  (∀ id' job', jobs w !! id' = Some job' →
     ProcessingJob.Status job' = ProcessingJob.Status job → id' = id) →
  heap_ok w qs → jobs w !! id = Some job →
  heap_ok (set_jobs (delete id) (detach id w)) qs.
Proof.
  intros Hlt WB (A & B & C) Hj. unfold heap_ok. simpl. rewrite Hj.
  split_and!.
  - intros id' job' H. apply lookup_delete_Some in H as [_ H]. by eapply A.
  - intros r job' H. apply lookup_insert_Some in H as [[<- <-]|[Hne H]].
    + split_and!; [done..|].
      intros id' job' H' Heq. apply lookup_delete_Some in H' as [Hne H'].
      apply Hne. symmetry. eapply WB; eauto.
    + destruct (B _ _ H) as (B1 & B2 & B3). split_and!; [done..|].
      intros id' job2 H'. apply lookup_delete_Some in H' as [_ H']. by eapply B3.
  - intros k q Hk Hl. unfold has_job. simpl. rewrite Hj.
    destruct (C k q Hk Hl) as [(k' & job' & Hk' & Hr & Hid)|(job' & Hd & Hid)].
    + destruct (decide (k' = id)) as [->|Hne].
      * right. exists job. assert (job' = job) as -> by congruence.
        rewrite <- Hr, lookup_insert_eq. done.
      * left. exists k', job'. rewrite lookup_delete_ne by done. done.
    + right. exists job'. split; [|done].
      rewrite lookup_insert_ne; [done|]. intros Heq.
      destruct (B _ _ Hd) as (_ & _ & B3). by eapply B3.
Qed.

(** [close] and then the job leaves the registry. *)
Lemma close_unregister_heap_ok id job w qs :
  wf w → heap_ok w qs → jobs w !! id = Some job →
  ∃ w1, close (ProcessingJob.Status job) w = Ok tt w1
    ∧ heap_ok (set_jobs (delete id) (detach id w1)) qs.
Proof.
  intros Hwf Hh Hj. pose proof Hwf as (WA & WB & WC & _).
  destruct (WA _ _ Hj) as (c & Hc & Hopen).
  pose proof (close_heap (ProcessingJob.Status job) w) as Hs.
  unfold close in *. rewrite Hc, Hopen in *. simpl in Hs.
  eexists. split; [done|].
  apply (heap_ok_unregister id job); simpl; [| | |done].
  - apply WC. by eauto.
  - intros id' job' H Heq. by eapply WB.
  - by eapply heap_ok_same_heap.
Qed.

Lemma RemoveJob_heap_ok id w qs :
  wf w → heap_ok w qs → heap_ok (final_world (RemoveJob id w)) qs.
Proof.
  intros Hwf Hh. unfold RemoveJob, GetJob, bind, gets, ret, modify.
  destruct (jobs w !! id) as [job|] eqn:Hj; [|done].
  by destruct (close_unregister_heap_ok id job w qs Hwf Hh Hj) as (w1 & -> & H).
Qed.

Lemma CleanupJob_heap_ok id w qs :
  wf w → heap_ok w qs → heap_ok (final_world (CleanupJob id w)) qs.
Proof.
  intros Hwf Hh. unfold CleanupJob, GetJob, time_Since, bind, gets, ret, modify.
  destruct (jobs w !! id) as [job|] eqn:Hj; [|done].
  destruct (ProcessingJob.CompletedAt job); [|done].
  destruct (_ && _); [|done].
  by destruct (close_unregister_heap_ok id job w qs Hwf Hh Hj) as (w1 & -> & H).
Qed.

(** [CleanupJob] does not look at the sleeping goroutines. *)
Lemma CleanupJob_timers id f w :
  final_world (CleanupJob id (set_timers f w))
  = set_timers f (final_world (CleanupJob id w)).
Proof.
  unfold CleanupJob, GetJob, time_Since, bind, gets, ret, modify, close. simpl.
  destruct (jobs w !! id) as [job|]; [|done].
  destruct (ProcessingJob.CompletedAt job); [|done].
  destruct (_ && _); [|done]. simpl.
  destruct (chans w !! ProcessingJob.Status job) as [c|]; [|done].
  by destruct (Chan.closed c).
Qed.

(** A job enters the registry, with a new channel. *)
Lemma StartPropertyProcessing_heap_ok id lim w qs :
  wf w → heap_ok w qs → heap_ok (final_world (StartPropertyProcessing id lim w)) qs.
Proof.
  intros (WA & WB & WC & _) (A & B & C).
  unfold StartPropertyProcessing, AddJob, bind, gets, ret, modify. simpl.
  assert (∀ k job, jobs w !! k = Some job →
            (ProcessingJob.Status job < next_ref w)%nat) as Hlt.
  { intros k job Hk. destruct (WA _ _ Hk) as (c & Hc & _). apply WC. by eauto. }
  unfold heap_ok. simpl. split_and!.
  - intros id' job' H. apply lookup_insert_Some in H as [[<- <-]|[_ H]]; [done|].
    by eapply A.
  - intros r job' H.
    assert ((r < next_ref w)%nat ∧ ProcessingJob.Status job' = r
            ∧ ∀ id' job2, jobs w !! id' = Some job2 → id' ≠ id →
                          ProcessingJob.Status job2 ≠ r) as (Hr & Hst & Hothers).
    { destruct (jobs w !! id) as [old|] eqn:Hold.
      - apply lookup_insert_Some in H as [[<- <-]|[Hne H]].
        + split_and!; [by eapply Hlt|done|].
          intros id' job2 H' Hne Heq. apply Hne. by eapply WB.
        + destruct (B _ _ H) as (B1 & B2 & B3). split_and!; [done..|].
          intros id' job2 H' _. by eapply B3.
      - destruct (B _ _ H) as (B1 & B2 & B3). split_and!; [done..|].
        intros id' job2 H' _. by eapply B3. }
    split_and!; [done|lia|].
    intros id' job2 H'. apply lookup_insert_Some in H' as [[<- <-]|[Hne H']].
    + simpl. lia.
    + by eapply Hothers.
  - intros k q Hk Hl. unfold has_job. simpl.
    destruct (C k q Hk Hl) as [(k' & job' & Hk' & Hr & Hid)|(job' & Hd & Hid)].
    + destruct (decide (k' = id)) as [->|Hne].
      * right. exists job'. rewrite Hk'. rewrite <- Hr, lookup_insert_eq. done.
      * left. exists k', job'. rewrite lookup_insert_ne by done. done.
    + right. exists job'. split; [|done].
      destruct (jobs w !! id) as [old|] eqn:Hold; [|done].
      rewrite lookup_insert_ne; [done|]. intros Heq.
      destruct (B _ _ Hd) as (_ & _ & B3). by eapply B3.
Qed.

Lemma heap_ok_live w qs k q' :
  heap_ok w qs →
  (∀ q, qs !! k = Some q → live (Query.pc q') = true →
        live (Query.pc q) = true ∧ Query.job q' = Query.job q
        ∧ Query.jobID q' = Query.jobID q) →
  heap_ok w (<[k := q']> qs).
Proof.
  intros (A & B & C) Hq. unfold heap_ok. split_and!; [done..|].
  intros k' q0 Hk Hl. apply list_lookup_insert_Some in Hk as [(-> & <- & Hlt)|[_ Hk]];
    [|by eapply C].
  destruct (lookup_lt_is_Some_2 _ _ Hlt) as [q Hq0].
  destruct (Hq q Hq0 Hl) as (Hl' & -> & ->). by eapply C.
Qed.

Lemma GetJobStatus_step_live q w :
  live (Query.pc (GetJobStatus_step q w).1) = true →
  live (Query.pc q) = true
  ∧ Query.job (GetJobStatus_step q w).1 = Query.job q
  ∧ Query.jobID (GetJobStatus_step q w).1 = Query.jobID q.
Proof.
  unfold GetJobStatus_step. destruct (Query.pc q) eqn:Hpc; simpl; rewrite ?Hpc;
    try done.
  - destruct (_ ≫= _); [done|]. by destruct (try_recv _ _) as [[] ?|].
  - by destruct (try_send _ _ _).
Qed.

Lemma step_heap_inv (l : Label) (c : Config) :
  wf (world c) → heap_inv c → heap_inv (step l c).
Proof.
  intros Hwf Hh. unfold heap_inv in *. alive.
  assert (∀ w', same_heap (world c) w' → heap_ok w' (queries c)) as Hsame
    by (intros w' H; by eapply heap_ok_same_heap).
  destruct l as [id lim|id|id|id|id|k|d|n x|n j x|id|k]; unfold serve.
  - pose proof (StartPropertyProcessing_heap_ok id lim _ _ Hwf Hh) as H.
    by destruct (StartPropertyProcessing id lim (world c)).
  - apply Hsame, GetJobStatus_heap.
  - simpl. unfold handler, CancelJob, GetJob, bind, gets, ret, cancel, modify.
    destruct (jobs (world c) !! id) as [job|] eqn:Hj; [|done].
    match goal with
    | |- context [RemoveJob id ?w0] =>
        assert (wf w0) as Hwf0
          by (eapply wf_same_shape; [|exact Hwf]; by unfold same_shape);
        assert (heap_ok w0 (queries c)) as Hh0
          by (eapply heap_ok_same_heap; [|exact Hh]; by unfold same_heap);
        pose proof (RemoveJob_heap_ok id w0 _ Hwf0 Hh0) as H; destruct (RemoveJob id w0)
    end; done.
  - destruct (jobs (world c) !! id); [|done]. apply Hsame. by unfold same_heap.
  - by apply RemoveJob_heap_ok.
  - destruct (timers (world c) !! k) as [[id due]|] eqn:Hk; [|done].
    case_bool_decide; [|done]. simpl. unfold handler. rewrite CleanupJob_timers.
    eapply heap_ok_same_heap; [|by apply CleanupJob_heap_ok]. by unfold same_heap.
  - apply Hsame. by unfold same_heap.
  - unfold with_sup. destruct (sups c !! n) as [s|]; [|done].
    pose proof (processProperties_heap x s (world c)) as H.
    destruct (processProperties x s (world c)). by apply Hsame.
  - unfold with_sup. destruct (sups c !! n) as [s|]; [|done].
    pose proof (processBatch_worker_heap j x s (world c)) as H.
    destruct (processBatch_worker j x s (world c)). by apply Hsame.
  - simpl. destruct Hh as (A & B & C). unfold heap_ok. split_and!; [done..|].
    intros k q Hk Hl. apply lookup_snoc_Some in Hk as [[_ Hk]|[_ <-]]; [by eapply C|].
    unfold GetJobStatus_begin in *.
    destruct (jobs (world c) !! id) as [job|] eqn:Hj; [|done]. simpl.
    left. exists id, job. split_and!; [done..|]. by eapply A.
  - destruct (queries c !! k) as [q|] eqn:Hq; [|done].
    pose proof (GetJobStatus_step_heap q (world c)) as H.
    pose proof (GetJobStatus_step_live q (world c)) as Hlive.
    destruct (GetJobStatus_step q (world c)) as [q' w']. simpl in *.
    apply heap_ok_live; [by apply Hsame|].
    intros q0 Hq0. by assert (q0 = q) as -> by congruence.
Qed.

Lemma run_heap_inv (trace : list Label) (c : Config) :
  wf (world c) → heap_inv c → heap_inv (run trace c).
Proof.
  intros Hwf Hc. induction trace as [|l trace IH] using rev_ind; [done|].
  rewrite run_snoc. apply step_heap_inv; [by apply run_wf|done].
Qed.

Lemma reachable_heap_inv (trace : list Label) : heap_inv (run trace init).
Proof. apply run_heap_inv; [apply wf_empty|]. by unfold heap_inv, heap_ok. Qed.

(** ** The retention window *)

Lemma GetJobStatus_not_found (id : string) (w : World) :
  jobs w !! id = None → GetJobStatus id w = Ok (None, false) w.
Proof. intros H. unfold GetJobStatus, GetJob, bind, gets, ret. by rewrite H. Qed.

Lemma GetJobStatus_cached (id : string) (job : ProcessingJob.t)
    (last : ProcessingStatus.t) (w : World) :
  jobs w !! id = Some job → ProcessingJob.LastStatus job = Some last →
  GetJobStatus id w = Ok (Some last, true) w.
Proof.
  intros H Hl. unfold GetJobStatus, GetJob, bind, gets, ret. by rewrite H, Hl.
Qed.

Lemma frames_refl id r w : frames id r w w.
Proof. by unfold frames. Qed.

Lemma frames_trans id r w1 w2 w3 :
  frames id r w1 w2 → frames id r w2 w3 → frames id r w1 w3.
Proof. unfold frames. intros (-> & -> & ->) (-> & -> & ->). done. Qed.

Lemma try_send_frames id r ch v w : frames id r w (final_world (try_send ch v w)).
Proof. unfold try_send. repeat case_match; by unfold frames. Qed.

Lemma try_recv_frames id r ch w : frames id r w (final_world (try_recv ch w)).
Proof. unfold try_recv. repeat case_match; by unfold frames. Qed.

Lemma close_frames id r ch w : frames id r w (final_world (close ch w)).
Proof. unfold close. repeat case_match; by unfold frames. Qed.

(** Another job leaves the registry. *)
Lemma unregister_frames id r id' w :
  id' ≠ id → (∀ o, jobs w !! id' = Some o → ProcessingJob.Status o ≠ r) →
  frames id r w (set_jobs (delete id') (detach id' w)).
Proof.
  intros Hne Hr. unfold frames. simpl. split_and!; [done|by rewrite lookup_delete_ne|].
  destruct (jobs w !! id') as [o|]; [|done]. rewrite lookup_insert_ne; [done|].
  by apply Hr.
Qed.

Lemma close_unregister_frames id r id' ch w :
  id' ≠ id → (∀ o, jobs w !! id' = Some o → ProcessingJob.Status o ≠ r) →
  frames id r w
    (final_world ((do close ch then
                   modify (λ w, set_jobs (delete id') (detach id' w))) w)).
Proof.
  intros Hne Hr. unfold bind, modify.
  pose proof (close_frames id r ch w) as Hc.
  assert (jobs (final_world (close ch w)) = jobs w) as Hj
    by (unfold close; by repeat case_match).
  destruct (close ch w) as [[] w1|msg w1]; simpl in *; [|done].
  eapply frames_trans; [exact Hc|]. apply unregister_frames; [done|].
  by rewrite Hj.
Qed.

Lemma RemoveJob_frames id r id' w :
  id' ≠ id → (∀ o, jobs w !! id' = Some o → ProcessingJob.Status o ≠ r) →
  frames id r w (final_world (RemoveJob id' w)).
Proof.
  intros Hne Hr. unfold RemoveJob, GetJob. unfold bind at 1. unfold gets.
  destruct (jobs w !! id') as [job|] eqn:Hj; [|apply frames_refl].
  apply close_unregister_frames; [done|]. intros o Ho. apply Hr. congruence.
Qed.

Lemma CleanupJob_frames id r id' w :
  id' ≠ id → (∀ o, jobs w !! id' = Some o → ProcessingJob.Status o ≠ r) →
  frames id r w (final_world (CleanupJob id' w)).
Proof.
  intros Hne Hr. unfold CleanupJob, GetJob, time_Since. unfold bind at 1. unfold gets.
  destruct (jobs w !! id') as [job|] eqn:Hj; [|apply frames_refl].
  destruct (ProcessingJob.CompletedAt job); [|apply frames_refl].
  unfold bind at 1. destruct (_ && _); [|apply frames_refl].
  apply close_unregister_frames; [done|]. intros o Ho. apply Hr. congruence.
Qed.

Lemma MarkJobCompleted_frames id r id' st w :
  id' ≠ id → frames id r w (final_world (MarkJobCompleted id' st w)).
Proof.
  intros Hne. unfold MarkJobCompleted, GetJob, bind, gets, ret, modify.
  destruct (jobs w !! id') as [job|]; [|apply frames_refl].
  unfold frames. simpl. by rewrite lookup_insert_ne.
Qed.

Lemma GetJobStatus_frames id r id' w :
  id' ≠ id → frames id r w (final_world (GetJobStatus id' w)).
Proof.
  intros Hne. unfold GetJobStatus, GetJob, bind, gets, ret, modify.
  destruct (jobs w !! id') as [job|]; [|apply frames_refl].
  destruct (ProcessingJob.LastStatus job); [apply frames_refl|].
  pose proof (try_recv_frames id r (ProcessingJob.Status job) w) as Hr.
  destruct (try_recv _ w) as [[status|] w1|msg w1]; simpl in *; try done.
  match goal with
  | |- context [try_send ?ch ?v ?w0] =>
      pose proof (try_send_frames id r ch v w0) as Hs; destruct (try_send ch v w0)
  end; simpl in *;
    (eapply frames_trans; [exact Hr|]); (eapply frames_trans; [|exact Hs]);
    unfold frames; simpl; by rewrite lookup_alter_ne.
Qed.

Lemma StartPropertyProcessing_frames id r id' lim w :
  id' ≠ id → (∀ o, jobs w !! id' = Some o → ProcessingJob.Status o ≠ r) →
  frames id r w (final_world (StartPropertyProcessing id' lim w)).
Proof.
  intros Hne Hr. unfold StartPropertyProcessing, AddJob, bind, gets, ret, modify.
  unfold frames. simpl. split_and!; [done|by rewrite lookup_insert_ne|].
  destruct (jobs w !! id') as [o|]; [|done]. rewrite lookup_insert_ne; [done|].
  by apply Hr.
Qed.

(** A write through the pointer to another job. *)
Lemma write_LastStatus_frames id r id' r' v w :
  r' ≠ r → (∀ o, jobs w !! id = Some o → ProcessingJob.Status o = r) →
  frames id r w (write_LastStatus id' r' v w).
Proof.
  intros Hne Hr.
  assert (frames id r w
            (set_detached (alter (ProcessingJob.set_LastStatus (Some v)) r') w)) as Hd.
  { unfold frames. simpl. split_and!; [done..|]. by rewrite lookup_alter_ne. }
  unfold write_LastStatus. destruct (jobs w !! id') as [o|] eqn:Ho; [|exact Hd].
  case_decide as Hst; [|exact Hd].
  unfold frames. simpl. split_and!; [done| |done].
  rewrite lookup_insert_ne; [done|]. intros ->. apply Hne. rewrite <- Hst. by apply Hr.
Qed.

Lemma GetJobStatus_step_frames id r q w :
  stale r q = false → (∀ o, jobs w !! id = Some o → ProcessingJob.Status o = r) →
  frames id r w (GetJobStatus_step q w).2.
Proof.
  intros Hq Hr. unfold GetJobStatus_step, stale in *.
  destruct (Query.pc q) as [|st|st|a|msg]; try apply frames_refl.
  - destruct (_ ≫= _); [apply frames_refl|].
    pose proof (try_recv_frames id r (Query.job q) w) as H.
    by destruct (try_recv _ _) as [[] ?|].
  - apply write_LastStatus_frames; [|done].
    rewrite andb_true_r in Hq. by apply bool_decide_eq_false in Hq.
  - pose proof (try_send_frames id r (Query.job q) st w) as H.
    by destruct (try_send _ _ _).
Qed.

Lemma processProperties_jobID x s w : jobID (processProperties x s w).1 = jobID s.
Proof.
  unfold processProperties, processBatch, send_status, finish, park, resume, withdraw.
  repeat case_match; simpl; done.
Qed.

Lemma processProperties_finished x s w :
  finished (pc s) = true → processProperties x s w = (s, w).
Proof. unfold processProperties, processBatch. by destruct (pc s). Qed.

Lemma park_frames id r s w : frames id r w (park s w).2.
Proof. unfold park. by destruct (chans w !! statusChan s). Qed.

Lemma send_status_frames id r next s w : frames id r w (send_status next s w).2.
Proof.
  unfold send_status. destruct (parked s).
  - destruct (was_released s w); [done|]. by destruct (chan_closed _ _).
  - pose proof (try_send_frames id r (statusChan s) (status s) w) as H.
    destruct (try_send _ _ _) as [[] w'|]; simpl in *; try done.
    eapply frames_trans; [exact H|apply park_frames].
Qed.

Lemma processProperties_frames id r x s w :
  jobID s ≠ id ∨ pc s ≠ PMark → frames id r w (processProperties x s w).2.
Proof.
  intros Hne. unfold processProperties, processBatch.
  destruct (pc s); try apply frames_refl.
  - repeat case_match;
      first [ apply frames_refl | apply send_status_frames | apply park_frames
            | by unfold frames ].
  - destruct (fetchProperties_len (ctx s) (limit s) (listings x) w)
      as (props & err & -> & _). destruct err; apply frames_refl.
  - apply send_status_frames.
  - simpl. destruct Hne as [Hne|Hne]; [|done]. by apply MarkJobCompleted_frames.
  - repeat case_match; apply frames_refl.
  - case_match; apply frames_refl.
Qed.

Lemma processBatch_worker_jobID j x s w : jobID (processBatch_worker j x s w).1 = jobID s.
Proof. unfold processBatch_worker. repeat case_match; done. Qed.

Lemma processBatch_worker_finished j x s w :
  finished (pc s) = true → processBatch_worker j x s w = (s, w).
Proof. unfold processBatch_worker. by destruct (pc s). Qed.

Lemma processBatch_worker_frames id r j x s w :
  frames id r w (processBatch_worker j x s w).2.
Proof.
  unfold processBatch_worker.
  destruct (pc s); try apply frames_refl.
  destruct (_ !! j); [|apply frames_refl].
  destruct (_ !! _) as [property|]; [|apply frames_refl].
  destruct (worker_effects (ctx s) property x w) as (r' & evs & ->). done.
Qed.

(** *** A job that is left alone *)

Lemma no_stale_lookup r qs k q :
  no_stale r qs = true → qs !! k = Some q → stale r q = false.
Proof.
  unfold no_stale. rewrite forallb_forall. intros Hall Hk.
  apply negb_true_iff, Hall, list_elem_of_In. by eapply list_elem_of_lookup_2.
Qed.

Lemma no_stale_insert r qs k q :
  no_stale r qs = true → stale r q = false → no_stale r (<[k := q]> qs) = true.
Proof.
  unfold no_stale. rewrite !forallb_forall. intros Hall Hq q' Hin.
  apply list_elem_of_In, list_elem_of_lookup in Hin as [i Hi].
  apply list_lookup_insert_Some in Hi as [(-> & <- & _)|[_ Hi]];
    [by apply negb_true_iff|].
  apply Hall, list_elem_of_In. by eapply list_elem_of_lookup_2.
Qed.

(** The other jobs of the registry have other channels. *)
Lemma kept_other_status id job last N c id' o :
  kept id job last N c → id' ≠ id → jobs (world c) !! id' = Some o →
  ProcessingJob.Status o ≠ ProcessingJob.Status job.
Proof.
  intros ((_ & WB & _) & (_ & B & _) & _ & Hheld & _) Hne Ho Heq.
  destruct Hheld as [Hj|[_ Hd]].
  - apply Hne. by eapply WB.
  - destruct (B _ _ Hd) as (_ & _ & B3). by eapply B3.
Qed.

Lemma kept_registry_status id job last N c o :
  kept id job last N c → jobs (world c) !! id = Some o →
  ProcessingJob.Status o = ProcessingJob.Status job.
Proof. intros (_ & _ & _ & [Hj|[Hj _]] & _) Ho; congruence. Qed.

(** A status query in flight that holds the pointer to the job is a query
    for its id. *)
Lemma kept_pointer id job last N c k q :
  kept id job last N c → queries c !! k = Some q → live (Query.pc q) = true →
  Query.job q = ProcessingJob.Status job → Query.jobID q = id.
Proof.
  intros ((_ & WB & _) & (A & B & C) & Hid & Hheld & _) Hk Hl Hr.
  destruct (C k q Hk Hl) as [(k' & job' & Hk' & Hst & Hid')|(job' & Hd & Hid')].
  - destruct Hheld as [Hj|[_ Hd]].
    + assert (k' = id) as -> by (eapply WB; eauto; congruence).
      rewrite <- Hid'. by eapply A.
    + destruct (B _ _ Hd) as (_ & _ & B3). exfalso. eapply B3; eauto. congruence.
  - rewrite Hr in Hd. destruct Hheld as [Hj|[_ Hd']].
    + destruct (B _ _ Hd) as (_ & _ & B3). exfalso. by eapply B3.
    + congruence.
Qed.

Lemma held_job_kept id job last N c :
  kept id job last N c →
  held_job id (ProcessingJob.Status job) (world c) = Some job.
Proof.
  intros (_ & _ & _ & [Hj|[Hj Hd]] & _); unfold held_job; rewrite Hj; [|done].
  by rewrite decide_True.
Qed.

(** The part of a step that changes the store and the supervisors
    only. *)
Lemma kept_frames id job last N c w' ss' :
  kept id job last N c → wf w' → heap_ok w' (queries c) →
  frames id (ProcessingJob.Status job) (world c) w' →
  kept id job last N (mkConfig w' ss' (queries c))
  ∧ now (world c) ≤ now w'
  ∧ (jobs (world c) !! id = Some job → jobs w' !! id = Some job).
Proof.
  intros (_ & _ & Hid & Hheld & Hst & Hq) Hwf Hheap (Hn & Hj & Hd).
  split_and!; [|lia|congruence].
  unfold kept, heap_inv, held, answered in *. simpl. rewrite Hj, Hd.
  split_and!; done.
Qed.

(** One part of a status query. *)
Lemma query_step_kept id job last N c k q :
  ProcessingJob.LastStatus job = Some last →
  kept id job last N c → queries c !! k = Some q →
  let '(q', w') := GetJobStatus_step q (world c) in
  frames id (ProcessingJob.Status job) (world c) w'
  ∧ stale (ProcessingJob.Status job) q' = false
  ∧ ((N ≤ k)%nat → answered id job last (world c) q').
Proof.
  intros Hlast Hk Hq.
  pose proof Hk as (_ & _ & _ & _ & Hst & Hans).
  pose proof (no_stale_lookup _ _ _ _ Hst Hq) as Hnot.
  pose proof (GetJobStatus_step_frames id _ q (world c) Hnot
                (λ o, kept_registry_status _ _ _ _ _ o Hk)) as Hfr.
  pose proof (kept_pointer _ _ _ _ _ k q Hk Hq) as Hptr.
  specialize (Hans k q). unfold answered in *.
  unfold GetJobStatus_step, stale in *.
  destruct (Query.pc q) as [|st|st|a|msg] eqn:Hpc.
  - destruct (decide (Query.job q = ProcessingJob.Status job)) as [Hr|Hr].
    + rewrite (Hptr eq_refl Hr), Hr, (held_job_kept _ _ _ _ _ Hk). simpl.
      rewrite Hlast. split_and!; [apply frames_refl|by rewrite andb_false_r|].
      intros _ _. right. by left.
    + destruct (_ ≫= _).
      * split_and!; [apply frames_refl|by rewrite andb_false_r|].
        intros HN Hid. destruct (Hans HN Hq Hid) as [[_ H]|[H|[H _]]]; done.
      * destruct (try_recv _ _) as [[v|] w1|msg w1]; simpl in *;
          (split_and!; [done| |]);
          try (intros HN Hid; destruct (Hans HN Hq Hid) as [[_ H]|[H|[H _]]]; done).
        -- rewrite bool_decide_eq_false_2 by done. done.
        -- by rewrite andb_false_r.
        -- by rewrite andb_false_r.
  - simpl in *. split_and!; [done|by rewrite andb_false_r|].
    intros HN Hid. destruct (Hans HN Hq Hid) as [[H _]|[H|[H _]]]; done.
  - destruct (try_send _ _ _); simpl in *;
      (split_and!; [done|by rewrite andb_false_r|]);
      intros HN Hid; destruct (Hans HN Hq Hid) as [[H _]|[H|[H _]]]; done.
  - simpl in *. rewrite Hpc. split_and!; [done|by rewrite andb_false_r|].
    intros HN. by apply Hans.
  - simpl in *. rewrite Hpc. split_and!; [done|by rewrite andb_false_r|].
    intros HN. by apply Hans.
Qed.

Lemma all_finished_insert id n s' ss :
  all_finished id ss = true →
  negb (bool_decide (jobID s' = id)) || finished (pc s') = true →
  all_finished id (<[n := s']> ss) = true.
Proof.
  unfold all_finished. rewrite !forallb_forall. intros Hall Hs' s Hin.
  apply list_elem_of_In, list_elem_of_lookup in Hin as [i Hi].
  apply list_lookup_insert_Some in Hi as [(-> & <- & _)|[_ Hi]]; [done|].
  apply Hall, list_elem_of_In. by eapply list_elem_of_lookup_2.
Qed.

Lemma all_finished_lookup id n s ss :
  all_finished id ss = true → ss !! n = Some s →
  jobID s ≠ id ∨ finished (pc s) = true.
Proof.
  unfold all_finished. rewrite forallb_forall. intros Hall Hn.
  specialize (Hall s). rewrite <- list_elem_of_In in Hall.
  specialize (Hall (list_elem_of_lookup_2 _ _ _ Hn)).
  apply orb_true_iff in Hall as [H|H]; [left|by right].
  apply negb_true_iff in H. by apply bool_decide_eq_false in H.
Qed.

(** One step of the system next to a job that is left alone: the job
    stays as it is, and it leaves the registry only when its cleanup
    goroutine finds the retention window over. *)
Lemma step_kept id job last N l c :
  ProcessingJob.LastStatus job = Some last →
  quiet id c l = true →
  kept id job last N c →
  kept id job last N (step l c)
  ∧ now (world c) ≤ now (world (step l c))
  ∧ (jobs (world c) !! id = Some job →
     jobs (world (step l c)) !! id = Some job
     ∨ ∃ k t, l = LTimer k ∧ ProcessingJob.CompletedAt job = Some t
              ∧ t + JobRetentionDuration ≤ now (world (step l c))).
Proof.
  intros Hlast Hl Hk.
  assert (kept id job last N c ∧ now (world c) ≤ now (world c)
          ∧ (jobs (world c) !! id = Some job →
             jobs (world c) !! id = Some job
             ∨ ∃ k t, l = LTimer k ∧ ProcessingJob.CompletedAt job = Some t
                      ∧ t + JobRetentionDuration ≤ now (world c))) as Hsame
    by (split_and!; [done|lia|by left]).
  pose proof Hk as (Hw & Hheap & Hid & Hheld & Hst & Hans).
  pose proof (step_wf l c Hw) as Hw'.
  pose proof (step_heap_inv l c Hw Hheap) as Hheap'.
  assert (∀ w' ss',
            wf w' → heap_ok w' (queries c) →
            frames id (ProcessingJob.Status job) (world c) w' →
            kept id job last N (mkConfig w' ss' (queries c))
            ∧ now (world c) ≤ now w'
            ∧ (jobs (world c) !! id = Some job →
               jobs w' !! id = Some job
               ∨ ∃ k t, l = LTimer k ∧ ProcessingJob.CompletedAt job = Some t
                        ∧ t + JobRetentionDuration ≤ now w')) as Hframes.
  { intros w' ss' H1 H2 H3.
    destruct (kept_frames id job last N c w' ss' Hk H1 H2 H3) as (K1 & K2 & K3).
    split_and!; [done..|]. intros Hj. left. by apply K3. }
  revert Hw' Hheap'. unfold heap_inv, step.
  destruct (crashed c) eqn:Halive; [done|]. intros Hw' Hheap'.
  destruct l as [id' lim|id'|id'|id'|id'|k|d|n x|n j x|id'|k]; unfold serve in *;
    simpl in Hl.
  - (* a start request for another job *)
    apply negb_true_iff, bool_decide_eq_false in Hl.
    pose proof (StartPropertyProcessing_frames id (ProcessingJob.Status job) id' lim
                  (world c) Hl (λ o, kept_other_status _ _ _ _ _ _ o Hk Hl)) as Hfr.
    destruct (StartPropertyProcessing id' lim (world c)); by apply Hframes.
  - (* a status request *)
    apply Hframes; [done..|]. unfold handler.
    destruct (decide (id' = id)) as [->|Hne]; [|by apply GetJobStatus_frames].
    destruct Hheld as [Hj|[Hj _]].
    + rewrite (GetJobStatus_cached _ _ _ _ Hj Hlast). apply frames_refl.
    + rewrite (GetJobStatus_not_found _ _ Hj). apply frames_refl.
  - (* a cancel request for another job *)
    apply negb_true_iff, bool_decide_eq_false in Hl.
    apply Hframes; [done..|].
    unfold handler, CancelJob, GetJob, cancel. unfold bind at 1. unfold gets.
    destruct (jobs (world c) !! id') as [job'|] eqn:Hj'; [|apply frames_refl].
    unfold bind at 1. unfold modify. unfold bind at 1.
    match goal with
    | |- context [RemoveJob id' ?w0] =>
        pose proof (RemoveJob_frames id (ProcessingJob.Status job) id' w0 Hl) as H;
        destruct (RemoveJob id' w0)
    end; simpl in *; apply H; intros o Ho; by eapply kept_other_status.
  - (* job.Cancel() *)
    destruct (jobs (world c) !! id'); [|done]. by apply Hframes.
  - (* RemoveJob for another job *)
    apply negb_true_iff, bool_decide_eq_false in Hl.
    apply Hframes; [done..|]. apply RemoveJob_frames; [done|].
    intros o Ho. by eapply kept_other_status.
  - (* a cleanup goroutine wakes up *)
    destruct (timers (world c) !! k) as [[id' due]|] eqn:Hk'; [|done].
    case_bool_decide as Hdue; [|done]. simpl in *.
    unfold handler in *. rewrite CleanupJob_timers in *.
    destruct (decide (id' = id)) as [->|Hne].
    + unfold kept, heap_inv. simpl. split_and!; [done..| | | | |].
      * unfold held, CleanupJob, GetJob, time_Since, bind, gets, ret, modify, close.
        destruct Hheld as [Hj|[Hj Hd]]; rewrite Hj; [|by right].
        destruct (ProcessingJob.CompletedAt job); [|by left].
        destruct (_ && _); [|by left]. simpl.
        destruct (chans (world c) !! ProcessingJob.Status job) as [ch|]; [|by left].
        destruct (Chan.closed ch); [by left|]. simpl. rewrite Hj. right.
        by rewrite lookup_delete_eq, lookup_insert_eq.
      * done.
      * intros k' q HN Hq Hq'. destruct (Hans k' q HN Hq Hq') as [H|[H|[H Hnone]]];
          [by left|right; by left|right; right]. split; [done|].
        unfold CleanupJob, GetJob, bind, gets, ret. by rewrite Hnone.
      * unfold CleanupJob, GetJob, time_Since, bind, gets, ret, modify, close.
        destruct (jobs (world c) !! id) as [o|]; [|simpl; lia].
        destruct (ProcessingJob.CompletedAt o); [|simpl; lia].
        destruct (_ && _); [|simpl; lia]. simpl.
        destruct (chans (world c) !! _) as [ch|]; [|simpl; lia].
        destruct (Chan.closed ch); simpl; lia.
      * intros Hj.
        unfold CleanupJob, GetJob, time_Since, bind, gets, ret, modify, close.
        rewrite Hj. destruct (ProcessingJob.CompletedAt job) as [t|] eqn:Hcomp;
          [|by left].
        destruct (_ && _) eqn:Hcond; [|by left].
        apply andb_true_iff in Hcond as [_ Hold]. apply bool_decide_eq_true in Hold.
        simpl.
        destruct (chans (world c) !! ProcessingJob.Status job) as [ch|]; [|by left].
        destruct (Chan.closed ch); [by left|]. simpl. right.
        exists k, t. split_and!; [done..|]. lia.
    + rewrite <- CleanupJob_timers in *. apply Hframes; [done..|].
      eapply (frames_trans _ _ _ (set_timers (delete k) (world c))); [done|].
      apply CleanupJob_frames; [done|]. intros o Ho. by eapply kept_other_status.
  - (* time passes *)
    unfold kept, heap_inv. simpl. split_and!; [done..|lia|by left].
  - (* a supervisor *)
    unfold with_sup in *. destruct (sups c !! n) as [s|] eqn:Hn; [|done].
    pose proof (processProperties_frames id (ProcessingJob.Status job) x s (world c))
      as Hfr.
    destruct (processProperties x s (world c)) as [s' w']. simpl in *.
    apply Hframes; [done..|]. apply Hfr.
    apply negb_true_iff, andb_false_iff in Hl as [Hl|Hl].
    * left. by apply bool_decide_eq_false in Hl.
    * right. intros Hpc. by rewrite Hpc in Hl.
  - (* a worker *)
    unfold with_sup in *. destruct (sups c !! n) as [s|] eqn:Hn; [|done].
    pose proof (processBatch_worker_frames id (ProcessingJob.Status job) j x s (world c))
      as Hfr.
    destruct (processBatch_worker j x s (world c)) as [s' w']. simpl in *.
    by apply Hframes.
  - (* a status query begins *)
    unfold kept, heap_inv. simpl. split_and!; [done..| | |lia|by left].
    + unfold no_stale in *. rewrite forallb_app, Hst. simpl.
      unfold GetJobStatus_begin, stale. destruct (jobs (world c) !! id'); simpl;
        by rewrite andb_false_r.
    + intros k q HN Hq. apply lookup_snoc_Some in Hq as [[_ Hq]|[_ <-]];
        [by eapply Hans|].
      unfold answered, GetJobStatus_begin. intros Hq'.
      assert (id' = id) as -> by (by destruct (jobs (world c) !! id')).
      destruct Hheld as [Hj|[Hj _]]; rewrite Hj; simpl; [by left|].
      right. by right.
  - (* a part of a status query *)
    destruct (queries c !! k) as [q|] eqn:Hq; [|done].
    pose proof (query_step_kept id job last N c k q Hlast Hk Hq) as Hstep.
    destruct (GetJobStatus_step q (world c)) as [q' w']. simpl in *.
    destruct Hstep as (Hfr & Hst' & Hans'). pose proof Hfr as (Hn & Hj & Hd).
    unfold kept, heap_inv, held, answered in *. simpl. rewrite Hj, Hd, Hn.
    split_and!; [done..| | |lia|by left].
    + by apply no_stale_insert.
    + intros k' q0 HN Hq0.
      apply list_lookup_insert_Some in Hq0 as [(-> & <- & _)|[_ Hq0]];
        [by apply Hans'|by eapply Hans].
Qed.

Lemma step_all_finished id l c :
  leaves_alone id l = true → all_finished id (sups c) = true →
  all_finished id (sups (step l c)) = true.
Proof.
  intros Hl Hall. unfold step. destruct (crashed c); [done|].
  assert (∀ f, (∀ s w, jobID (f s w).1 = jobID s) →
               (∀ s w, finished (pc s) = true → f s w = (s, w)) →
               ∀ n, all_finished id (sups (with_sup n f c)) = true) as Hsup.
  { intros f Hid Hfin n. unfold with_sup.
    destruct (sups c !! n) as [s|] eqn:Hn; [|done].
    destruct (all_finished_lookup _ _ _ _ Hall Hn) as [Hne|Hdone].
    - specialize (Hid s (world c)). destruct (f s (world c)) as [s' w']. simpl in *.
      apply all_finished_insert; [done|]. rewrite Hid. apply orb_true_iff. left.
      apply negb_true_iff. by apply bool_decide_eq_false.
    - rewrite (Hfin _ _ Hdone). simpl. by rewrite list_insert_id. }
  destruct l as [id' lim|id'|id'|id'|id'|k|d|n x|n j x|id'|k]; unfold serve;
    simpl in Hl; try done.
  - unfold StartPropertyProcessing, AddJob, bind, gets, ret, modify. simpl.
    unfold all_finished in *. rewrite forallb_app, Hall. simpl. by rewrite Hl.
  - by destruct (jobs (world c) !! id').
  - destruct (timers (world c) !! k) as [[id' due]|]; [|done]. by case_bool_decide.
  - apply Hsup; [apply processProperties_jobID|apply processProperties_finished].
  - apply Hsup; [apply processBatch_worker_jobID|apply processBatch_worker_finished].
  - destruct (queries c !! k) as [q|]; [|done]. by destruct (GetJobStatus_step q (world c)).
Qed.

(** With no supervisor of the job left, a label that leaves the job alone
    is a quiet one. *)
Lemma leaves_alone_quiet id l c :
  leaves_alone id l = true → all_finished id (sups c) = true → quiet id c l = true.
Proof.
  intros Hl Hall. destruct l; simpl in *; try done.
  destruct (sups c !! n) as [s|] eqn:Hn; [|done].
  apply negb_true_iff, andb_false_iff.
  destruct (all_finished_lookup _ _ _ _ Hall Hn) as [Hne|Hdone].
  - left. by apply bool_decide_eq_false.
  - right. by destruct (pc s).
Qed.

Lemma run_kept id job t final N after c :
  ProcessingJob.CompletedAt job = Some t →
  ProcessingJob.LastStatus job = Some final →
  forallb (leaves_alone id) after = true →
  kept id job final N c → all_finished id (sups c) = true →
  (jobs (world c) !! id = None → t + JobRetentionDuration ≤ now (world c)) →
  kept id job final N (run after c)
  ∧ all_finished id (sups (run after c)) = true
  ∧ (jobs (world (run after c)) !! id = None →
     t + JobRetentionDuration ≤ now (world (run after c))).
Proof.
  intros Hcomp Hlast. induction after as [|l after IH] using rev_ind; [done|].
  rewrite forallb_app. simpl. intros [Ht Hl]%andb_true_iff Hk Hall Hgone.
  apply andb_true_iff in Hl as [Hl _].
  destruct (IH Ht Hk Hall Hgone) as (Hk' & Hall' & Hgone'). rewrite run_snoc.
  destruct (step_kept id job final N l _ Hlast (leaves_alone_quiet _ _ _ Hl Hall') Hk')
    as (K1 & K2 & K3).
  split_and!; [done|by apply step_all_finished|].
  intros Hnone. pose proof Hk' as (_ & _ & _ & [Hj|[Hj _]] & _).
  - destruct (K3 Hj) as [H|(k & t' & _ & Ht' & Hdue)]; [congruence|].
    by assert (t' = t) as -> by congruence.
  - specialize (Hgone' Hj). lia.
Qed.

(** C4, as the code has it. A job that has reached a terminal state (its
    final snapshot [final] and completion time [t] are stored on it, and
    no supervisor of it is still running), whose snapshot no status query
    in flight is about to overwrite, and to whose id no cancel, remove or
    start request is addressed afterwards, while the process runs:
    - is answered with [final] by every status query made before
      [t + JobRetentionDuration];
    - is gone from the registry only once [t + JobRetentionDuration] is
      reached, and a status query then says not found;
    - has, as long as it is registered, its cleanup goroutine sleeping
      until [t + JobRetentionDuration];
    - is removed when that goroutine wakes up, at or after
      [t + JobRetentionDuration];
    - and its status queries begun afterwards, whatever runs between
      their parts, never take a snapshot from the channel: each has only
      looked the job up, or has answered with [final], or has found no
      job at or after [t + JobRetentionDuration]. *)
Theorem retention_when_left_alone
    (before after : list Label) (id : string) (job : ProcessingJob.t)
    (t : Time) (final : ProcessingStatus.t) :
  jobs (world (run before init)) !! id = Some job →
  ProcessingJob.CompletedAt job = Some t →
  ProcessingJob.LastStatus job = Some final →
  all_finished id (sups (run before init)) = true →
  no_stale (ProcessingJob.Status job) (queries (run before init)) = true →
  forallb (leaves_alone id) after = true →
  crashed (run after (run before init)) = false →
  (now (world (run after (run before init))) < t + JobRetentionDuration →
   GetJobStatus id (world (run after (run before init)))
   = Ok (Some final, true) (world (run after (run before init))))
  ∧ (jobs (world (run after (run before init))) !! id = None →
     t + JobRetentionDuration ≤ now (world (run after (run before init)))
     ∧ not_found id (world (run after (run before init))))
  ∧ (is_Some (jobs (world (run after (run before init))) !! id) →
     (id, t + JobRetentionDuration) ∈ timers (world (run after (run before init))))
  ∧ (∀ k, timers (world (run after (run before init))) !! k
          = Some (id, t + JobRetentionDuration) →
          t + JobRetentionDuration ≤ now (world (run after (run before init))) →
          not_found id (world (step (LTimer k) (run after (run before init)))))
  ∧ (∀ k q, (length (queries (run before init)) ≤ k)%nat →
       queries (run after (run before init)) !! k = Some q →
       Query.jobID q = id →
       Query.pc q = QLookedUp
       ∨ Query.pc q = QDone (Some final, true)
       ∨ (Query.pc q = QDone (None, false)
          ∧ t + JobRetentionDuration ≤ now (world (run after (run before init))))).
Proof.
  intros Hj Hcomp Hlast Hfin Hst Hafter Halive.
  assert (kept id job final (length (queries (run before init))) (run before init))
    as Hk0.
  { pose proof (reachable_heap_inv before) as Hheap. pose proof Hheap as (A & _).
    split_and!; [apply reachable_wf|done|by eapply A|by left|done|].
    intros k q HN Hq. apply lookup_lt_Some in Hq. lia. }
  destruct (run_kept id job t final _ after _ Hcomp Hlast Hafter Hk0 Hfin)
    as (Hk & _ & Hgone); [congruence|].
  set (c' := run after (run before init)) in *.
  destruct Hk as (Hwf & _ & _ & Hheld & _ & Hans). split_and!.
  - intros Hnow. destruct Hheld as [Hreg|[Hreg _]]; [|specialize (Hgone Hreg); lia].
    by eapply GetJobStatus_cached.
  - intros Hnone. split; [by apply Hgone|]. eexists. by apply GetJobStatus_not_found.
  - intros [j Hreg']. destruct Hheld as [Hreg|[Hreg _]]; [|congruence].
    destruct Hwf as (_ & _ & _ & D). exact (D id job t Hreg Hcomp).
  - intros k Hk Hdue. eexists. apply GetJobStatus_not_found.
    unfold step. rewrite Halive. unfold serve.
    rewrite Hk. rewrite bool_decide_eq_true_2 by done. simpl.
    unfold handler, CleanupJob, GetJob, time_Since, bind, gets, ret, modify. simpl.
    destruct Hheld as [Hreg|[Hreg _]]; rewrite Hreg; [|done].
    rewrite Hcomp. simpl. rewrite bool_decide_eq_true_2 by lia. simpl.
    destruct (wf_close_delete id job _ Hwf Hreg) as (w1 & Hcl & _).
    unfold close in *. simpl.
    destruct (chans (world c') !! ProcessingJob.Status job) as [ch|]; [|done].
    destruct (Chan.closed ch); [done|]. simpl. apply lookup_delete_eq.
  - intros k q HN Hq Hid. destruct (Hans k q HN Hq Hid) as [[H _]|[H|[H Hnone]]];
      [by left|right; by left|right; right]. split; [done|]. by apply Hgone.
Qed.

Lemma retention_when_left_alone_witness :
  (jobs (world (run empty_run init)) !! "job" = Some completed_job
   ∧ ProcessingJob.CompletedAt completed_job = Some 0
   ∧ ProcessingJob.LastStatus completed_job = Some completed_empty
   ∧ all_finished "job" (sups (run empty_run init)) = true
   ∧ no_stale (ProcessingJob.Status completed_job) (queries (run empty_run init)) = true
   ∧ forallb (leaves_alone "job") query_after_completion = true
   ∧ crashed (run query_after_completion (run empty_run init)) = false)
  ∧ (now (world (run query_after_completion (run empty_run init)))
       < 0 + JobRetentionDuration →
     GetJobStatus "job" (world (run query_after_completion (run empty_run init)))
     = Ok (Some completed_empty, true)
          (world (run query_after_completion (run empty_run init)))).
Proof.
  assert (jobs (world (run empty_run init)) !! "job" = Some completed_job) as H1
    by (vm_compute; reflexivity).
  assert (all_finished "job" (sups (run empty_run init)) = true) as H2
    by (vm_compute; reflexivity).
  assert (no_stale (ProcessingJob.Status completed_job) (queries (run empty_run init))
          = true) as H3 by (vm_compute; reflexivity).
  assert (crashed (run query_after_completion (run empty_run init)) = false) as H4
    by (vm_compute; reflexivity).
  split; [split_and!; done|].
  exact (proj1 (retention_when_left_alone empty_run query_after_completion
                  "job" completed_job 0 completed_empty H1 eq_refl eq_refl H2 H3
                  eq_refl H4)).
Defined.

(** C4, as stated, fails: a job that completed at time 0 and is cancelled
    one second later is not found although the retention window has not
    elapsed. *)
Lemma retention_broken_by_cancel : ¬ retention_unconditional.
Proof.
  intros H.
  specialize (H empty_run [LTick 1000000000%N; LCancelJob "job"] "job" completed_job 0).
  destruct H as (st & w' & H); [by vm_compute|done|by vm_compute|].
  vm_compute in H. discriminate H.
Qed.

(** ** Cancel requests while the supervisor is running *)

(** C2, at a failing run. The job is cancelled by a cancel request after
    its listings are fetched; at the head of the first batch the
    supervisor sees the cancellation and sets its state to ["cancelled"];
    its next operation, the send of that snapshot, finds the channel
    closed by the cancel request and panics. No ["cancelled"] snapshot was
    published, [MarkJobCompleted] was not called (no cleanup is scheduled),
    no listing was processed, and the job is not in the registry. *)
Theorem cancel_seen_at_boundary_panics :
  map pc (sups (run cancel_seen_at_boundary init)) = [PSend PMark]
  ∧ map (λ s, state (status s)) (sups (run cancel_seen_at_boundary init))
    = ["cancelled"]
  ∧ map pc (sups (run (cancel_seen_at_boundary ++ [LSup 0 no_io]) init))
    = [PPanic "send on closed channel"]
  ∧ map (λ s, map state (published s))
        (sups (run (cancel_seen_at_boundary ++ [LSup 0 no_io]) init))
    = [["running"; "running"]]
  ∧ timers (world (run (cancel_seen_at_boundary ++ [LSup 0 no_io]) init)) = []
  ∧ effects (world (run (cancel_seen_at_boundary ++ [LSup 0 no_io]) init)) = []
  ∧ jobs (world (run (cancel_seen_at_boundary ++ [LSup 0 no_io]) init)) !! "job"
    = None.
Proof. vm_compute. repeat split. Qed.

(** C5, at a failing run. The job is cancelled by a cancel request while
    its first batch is in flight. Whichever branch the [select] at the
    end of the batch takes, the supervisor ends in a panic: with the send
    branch at once, with the other branch at its next send. *)
Theorem supervisor_panics_when_job_removed :
  map pc (sups (run (cancel_during_batch false) init))
  = [PPanic "send on closed channel"]
  ∧ map pc (sups (run (cancel_during_batch true) init))
    = [PPanic "send on closed channel"].
Proof. vm_compute. repeat split. Qed.

(** C6, at a failing run. The job is cancelled by a cancel request while
    the listings are being fetched, which fails the request. The
    supervisor sets its state to ["failed"] with zero counters and a
    message; its next operation, the send of that snapshot, finds the
    channel closed and panics: the snapshot is not published and
    [MarkJobCompleted] is not called. *)
Theorem fetch_failure_after_cancel_panics :
  map pc (sups (run cancel_during_fetch init)) = [PSend PMark]
  ∧ map (λ s, (state (status s), total (status s),
               processed (status s), failed (status s)))
        (sups (run cancel_during_fetch init))
    = [("failed", 0, 0, 0)]
  ∧ map (λ s, bool_decide (ProcessingStatus.ErrorMessage (status s) = ""))
        (sups (run cancel_during_fetch init))
    = [false]
  ∧ map pc (sups (run (cancel_during_fetch ++ [LSup 0 no_io]) init))
    = [PPanic "send on closed channel"]
  ∧ map (λ s, map state (published s))
        (sups (run (cancel_during_fetch ++ [LSup 0 no_io]) init))
    = [["running"]]
  ∧ timers (world (run (cancel_during_fetch ++ [LSup 0 no_io]) init)) = [].
Proof. vm_compute. repeat split. Qed.

(** ** The theorems at work on the scenarios *)

Lemma completed_counts_add_up_witness :
  (sups (run whole_run init) !! 0%nat = Some (sup_at 0 (run whole_run init))
   ∧ state (status (sup_at 0 (run whole_run init))) = "completed")
  ∧ processed (status (sup_at 0 (run whole_run init)))
    + failed (status (sup_at 0 (run whole_run init)))
    = total (status (sup_at 0 (run whole_run init))).
Proof.
  assert (sups (run whole_run init) !! 0%nat = Some (sup_at 0 (run whole_run init)))
    as H1 by (vm_compute; reflexivity).
  assert (state (status (sup_at 0 (run whole_run init))) = "completed")
    as H2 by (vm_compute; reflexivity).
  split; [exact (conj H1 H2)|].
  exact (proj1 (completed_counts_add_up whole_run 0 _ H1 H2)).
Defined.

Lemma published_counters_bounded_and_monotone_witness :
  sups (run whole_run init) !! 0%nat = Some (sup_at 0 (run whole_run init))
  ∧ nondecreasing (published (sup_at 0 (run whole_run init))).
Proof.
  assert (sups (run whole_run init) !! 0%nat = Some (sup_at 0 (run whole_run init)))
    as H1 by (vm_compute; reflexivity).
  split; [exact H1|].
  exact (proj2 (proj2 (published_counters_bounded_and_monotone whole_run 0 _ H1))).
Defined.

Lemma registered_job_status_never_absent_witness :
  jobs (world (run first_batch_started init)) !! "job"
  = Some (ProcessingJob.mk "job" 1 0 0 None None)
  ∧ ∃ st w', GetJobStatus "job" (world (run first_batch_started init))
             = Ok (Some st, true) w'.
Proof.
  assert (jobs (world (run first_batch_started init)) !! "job"
          = Some (ProcessingJob.mk "job" 1 0 0 None None)) as H1
    by (vm_compute; reflexivity).
  split; [exact H1|].
  destruct (registered_job_status_never_absent first_batch_started "job" _ H1)
    as (st & w' & H & _).
  exact (ex_intro _ st (ex_intro _ w' H)).
Defined.

Lemma cancelled_worker_counts_as_failed_witness :
  (crashed (run [] (step (LWorker 0 0 all_images_ok) (run cancelled_in_batch init)))
   = false
   ∧ sups (run cancelled_in_batch init) !! 0%nat
     = Some (sup_at 0 (run cancelled_in_batch init))
   ∧ pc (sup_at 0 (run cancelled_in_batch init)) = PWorkers 0 1 [0%nat] []
   ∧ [0%nat] !! 0%nat = Some 0%nat
   ∧ properties (sup_at 0 (run cancelled_in_batch init)) !! 0%nat
     = Some (listing "L1" ["http://img/0"; "http://img/1"; "http://img/2"])
   ∧ is_cancelled (ctx (sup_at 0 (run cancelled_in_batch init)))
       (world (run cancelled_in_batch init)) = true
   ∧ forallb (waits 0) [] = true
   ∧ sups (run [] (step (LWorker 0 0 all_images_ok) (run cancelled_in_batch init)))
       !! 0%nat
     = Some (sup_at 0 (step (LWorker 0 0 all_images_ok) (run cancelled_in_batch init)))
   ∧ pc (sup_at 0 (step (LWorker 0 0 all_images_ok) (run cancelled_in_batch init)))
     = PWorkers 0 1 [] [Some context_Canceled])
  ∧ ∃ rest s3,
      [Some context_Canceled] = [] ++ [Some context_Canceled] ++ rest
      ∧ sups (step (LSup 0 no_io)
                (run [] (step (LWorker 0 0 all_images_ok) (run cancelled_in_batch init))))
          !! 0%nat = Some s3
      ∧ pc s3 = PSelect (PLoop (0 + batchSize)) (PLoop (0 + batchSize))
      ∧ failed (status s3)
        = failed (status (sup_at 0 (run cancelled_in_batch init)))
          + failures [] + 1 + failures rest
      ∧ processed (status s3)
        = processed (status (sup_at 0 (run cancelled_in_batch init)))
          + successes [] + successes rest.
Proof.
  assert (crashed (run [] (step (LWorker 0 0 all_images_ok)
                             (run cancelled_in_batch init))) = false)
    as H0 by (vm_compute; reflexivity).
  assert (sups (run cancelled_in_batch init) !! 0%nat
          = Some (sup_at 0 (run cancelled_in_batch init)))
    as H1 by (vm_compute; reflexivity).
  assert (pc (sup_at 0 (run cancelled_in_batch init)) = PWorkers 0 1 [0%nat] [])
    as H2 by (vm_compute; reflexivity).
  assert (properties (sup_at 0 (run cancelled_in_batch init)) !! 0%nat
          = Some (listing "L1" ["http://img/0"; "http://img/1"; "http://img/2"]))
    as H3 by (vm_compute; reflexivity).
  assert (is_cancelled (ctx (sup_at 0 (run cancelled_in_batch init)))
            (world (run cancelled_in_batch init)) = true)
    as H4 by (vm_compute; reflexivity).
  assert (sups (run [] (step (LWorker 0 0 all_images_ok) (run cancelled_in_batch init)))
            !! 0%nat
          = Some (sup_at 0 (step (LWorker 0 0 all_images_ok)
                              (run cancelled_in_batch init))))
    as H5 by (vm_compute; reflexivity).
  assert (pc (sup_at 0 (step (LWorker 0 0 all_images_ok) (run cancelled_in_batch init)))
          = PWorkers 0 1 [] [Some context_Canceled])
    as H6 by (vm_compute; reflexivity).
  split; [exact (conj H0 (conj H1 (conj H2 (conj eq_refl (conj H3 (conj H4
                  (conj eq_refl (conj H5 H6))))))))|].
  exact (proj2 (cancelled_worker_counts_as_failed cancelled_in_batch [] 0 0
                  all_images_ok no_io _ _ 0 1 [0%nat] [] [Some context_Canceled]
                  0 _ H0 H1 H2 eq_refl H3 H4 eq_refl H5 H6)).
Defined.

Lemma partial_media_failure_drops_listing_witness :
  (crashed (run [] (step (LWorker 0 0 second_image_fails) (run first_batch_started init)))
   = false
   ∧ sups (run first_batch_started init) !! 0%nat
     = Some (sup_at 0 (run first_batch_started init))
   ∧ pc (sup_at 0 (run first_batch_started init)) = PWorkers 0 1 [0%nat] []
   ∧ [0%nat] !! 0%nat = Some 0%nat
   ∧ properties (sup_at 0 (run first_batch_started init)) !! 0%nat
     = Some (listing "L1" ["http://img/0"; "http://img/1"; "http://img/2"])
   ∧ downloadImages (ctx (sup_at 0 (run first_batch_started init)))
       (SimplyRETSProperty.Photos
          (listing "L1" ["http://img/0"; "http://img/1"; "http://img/2"]))
       (SimplyRETSProperty.ListingID
          (listing "L1" ["http://img/0"; "http://img/1"; "http://img/2"]))
       (images second_image_fails) (arrival second_image_fails)
       (world (run first_batch_started init))
     = Ok ([Photo.mk "http://img/0" "/images/L1_0.jpg" "Property image 1";
            Photo.mk "http://img/2" "/images/L1_2.jpg" "Property image 3"],
           Some "some images failed to download: image download returned status 404")
          (add_effects [EGet "http://img/0"; EFile "L1_0.jpg"; EGet "http://img/1";
                        EGet "http://img/2"; EFile "L1_2.jpg"]
             (world (run first_batch_started init)))
   ∧ [Photo.mk "http://img/0" "/images/L1_0.jpg" "Property image 1";
      Photo.mk "http://img/2" "/images/L1_2.jpg" "Property image 3"] ≠ []
   ∧ forallb (waits 0) [] = true
   ∧ sups (run [] (step (LWorker 0 0 second_image_fails) (run first_batch_started init)))
       !! 0%nat
     = Some (sup_at 0 (step (LWorker 0 0 second_image_fails)
                         (run first_batch_started init)))
   ∧ pc (sup_at 0 (step (LWorker 0 0 second_image_fails) (run first_batch_started init)))
     = PWorkers 0 1 []
         [Some ("failed to download images for property L1: "
                +:+ "some images failed to download: image download returned status 404")])
  ∧ ∃ msg w' rest s3,
      step (LWorker 0 0 second_image_fails) (run first_batch_started init)
      = mkConfig w'
          (<[0%nat := set_pc (PWorkers 0 1 (delete 0%nat [0%nat]) ([] ++ [Some msg]))
                        (sup_at 0 (run first_batch_started init))]>
             (sups (run first_batch_started init)))
          (queries (run first_batch_started init))
      ∧ creates (effects w') = creates (effects (world (run first_batch_started init)))
      ∧ [Some ("failed to download images for property L1: "
               +:+ "some images failed to download: image download returned status 404")]
        = [] ++ [Some msg] ++ rest
      ∧ sups (step (LSup 0 no_io)
                (run [] (step (LWorker 0 0 second_image_fails)
                           (run first_batch_started init)))) !! 0%nat = Some s3
      ∧ pc s3 = PSelect (PLoop (0 + batchSize)) (PLoop (0 + batchSize))
      ∧ failed (status s3)
        = failed (status (sup_at 0 (run first_batch_started init)))
          + failures [] + 1 + failures rest
      ∧ processed (status s3)
        = processed (status (sup_at 0 (run first_batch_started init)))
          + successes [] + successes rest.
Proof.
  assert (crashed (run [] (step (LWorker 0 0 second_image_fails)
                             (run first_batch_started init))) = false)
    as H0 by (vm_compute; reflexivity).
  assert (sups (run first_batch_started init) !! 0%nat
          = Some (sup_at 0 (run first_batch_started init)))
    as H1 by (vm_compute; reflexivity).
  assert (pc (sup_at 0 (run first_batch_started init)) = PWorkers 0 1 [0%nat] [])
    as H2 by (vm_compute; reflexivity).
  assert (properties (sup_at 0 (run first_batch_started init)) !! 0%nat
          = Some (listing "L1" ["http://img/0"; "http://img/1"; "http://img/2"]))
    as H3 by (vm_compute; reflexivity).
  assert (downloadImages (ctx (sup_at 0 (run first_batch_started init)))
            (SimplyRETSProperty.Photos
               (listing "L1" ["http://img/0"; "http://img/1"; "http://img/2"]))
            (SimplyRETSProperty.ListingID
               (listing "L1" ["http://img/0"; "http://img/1"; "http://img/2"]))
            (images second_image_fails) (arrival second_image_fails)
            (world (run first_batch_started init))
          = Ok ([Photo.mk "http://img/0" "/images/L1_0.jpg" "Property image 1";
                 Photo.mk "http://img/2" "/images/L1_2.jpg" "Property image 3"],
                Some "some images failed to download: image download returned status 404")
               (add_effects [EGet "http://img/0"; EFile "L1_0.jpg"; EGet "http://img/1";
                             EGet "http://img/2"; EFile "L1_2.jpg"]
                  (world (run first_batch_started init))))
    as H4 by (vm_compute; reflexivity).
  assert ([Photo.mk "http://img/0" "/images/L1_0.jpg" "Property image 1";
           Photo.mk "http://img/2" "/images/L1_2.jpg" "Property image 3"] ≠ [])
    as H5 by discriminate.
  assert (sups (run [] (step (LWorker 0 0 second_image_fails)
                          (run first_batch_started init))) !! 0%nat
          = Some (sup_at 0 (step (LWorker 0 0 second_image_fails)
                              (run first_batch_started init))))
    as H6 by (vm_compute; reflexivity).
  assert (pc (sup_at 0 (step (LWorker 0 0 second_image_fails)
                          (run first_batch_started init)))
          = PWorkers 0 1 []
              [Some ("failed to download images for property L1: "
                     +:+ "some images failed to download: image download returned status 404")])
    as H7 by (vm_compute; reflexivity).
  split; [exact (conj H0 (conj H1 (conj H2 (conj eq_refl (conj H3 (conj H4 (conj H5
                  (conj eq_refl (conj H6 H7)))))))))|].
  exact (partial_media_failure_drops_listing first_batch_started [] 0 0
           second_image_fails no_io _ _ 0 1 [0%nat] [] _ 0 _ _ _ _
           H0 H1 H2 eq_refl H3 H4 H5 eq_refl H6 H7).
Defined.

(** * Further properties of the code *)

(** ** The registry and the calls of the service *)

(** X1. In every run of the system, a job in the registry has a status
    channel that is open and that no other registered job uses, and, once
    it is marked completed at time [t], a cleanup goroutine that sleeps
    until [t + JobRetentionDuration]. *)
Theorem registered_job_has_open_channel_of_its_own
    (trace : list Label) (id : string) (job : ProcessingJob.t) :
  jobs (world (run trace init)) !! id = Some job →
  (∃ c, chans (world (run trace init)) !! ProcessingJob.Status job = Some c
        ∧ Chan.closed c = false)
  ∧ (∀ id' job', jobs (world (run trace init)) !! id' = Some job' →
       ProcessingJob.Status job' = ProcessingJob.Status job → id' = id)
  ∧ (∀ t, ProcessingJob.CompletedAt job = Some t →
       (id, t + JobRetentionDuration) ∈ timers (world (run trace init))).
Proof.
  intros Hj. destruct (reachable_wf trace) as (A & B & _ & D). split_and!.
  - by eapply A.
  - intros id' job' Hj' Heq. by eapply B.
  - intros t Ht. by eapply D.
Qed.

Lemma registered_job_has_open_channel_of_its_own_witness :
  jobs (world (run empty_run init)) !! "job" = Some completed_job
  ∧ ("job", 0 + JobRetentionDuration) ∈ timers (world (run empty_run init)).
Proof.
  assert (jobs (world (run empty_run init)) !! "job" = Some completed_job) as H1
    by (vm_compute; reflexivity).
  split; [exact H1|].
  exact (proj2 (proj2 (registered_job_has_open_channel_of_its_own
                         empty_run "job" completed_job H1)) 0 eq_refl).
Defined.

Lemma RemoveJob_registered (id : string) (job : ProcessingJob.t) (w : World) :
  wf w → jobs w !! id = Some job →
  ∃ c, chans w !! ProcessingJob.Status job = Some c
    ∧ RemoveJob id w
      = Ok tt (set_jobs (delete id)
                 (detach id
                    (set_chans (insert (ProcessingJob.Status job) (Chan.set_closed c))
                       w))).
Proof.
  intros (A & _) Hj. destruct (A _ _ Hj) as (c & Hc & Hopen). exists c.
  split; [done|].
  unfold RemoveJob, GetJob, bind, gets, ret, modify, close. by rewrite Hj, Hc, Hopen.
Qed.

Lemma CancelJob_registered (id : string) (job : ProcessingJob.t) (w : World) :
  wf w → jobs w !! id = Some job →
  ∃ c, chans w !! ProcessingJob.Status job = Some c
    ∧ Chan.closed c = false
    ∧ CancelJob id w
      = Ok true
          (set_jobs (delete id)
             (detach id
                (set_chans (insert (ProcessingJob.Status job) (Chan.set_closed c))
                   (set_cancelled (λ s, {[ProcessingJob.Cancel job]} ∪ s) w)))).
Proof.
  intros (A & _) Hj. destruct (A _ _ Hj) as (c & Hc & Hopen). exists c.
  split_and!; [done..|].
  unfold CancelJob, GetJob, bind, gets, ret, cancel, modify. rewrite Hj.
  unfold RemoveJob, GetJob, bind, gets, ret, modify, close. simpl.
  rewrite Hj. simpl. by rewrite Hc, Hopen.
Qed.

Lemma GetJobStatus_registered_ok (id : string) (job : ProcessingJob.t) (w : World) :
  wf w → jobs w !! id = Some job →
  ∃ st w', GetJobStatus id w = Ok (Some st, true) w'.
Proof.
  intros (A & _) Hj. destruct (A _ _ Hj) as (c & Hc & Hopen).
  unfold GetJobStatus, GetJob, bind, gets, ret, modify. rewrite Hj.
  destruct (ProcessingJob.LastStatus job); [by eauto|].
  unfold try_recv. rewrite Hc. destruct (Chan.buf c) as [|v rest].
  - rewrite Hopen. eauto.
  - unfold try_send. simpl. rewrite lookup_insert_eq. simpl. rewrite Hopen.
    destruct (Chan.has_room _); eauto.
Qed.

(** X2. In every run of the system, no call of [RemoveJob], [CleanupJob],
    [MarkJobCompleted] or [CancelJob] panics, whatever the id: a channel
    of the registry is closed once at most. A status query that runs
    without interruption does not panic either. A status query that runs
    in parts between the steps of the others can panic in its last part
    only, the send that puts the snapshot back, and only on a closed
    channel: the job has left the registry since the query looked it
    up. *)
Theorem registry_calls_do_not_panic
    (trace : list Label) (id : string) (st : ProcessingStatus.t) :
  (∃ w', RemoveJob id (world (run trace init)) = Ok tt w')
  ∧ (∃ w', CleanupJob id (world (run trace init)) = Ok tt w')
  ∧ (∃ w', MarkJobCompleted id st (world (run trace init)) = Ok tt w')
  ∧ (∃ b w', CancelJob id (world (run trace init)) = Ok b w')
  ∧ (∃ r w', GetJobStatus id (world (run trace init)) = Ok r w')
  ∧ (∀ k q msg, queries (run trace init) !! k = Some q →
       Query.pc (GetJobStatus_step q (world (run trace init))).1 = QPanic msg →
       Query.pc q = QPanic msg
       ∨ ((∃ status, Query.pc q = QStored status)
          ∧ msg = "send on closed channel"
          ∧ chan_closed (Query.job q) (world (run trace init)) = true
          ∧ ∀ id' job, jobs (world (run trace init)) !! id' = Some job →
                       ProcessingJob.Status job ≠ Query.job q)).
Proof.
  pose proof (reachable_wf trace) as Hwf.
  set (w := world (run trace init)) in *.
  assert (∀ k q msg, queries (run trace init) !! k = Some q →
            Query.pc (GetJobStatus_step q w).1 = QPanic msg →
            Query.pc q = QPanic msg
            ∨ ((∃ status, Query.pc q = QStored status)
               ∧ msg = "send on closed channel"
               ∧ chan_closed (Query.job q) w = true
               ∧ ∀ id' job, jobs w !! id' = Some job →
                            ProcessingJob.Status job ≠ Query.job q)) as Hparts.
  { intros k q msg _. unfold GetJobStatus_step.
    destruct (Query.pc q) as [|v|v|a|msg'] eqn:Hpc; simpl.
    - destruct (_ ≫= _); [done|]. unfold try_recv. by repeat case_match.
    - done.
    - unfold try_send, chan_closed.
      destruct (chans w !! Query.job q) as [ch|] eqn:Hch; [|done].
      destruct (Chan.closed ch) eqn:Hcl; [|by destruct (Chan.has_room ch)].
      simpl. intros [= <-]. right. split_and!; [by eauto|done..|].
      intros id' job Hj Heq. destruct Hwf as (A & _).
      destruct (A _ _ Hj) as (ch' & Hch' & Hopen). congruence.
    - by rewrite Hpc.
    - rewrite Hpc. by left. }
  destruct (jobs w !! id) as [job|] eqn:Hj.
  - destruct (RemoveJob_registered id job w Hwf Hj) as (c & Hc & Hrm).
    pose proof Hwf as (A & _). destruct (A _ _ Hj) as (c' & Hc' & Hopen).
    assert (c' = c) as -> by congruence.
    split_and!.
    + eauto.
    + unfold CleanupJob, GetJob, time_Since, bind, gets, ret, modify, close.
      rewrite Hj. destruct (ProcessingJob.CompletedAt job); [|by eauto].
      destruct (_ && _); [|by eauto]. simpl. rewrite Hc, Hopen. eauto.
    + unfold MarkJobCompleted, GetJob, bind, gets, ret, modify. rewrite Hj. eauto.
    + destruct (CancelJob_registered id job w Hwf Hj) as (? & _ & _ & ->). eauto.
    + destruct (GetJobStatus_registered_ok id job w Hwf Hj) as (s & w' & H). eauto.
    + exact Hparts.
  - split_and!.
    + unfold RemoveJob, GetJob, bind, gets, ret. rewrite Hj. eauto.
    + unfold CleanupJob, GetJob, bind, gets, ret. rewrite Hj. eauto.
    + unfold MarkJobCompleted, GetJob, bind, gets, ret. rewrite Hj. eauto.
    + unfold CancelJob, GetJob, bind, gets, ret. rewrite Hj. eauto.
    + rewrite (GetJobStatus_not_found _ _ Hj). eauto.
    + exact Hparts.
Qed.

(** X3. In every run of the system, a cancel request for an id that is not
    registered answers [false] and changes nothing; for a registered job
    it answers [true], removes the job and nothing else from the registry,
    cancels the job's context and closes its channel with the snapshots
    still in its buffer (a snapshot that a blocked sender is waiting to
    hand over is not in it); a second cancel request for the id answers
    [false]. *)
Theorem CancelJob_removes_and_cancels (trace : list Label) (id : string) :
  match jobs (reached trace) !! id with
  | None => CancelJob id (reached trace) = Ok false (reached trace)
  | Some job =>
      ∃ w', CancelJob id (reached trace) = Ok true w'
        ∧ jobs w' = delete id (jobs (reached trace))
        ∧ is_cancelled (ProcessingJob.Cancel job) w' = true
        ∧ (∃ c, chans (reached trace) !! ProcessingJob.Status job = Some c
                ∧ chans w' !! ProcessingJob.Status job
                  = Some (Chan.mk (take (Chan.cap c) (Chan.buf c)) (Chan.cap c) true))
        ∧ CancelJob id w' = Ok false w'
  end.
Proof.
  pose proof (reachable_wf trace) as Hwf. fold (reached trace) in Hwf.
  destruct (jobs (reached trace) !! id) as [job|] eqn:Hj.
  - destruct (CancelJob_registered id job _ Hwf Hj) as (c & Hc & Hopen & ->).
    eexists. split_and!; [done|done| | |].
    + unfold is_cancelled. simpl. apply bool_decide_eq_true_2. set_solver.
    + exists c. split; [done|]. simpl. by rewrite lookup_insert_eq.
    + unfold CancelJob, GetJob, bind, gets, ret. simpl.
      by rewrite lookup_delete_eq.
  - unfold CancelJob, GetJob, bind, gets, ret. by rewrite Hj.
Qed.

Lemma cancel_refs_inv (r : nat) (w : World) :
  refs_inv w → (r < next_ref w)%nat →
  refs_inv (set_cancelled (λ s, {[r]} ∪ s) w).
Proof.
  intros [A B] Hr. split; simpl; [done|].
  intros r' [->%elem_of_singleton|H]%elem_of_union; [done|by apply B].
Qed.

Lemma refs_inv_frame (w w' : World) :
  (∀ id job, jobs w' !! id = Some job →
     ∃ job', jobs w !! id = Some job'
             ∧ ProcessingJob.Cancel job' = ProcessingJob.Cancel job) →
  cancelled w' = cancelled w → next_ref w' = next_ref w →
  refs_inv w → refs_inv w'.
Proof.
  intros Hj Hc Hn [A B]. split; rewrite Hn.
  - intros id job H. destruct (Hj _ _ H) as (job' & H' & <-). by eapply A.
  - rewrite Hc. apply B.
Qed.

Lemma same_shape_refs_inv (w w' : World) :
  same_shape w w' → cancelled w' = cancelled w → refs_inv w → refs_inv w'.
Proof.
  intros Hs Hc. pose proof Hs as (Hj & _ & Hn & _).
  apply refs_inv_frame; [|done..].
  intros id job H. specialize (Hj id). rewrite H in Hj.
  destruct (jobs w !! id) as [job'|]; [|done]. exists job'. split; [done|].
  injection Hj as Hj. destruct job, job'.
  unfold ProcessingJob.set_LastStatus in Hj. simpl in *. by simplify_eq.
Qed.

Lemma try_send_cancelled ch v w :
  cancelled (final_world (try_send ch v w)) = cancelled w.
Proof. unfold try_send. by repeat case_match. Qed.

Lemma try_recv_cancelled ch w :
  cancelled (final_world (try_recv ch w)) = cancelled w.
Proof. unfold try_recv. by repeat case_match. Qed.

Lemma GetJobStatus_cancelled id w :
  cancelled (final_world (GetJobStatus id w)) = cancelled w.
Proof.
  unfold GetJobStatus, GetJob, bind, gets, ret, modify.
  destruct (jobs w !! id) as [job|]; [|done].
  destruct (ProcessingJob.LastStatus job); [done|].
  pose proof (try_recv_cancelled (ProcessingJob.Status job) w) as Hr.
  destruct (try_recv _ w) as [[status|] w1|msg w1]; simpl in *; try done.
  match goal with
  | |- context [try_send ?ch ?v ?w0] =>
      pose proof (try_send_cancelled ch v w0) as Hs; destruct (try_send ch v w0)
  end; simpl in *; congruence.
Qed.

Lemma close_delete_refs_inv (id : string) (ch : nat) (w : World) :
  refs_inv w →
  ∀ r, close ch w = r → refs_inv (set_jobs (delete id) (final_world r)).
Proof.
  intros [A B] r <-. unfold close. repeat case_match; simpl;
    (split; simpl; [|done]);
    intros id' job [_ Hin]%lookup_delete_Some; by eapply A.
Qed.

Lemma RemoveJob_refs_inv id w : refs_inv w → refs_inv (final_world (RemoveJob id w)).
Proof.
  intros Hr. unfold RemoveJob, GetJob, bind, gets, ret, modify.
  destruct (jobs w !! id) as [job|]; [|done].
  pose proof (close_delete_refs_inv id (ProcessingJob.Status job) w Hr _ eq_refl) as H.
  destruct (close _ w) as [[] w1|msg w1] eqn:Hc; simpl in *; [done|].
  unfold close in Hc. repeat case_match; by simplify_eq.
Qed.

Lemma CleanupJob_refs_inv id w : refs_inv w → refs_inv (final_world (CleanupJob id w)).
Proof.
  intros Hr. unfold CleanupJob, GetJob, time_Since, bind, gets, ret, modify.
  destruct (jobs w !! id) as [job|]; [|done].
  destruct (ProcessingJob.CompletedAt job); [|done].
  destruct (_ && _); [|done].
  pose proof (close_delete_refs_inv id (ProcessingJob.Status job) w Hr _ eq_refl) as H.
  destruct (close _ w) as [[] w1|msg w1] eqn:Hc; simpl in *; [done|].
  unfold close in Hc. repeat case_match; by simplify_eq.
Qed.

Lemma MarkJobCompleted_refs_inv id st w :
  refs_inv w → refs_inv (final_world (MarkJobCompleted id st w)).
Proof.
  intros [A B]. unfold MarkJobCompleted, GetJob, bind, gets, ret, modify.
  destruct (jobs w !! id) as [job|] eqn:Hj; [|done]. split; simpl; [|done].
  intros id' job' [[<- <-]|[_ H]]%lookup_insert_Some; simpl; by eapply A.
Qed.

Lemma park_cancelled s w : cancelled (park s w).2 = cancelled w.
Proof. unfold park. by destruct (chans w !! statusChan s). Qed.

Lemma send_status_cancelled next s w : cancelled (send_status next s w).2 = cancelled w.
Proof.
  unfold send_status. destruct (parked s).
  - destruct (was_released s w); [done|]. by destruct (chan_closed _ _).
  - pose proof (try_send_cancelled (statusChan s) (status s) w) as H.
    destruct (try_send _ _ _) as [[] w'|]; simpl in *; try done.
    by rewrite park_cancelled.
Qed.

Lemma processProperties_refs_inv x s w :
  refs_inv w → refs_inv (processProperties x s w).2.
Proof.
  intros Hr. unfold processProperties, processBatch.
  assert (∀ w', same_shape w w' → cancelled w' = cancelled w → refs_inv w') as Hshape
    by (intros w' H1 H2; by eapply same_shape_refs_inv).
  assert (∀ next, refs_inv (send_status next s w).2) as Hsend.
  { intros next. apply Hshape; [apply send_status_shape_world|].
    apply send_status_cancelled. }
  destruct (pc s); try done.
  - repeat case_match;
      first [ exact Hr | apply Hsend
            | apply Hshape; [apply resume_shape|done]
            | apply Hshape; [apply withdraw_shape|done]
            | apply Hshape; [apply park_shape|apply park_cancelled] ].
  - destruct (fetchProperties_len (ctx s) (limit s) (listings x) w)
      as (props & err & -> & _). by destruct err.
  - simpl. by apply MarkJobCompleted_refs_inv.
  - by repeat case_match.
  - by case_match.
Qed.

Lemma processBatch_worker_refs_inv j x s w :
  refs_inv w → refs_inv (processBatch_worker j x s w).2.
Proof.
  intros Hr. unfold processBatch_worker.
  destruct (pc s); try done.
  destruct (_ !! j); [|done].
  destruct (_ !! _) as [property|]; [|done].
  destruct (worker_effects (ctx s) property x w) as (r & evs & ->). done.
Qed.

Lemma step_refs_inv (l : Label) (c : Config) :
  refs_inv (world c) → refs_inv (world (step l c)).
Proof.
  intros Hr. pose proof Hr as [A B]. alive.
  destruct l as [id lim|id|id|id|id|k|d|n x|n j x|id|k]; unfold serve.
  - simpl. split; simpl.
    + intros id' job [[<- <-]|[_ H]]%lookup_insert_Some; simpl; [lia|].
      assert (ProcessingJob.Cancel job < next_ref (world c))%nat by (by eapply A). lia.
    + intros r H. assert (r < next_ref (world c))%nat by (by apply B). lia.
  - simpl. eapply same_shape_refs_inv;
      [apply GetJobStatus_shape|apply GetJobStatus_cancelled|done].
  - simpl. unfold handler, CancelJob, GetJob, bind, gets, ret, cancel, modify.
    destruct (jobs (world c) !! id) as [job|] eqn:Hj; [|done].
    match goal with
    | |- context [RemoveJob id ?w0] =>
        assert (refs_inv w0) as Hr0 by (apply cancel_refs_inv; [done|by eapply A]);
        pose proof (RemoveJob_refs_inv id w0 Hr0) as H; destruct (RemoveJob id w0)
    end; done.
  - destruct (jobs (world c) !! id) as [job|] eqn:Hj; [|done]. simpl.
    apply cancel_refs_inv; [done|by eapply A].
  - simpl. by apply RemoveJob_refs_inv.
  - destruct (timers (world c) !! k) as [[id due]|]; [|done].
    case_bool_decide; [|done]. simpl. by apply CleanupJob_refs_inv.
  - done.
  - unfold with_sup. destruct (sups c !! n) as [s|]; [|done].
    pose proof (processProperties_refs_inv x s (world c) Hr).
    by destruct (processProperties x s (world c)).
  - unfold with_sup. destruct (sups c !! n) as [s|]; [|done].
    pose proof (processBatch_worker_refs_inv j x s (world c) Hr).
    by destruct (processBatch_worker j x s (world c)).
  - done.
  - destruct (queries c !! k) as [q|]; [|done].
    pose proof (GetJobStatus_step_shape q (world c)) as Hs.
    assert (cancelled (GetJobStatus_step q (world c)).2 = cancelled (world c)) as Hc.
    { unfold GetJobStatus_step, write_LastStatus, try_recv, try_send.
      repeat case_match; simplify_eq; done. }
    destruct (GetJobStatus_step q (world c)). simpl in *.
    by eapply same_shape_refs_inv.
Qed.

Lemma reachable_refs_inv (trace : list Label) : refs_inv (reached trace).
Proof.
  unfold reached. induction trace as [|l trace IH] using rev_ind.
  - split; simpl; [done|]. intros r H. set_solver.
  - rewrite run_snoc. by apply step_refs_inv.
Qed.

(** X4. In every run of the system, a start request registers the job
    under its id with the start time, a context that is not cancelled and
    a new, open, empty channel of capacity 100; it touches no other entry
    of the registry and no other channel, so that a job it replaces keeps
    its channel open; and a status query made right after it answers with
    a running snapshot that carries the start time and zero counters. *)
Theorem StartPropertyProcessing_registers_running_job
    (trace : list Label) (id : string) (lim : Z) :
  ∃ s w',
    StartPropertyProcessing id lim (reached trace) = Ok s w'
    ∧ jobID s = id ∧ pc s = PStart
    ∧ jobs w' !! id
      = Some (ProcessingJob.mk id (statusChan s) (ctx s) (now (reached trace)) None None)
    ∧ is_cancelled (ctx s) w' = false
    ∧ chans (reached trace) !! statusChan s = None
    ∧ chans w' !! statusChan s = Some (Chan.make 100)
    ∧ (∀ id', id' ≠ id → jobs w' !! id' = jobs (reached trace) !! id')
    ∧ (∀ r, r ≠ statusChan s → chans w' !! r = chans (reached trace) !! r)
    ∧ GetJobStatus id w'
      = Ok (Some (ProcessingStatus.mk 0 "running" 0 0 0 (now (reached trace)) None ""),
            true) w'.
Proof.
  pose proof (reachable_wf trace) as (_ & _ & C & _). fold (reached trace) in C.
  pose proof (reachable_refs_inv trace) as [_ B].
  set (w := reached trace) in *.
  assert (chans w !! S (next_ref w) = None) as Hfresh.
  { destruct (chans w !! S (next_ref w)) eqn:H; [|done].
    assert (S (next_ref w) < next_ref w)%nat by (apply C; eauto). lia. }
  unfold StartPropertyProcessing, AddJob, bind, gets, ret, modify. simpl.
  eexists _, _. split; [done|]. simpl. split_and!; try done.
  - by rewrite lookup_insert_eq.
  - unfold is_cancelled. simpl. apply bool_decide_eq_false_2.
    intros H. apply B in H. lia.
  - by rewrite lookup_insert_eq.
  - intros id' Hne. by rewrite lookup_insert_ne.
  - intros r Hne. by rewrite lookup_insert_ne.
  - unfold GetJobStatus, GetJob, bind, gets, ret, try_recv. simpl.
    rewrite lookup_insert_eq. simpl. by rewrite lookup_insert_eq.
Qed.

(** X5. In every run of the system, a start request for an id that is not
    registered followed by a cancel request for it leaves the registry as
    it was. *)
Theorem start_then_cancel_restores_registry
    (trace : list Label) (id : string) (lim : Z) :
  jobs (reached trace) !! id = None →
  jobs (reached (trace ++ [LStart id lim; LCancelJob id])) = jobs (reached trace).
Proof.
  intros Hj. unfold reached.
  rewrite run_app. change (run [LStart id lim; LCancelJob id] (run trace init))
    with (step (LCancelJob id) (step (LStart id lim) (run trace init))).
  pose proof (step_wf (LStart id lim) _ (reachable_wf trace)) as Hwf.
  destruct (crashed (run trace init)) eqn:Halive.
  { unfold step. by rewrite !Halive. }
  set (c1 := step (LStart id lim) (run trace init)) in *.
  assert (c1 = serve (LStart id lim) (run trace init)) as Hc1
    by (unfold c1, step; by rewrite Halive).
  assert (jobs (world c1) = <[id := ProcessingJob.mk id (S (next_ref (reached trace)))
                                      (next_ref (reached trace)) (now (reached trace))
                                      None None]> (jobs (reached trace))) as Hj1
    by (by rewrite Hc1).
  assert (jobs (world c1) !! id = Some (ProcessingJob.mk id (S (next_ref (reached trace)))
                                      (next_ref (reached trace)) (now (reached trace))
                                      None None)) as Hid
    by (rewrite Hj1; apply lookup_insert_eq).
  assert (crashed c1 = false) as Halive1.
  { rewrite Hc1. unfold crashed in *. simpl. rewrite existsb_app, Halive. done. }
  destruct (CancelJob_registered id _ _ Hwf Hid) as (c & _ & _ & Hcancel).
  unfold step. rewrite Halive1. unfold serve, handler. rewrite Hcancel.
  change (delete id (jobs (world c1)) = jobs (reached trace)). rewrite Hj1.
  rewrite delete_insert_eq. by apply delete_id.
Qed.

Lemma start_then_cancel_restores_registry_witness :
  jobs (reached empty_run) !! "other" = None
  ∧ jobs (reached (empty_run ++ [LStart "other" 10; LCancelJob "other"]))
    = jobs (reached empty_run).
Proof.
  assert (jobs (reached empty_run) !! "other" = None) as H1
    by (vm_compute; reflexivity).
  split; [exact H1|].
  exact (start_then_cancel_restores_registry empty_run "other" 10 H1).
Defined.

(** X6. In every run of the system, [CleanupJob] removes the job exactly
    when it is registered and was marked completed at least
    [JobRetentionDuration] ago, and otherwise changes nothing; it leaves
    the other jobs alone; and a second call changes nothing. *)
Theorem CleanupJob_waits_for_retention (trace : list Label) (id : string) :
  ∃ w', CleanupJob id (reached trace) = Ok tt w'
    ∧ ((∃ job t, jobs (reached trace) !! id = Some job
                 ∧ ProcessingJob.CompletedAt job = Some t
                 ∧ JobRetentionDuration ≤ now (reached trace) - t)
       → jobs w' !! id = None)
    ∧ (¬ (∃ job t, jobs (reached trace) !! id = Some job
                   ∧ ProcessingJob.CompletedAt job = Some t
                   ∧ JobRetentionDuration ≤ now (reached trace) - t)
       → w' = reached trace)
    ∧ (∀ id', id' ≠ id → jobs w' !! id' = jobs (reached trace) !! id')
    ∧ CleanupJob id w' = Ok tt w'.
Proof.
  pose proof (reachable_wf trace) as Hwf. fold (reached trace) in Hwf.
  set (w := reached trace) in *.
  unfold CleanupJob at 1. unfold GetJob, time_Since, bind, gets, ret, modify.
  destruct (jobs w !! id) as [job|] eqn:Hj.
  - destruct (ProcessingJob.CompletedAt job) as [t|] eqn:Ht.
    + simpl. case_bool_decide as Hold; simpl.
      * pose proof Hwf as (A & _). destruct (A _ _ Hj) as (c & Hc & Hopen).
        unfold close. rewrite Hc, Hopen. eexists. split; [done|]. simpl.
        split_and!.
        -- intros _. apply lookup_delete_eq.
        -- intros Hn. destruct Hn. eauto.
        -- intros id' Hne. by rewrite lookup_delete_ne.
        -- unfold CleanupJob, GetJob, bind, gets, ret. simpl.
           by rewrite lookup_delete_eq.
      * eexists. split; [done|]. split_and!.
        -- intros (job' & t' & Hj' & Ht' & Hold'). simplify_eq. lia.
        -- done.
        -- done.
        -- unfold CleanupJob, GetJob, time_Since, bind, gets, ret.
           rewrite Hj, Ht. simpl. by rewrite bool_decide_eq_false_2.
    + eexists. split; [done|]. split_and!.
      * intros (job' & t' & Hj' & Ht' & _). simplify_eq.
      * done.
      * done.
      * unfold CleanupJob, GetJob, bind, gets, ret. by rewrite Hj, Ht.
  - eexists. split; [done|]. split_and!.
    + intros (job' & t' & Hj' & _). simplify_eq.
    + done.
    + done.
    + unfold CleanupJob, GetJob, bind, gets, ret. by rewrite Hj.
Qed.

(** X7. [MarkJobCompleted] for an id that is not registered changes
    nothing. For a registered job it stores the final snapshot and the
    current time on the job, so that a status query made right after it
    answers with that snapshot, and one more cleanup goroutine is set to
    sleep for [JobRetentionDuration]; the channels and the other jobs are
    left as they are. (A status query that was between its receive and
    its write during the call overwrites the snapshot afterwards.) *)
Theorem MarkJobCompleted_caches_final_snapshot
    (id : string) (final : ProcessingStatus.t) (w : World) :
  match jobs w !! id with
  | None => MarkJobCompleted id final w = Ok tt w
  | Some job =>
      ∃ w', MarkJobCompleted id final w = Ok tt w'
        ∧ jobs w' !! id
          = Some (ProcessingJob.mk (ProcessingJob.ID job) (ProcessingJob.Status job)
                    (ProcessingJob.Cancel job) (ProcessingJob.StartTime job)
                    (Some final) (Some (now w)))
        ∧ GetJobStatus id w' = Ok (Some final, true) w'
        ∧ timers w' = timers w ++ [(id, now w + JobRetentionDuration)]
        ∧ chans w' = chans w
        ∧ (∀ id', id' ≠ id → jobs w' !! id' = jobs w !! id')
  end.
Proof.
  unfold MarkJobCompleted, GetJob, bind, gets, ret, modify.
  destruct (jobs w !! id) as [job|] eqn:Hj; [|done].
  eexists. split; [done|]. simpl. split_and!; try done.
  - by rewrite lookup_insert_eq.
  - eapply GetJobStatus_cached; [apply lookup_insert_eq|done].
  - intros id' Hne. by rewrite lookup_insert_ne.
Qed.

(** X8. A status query that is repeated at once gives the same answer and
    changes nothing more: a snapshot taken from the channel by the first
    query is the one the second returns. *)
Theorem GetJobStatus_repeats_its_answer
    (id : string) (w w1 : World) (r : option ProcessingStatus.t * bool) :
  GetJobStatus id w = Ok r w1 → GetJobStatus id w1 = Ok r w1.
Proof.
  unfold GetJobStatus at 1. unfold GetJob, bind, gets, ret, modify.
  destruct (jobs w !! id) as [job|] eqn:Hj.
  - destruct (ProcessingJob.LastStatus job) as [last|] eqn:Hlast.
    + intros [= <- <-]. by eapply GetJobStatus_cached.
    + unfold try_recv.
      destruct (chans w !! ProcessingJob.Status job) as [c|] eqn:Hc.
      * destruct (Chan.buf c) as [|v rest] eqn:Hbuf.
        -- destruct (Chan.closed c) eqn:Hcl.
           ++ unfold try_send. simpl. rewrite Hc, Hcl. done.
           ++ intros [= <- <-].
              unfold GetJobStatus, GetJob, bind, gets, ret, try_recv.
              by rewrite Hj, Hlast, Hc, Hbuf, Hcl.
        -- match goal with
           | |- context [try_send ?ch ?v0 ?w0] =>
               pose proof (try_send_frames id 0%nat ch v0 w0) as (_ & Hjobs & _);
               destruct (try_send ch v0 w0) as [b w2|msg w2]
           end; [|done].
           intros [= <- <-]. simpl in Hjobs.
           eapply GetJobStatus_cached.
           ++ rewrite Hjobs, lookup_alter_eq, Hj. done.
           ++ done.
      * intros [= <- <-].
        unfold GetJobStatus, GetJob, bind, gets, ret, try_recv.
        by rewrite Hj, Hlast, Hc.
  - intros [= <- <-]. by apply GetJobStatus_not_found.
Qed.

Lemma GetJobStatus_repeats_its_answer_witness :
  GetJobStatus "job" (reached first_batch_started)
  = Ok (Some (ProcessingStatus.mk 0 "running" 0 0 0 0 None ""), true)
       (final_world (GetJobStatus "job" (reached first_batch_started)))
  ∧ GetJobStatus "job" (final_world (GetJobStatus "job" (reached first_batch_started)))
    = Ok (Some (ProcessingStatus.mk 0 "running" 0 0 0 0 None ""), true)
         (final_world (GetJobStatus "job" (reached first_batch_started))).
Proof.
  assert (GetJobStatus "job" (reached first_batch_started)
          = Ok (Some (ProcessingStatus.mk 0 "running" 0 0 0 0 None ""), true)
               (final_world (GetJobStatus "job" (reached first_batch_started))))
    as H1 by (vm_compute; reflexivity).
  split; [exact H1|].
  exact (GetJobStatus_repeats_its_answer "job" _ _ _ H1).
Defined.

Lemma run_cons (l : Label) (trace : list Label) (c : Config) :
  run (l :: trace) c = run trace (step l c).
Proof. done. Qed.

Lemma progress_label_quiet (id : string) (c : Config) (l : Label) :
  progress_label c l = true → quiet id c l = true.
Proof.
  destruct l; simpl; try done.
  destruct (sups c !! n) as [s|]; [|done].
  destruct (pc s); try done; intros _; by rewrite andb_false_r.
Qed.

Lemma progress_kept (id : string) (job : ProcessingJob.t) (last : ProcessingStatus.t)
    (N : nat) (trace : list Label) : ∀ c,
  ProcessingJob.LastStatus job = Some last →
  progress_only c trace = true →
  kept id job last N c → jobs (world c) !! id = Some job →
  kept id job last N (run trace c) ∧ jobs (world (run trace c)) !! id = Some job.
Proof.
  induction trace as [|l trace IH]; intros c Hlast Hp Hk Hj; [done|].
  simpl in Hp. apply andb_true_iff in Hp as [Hl Hp]. rewrite run_cons.
  destruct (step_kept id job last N l c Hlast (progress_label_quiet id c l Hl) Hk)
    as (K1 & _ & K3).
  apply IH; [done..|].
  destruct (K3 Hj) as [H|(k & t & -> & _)]; done.
Qed.

(** X9. Once a snapshot is cached on a registered job (by an earlier
    status query), and no status query in flight has taken a snapshot
    from the job's channel that it has yet to store, every later status
    query answers with the cached snapshot, whether it runs in one go or
    in parts between the steps of the others, whatever the supervisors
    and the workers do and publish in between, until a supervisor calls
    [MarkJobCompleted] (or the job is removed, replaced or cleaned up):
    progress published after the first query is not seen. *)
Theorem cached_snapshot_hides_later_progress
    (before trace : list Label) (id : string)
    (job : ProcessingJob.t) (last : ProcessingStatus.t) :
  jobs (world (run before init)) !! id = Some job →
  ProcessingJob.LastStatus job = Some last →
  no_stale (ProcessingJob.Status job) (queries (run before init)) = true →
  progress_only (run before init) trace = true →
  crashed (run trace (run before init)) = false →
  GetJobStatus id (world (run trace (run before init)))
  = Ok (Some last, true) (world (run trace (run before init)))
  ∧ ∀ k q, (length (queries (run before init)) ≤ k)%nat →
      queries (run trace (run before init)) !! k = Some q →
      Query.jobID q = id →
      Query.pc q = QLookedUp ∨ Query.pc q = QDone (Some last, true).
Proof.
  intros Hj Hlast Hst Hp _.
  assert (kept id job last (length (queries (run before init))) (run before init))
    as Hk0.
  { pose proof (reachable_heap_inv before) as Hheap. pose proof Hheap as (A & _).
    split_and!; [apply reachable_wf|done|by eapply A|by left|done|].
    intros k q HN Hq. apply lookup_lt_Some in Hq. lia. }
  destruct (progress_kept id job last _ trace _ Hlast Hp Hk0 Hj)
    as ((_ & _ & _ & _ & _ & Hans) & Hj').
  split; [by eapply GetJobStatus_cached|].
  intros k q HN Hq Hid. destruct (Hans k q HN Hq Hid) as [[H _]|[H|[_ H]]];
    [by left|by right|congruence].
Qed.

Lemma cached_snapshot_hides_later_progress_witness :
  (jobs (world (run first_query_done init)) !! "job"
   = Some (ProcessingJob.mk "job" 1 0 0
             (Some (ProcessingStatus.mk 0 "running" 0 0 0 0 None "")) None)
   ∧ ProcessingJob.LastStatus
       (ProcessingJob.mk "job" 1 0 0
          (Some (ProcessingStatus.mk 0 "running" 0 0 0 0 None "")) None)
     = Some (ProcessingStatus.mk 0 "running" 0 0 0 0 None "")
   ∧ no_stale 1 (queries (run first_query_done init)) = true
   ∧ progress_only (run first_query_done init) progress_and_query = true
   ∧ crashed (run progress_and_query (run first_query_done init)) = false)
  ∧ GetJobStatus "job" (world (run progress_and_query (run first_query_done init)))
    = Ok (Some (ProcessingStatus.mk 0 "running" 0 0 0 0 None ""), true)
         (world (run progress_and_query (run first_query_done init))).
Proof.
  assert (jobs (world (run first_query_done init)) !! "job"
          = Some (ProcessingJob.mk "job" 1 0 0
                    (Some (ProcessingStatus.mk 0 "running" 0 0 0 0 None "")) None))
    as H1 by (vm_compute; reflexivity).
  assert (no_stale 1 (queries (run first_query_done init)) = true)
    as H2 by (vm_compute; reflexivity).
  assert (progress_only (run first_query_done init) progress_and_query = true)
    as H3 by (vm_compute; reflexivity).
  assert (crashed (run progress_and_query (run first_query_done init)) = false)
    as H4 by (vm_compute; reflexivity).
  split; [exact (conj H1 (conj eq_refl (conj H2 (conj H3 H4))))|].
  exact (proj1 (cached_snapshot_hides_later_progress _ _ "job" _ _ H1 eq_refl H2 H3 H4)).
Defined.

(** ** Status queries between the steps of the others *)







(** X24. A status query panics when the job is removed between its parts:
    the query takes the first snapshot from the channel and stores it on
    the job, a cancel request closes the channel, and the send that puts
    the snapshot back finds the channel closed. *)
Theorem query_panics_when_job_removed_between_its_parts :
  map Query.pc (queries (run query_then_cancel init))
  = [QStored (ProcessingStatus.mk 0 "running" 0 0 0 0 None "")]
  ∧ jobs (world (run query_then_cancel init)) !! "job" = None
  ∧ map Query.pc (queries (run (query_then_cancel ++ [LQueryStep 0]) init))
    = [QPanic "send on closed channel"].
Proof. vm_compute. repeat split. Qed.

(** X25. The final snapshot of a job is lost when a status query was
    between its receive and its write at the time [MarkJobCompleted]
    stored it: the query then overwrites it with the snapshot it took
    from the channel, and the later queries answer with a running
    snapshot although the job is completed. *)
Theorem final_snapshot_overwritten_by_query_in_flight :
  ProcessingJob.LastStatus <$> jobs (world (run final_then_stale_write init)) !! "job"
  = Some (Some completed_empty)
  ∧ map Query.pc (queries (run final_then_stale_write init))
    = [QReceived (ProcessingStatus.mk 0 "running" 0 0 0 0 None "")]
  ∧ GetJobStatus "job" (world (run (final_then_stale_write ++ [LQueryStep 0]) init))
    = Ok (Some (ProcessingStatus.mk 0 "running" 0 0 0 0 None ""), true)
         (world (run (final_then_stale_write ++ [LQueryStep 0]) init))
  ∧ map (λ s, (pc s, state (status s)))
        (sups (run (final_then_stale_write ++ [LQueryStep 0]) init))
    = [(PReturn, "completed")].
Proof. vm_compute. repeat split. Qed.

(** ** The listing request and the image downloads *)

Lemma append_nonempty (s t : string) : s ≠ "" → s +:+ t ≠ "".
Proof. by destruct s. Qed.

(** X10. [fetchProperties] is all or nothing and leaves the store alone:
    it returns the decoded listings, and no error, exactly when the
    context is not cancelled and the provider answers with status 200 and
    a body that decodes; in every other case it returns no listing and an
    error whose message is not empty. *)
Theorem fetchProperties_all_or_nothing
    (ctx : nat) (limit : Z) (r : HttpResult ListingsBody) (w : World) :
  ∃ props err,
    fetchProperties ctx limit r w = Ok (props, err) w
    ∧ (err = None ↔
       is_cancelled ctx w = false
       ∧ ∃ ps, r = Response http_StatusOK (inr ps) ∧ props = elems ps)
    ∧ (∀ e, err = Some e → props = [] ∧ e ≠ "").
Proof.
  unfold fetchProperties, client_Do, bind, ret.
  destruct r as [e|e|code [e|ps]]; simpl;
    destruct (is_cancelled ctx w) eqn:Hc; try case_bool_decide;
    eexists _, _; (split; [reflexivity|]); (split; [split|]).
  all: try (intros ?; discriminate).
  all: try (intros (Hc' & ps' & Heq & Hp); first [discriminate | congruence]).
  all: try (intros e' He'; injection He' as <-; split; [done|];
            by apply append_nonempty).
  all: try done.
  intros _. split; [done|]. exists ps. by rewrite H.
Qed.

Lemma downloadImage_cases
    (ctx : nat) (imageURL propertyID : string) (index : nat)
    (r : HttpResult ImageBody) (w : World) :
  ∃ path err evs,
    downloadImage ctx imageURL propertyID index r w = Ok (path, err) (add_effects evs w)
    ∧ (err = None ↔ is_cancelled ctx w = false ∧ image_arrives r)
    ∧ (err ≠ None → path = "")
    ∧ (err = None →
       ∃ body, r = Response 200 body
         ∧ path = "/images/" +:+ image_filename propertyID index body
         ∧ evs = [EGet imageURL; EFile (image_filename propertyID index body)])
    ∧ (∀ f, EFile f ∈ evs →
       is_cancelled ctx w = false ∧ ∃ body, r = Response 200 body).
Proof.
  assert (∀ evs, is_cancelled ctx (add_effects evs w) = is_cancelled ctx w)
    as Hsame by done.
  unfold downloadImage, client_Do, bind, ret, modify, image_arrives.
  destruct r as [e|e|code body]; simpl.
  - exists "", (Some ("failed to create image request: " +:+ e)), [].
    rewrite add_effects_nil. split_and!; try done.
    + split; [done|]. by intros (_ & body & ? & _).
    + intros f Hf. by apply elem_of_nil in Hf.
  - rewrite add_effect_one, Hsame.
    destruct (is_cancelled ctx w) eqn:Hc; simpl;
      eexists _, _, _; (split; [reflexivity|]); split_and!; try done.
    all: try (split; [done|]; by intros (? & body & ? & _)).
    all: intros f Hf; apply list_elem_of_singleton in Hf; done.
  - rewrite add_effect_one, Hsame.
    destruct (is_cancelled ctx w) eqn:Hc; simpl.
    { eexists _, _, _. split; [reflexivity|]. split_and!; try done.
      - split; [done|]. by intros (? & _).
      - intros f Hf; apply list_elem_of_singleton in Hf; done. }
    case_bool_decide as Hcode.
    { eexists _, _, _. split; [reflexivity|]. split_and!; try done.
      - split; [done|]. intros (_ & body' & [= -> _] & _). done.
      - intros f Hf; apply list_elem_of_singleton in Hf; done. }
    assert (code = 200) as ->.
    { unfold http_StatusOK in *. destruct (decide (code = 200)); [done|].
      by destruct Hcode. }
    rewrite add_effect_add_effects. simpl.
    destruct (createFileErr body) eqn:Hcr; [|destruct (copyErr body) eqn:Hcp];
      eexists _, _, _; (split; [reflexivity|]); split_and!; try done.
    all: try (split; [done|]; intros (_ & body' & [= <-] & ? & ?); congruence).
    all: try (intros f Hf; split; [done|]; by exists body).
    + split; [|done]. intros _. split; [done|]. by exists body.
    + intros _. by exists body.
Qed.

(** X11. [downloadImage] returns no error exactly when the context is not
    cancelled, the answer has status 200 and the local file is created and
    written; the path it returns is then [/images/{id}_{index}{ext}], with
    the extension [.png] when the content type mentions png and [.jpg]
    otherwise, and one request and one file are its only effects. With an
    error the path is empty; and a file is created only for an answer with
    status 200. *)
Theorem downloadImage_outcome
    (ctx : nat) (imageURL propertyID : string) (index : nat)
    (r : HttpResult ImageBody) (w : World) :
  ∃ path err evs,
    downloadImage ctx imageURL propertyID index r w = Ok (path, err) (add_effects evs w)
    ∧ (err = None ↔ is_cancelled ctx w = false ∧ image_arrives r)
    ∧ (err ≠ None → path = "")
    ∧ (err = None →
       ∃ body, r = Response 200 body
         ∧ path = "/images/" +:+ image_filename propertyID index body
         ∧ evs = [EGet imageURL; EFile (image_filename propertyID index body)])
    ∧ (∀ f, EFile f ∈ evs →
       is_cancelled ctx w = false ∧ ∃ body, r = Response 200 body).
Proof. apply downloadImage_cases. Qed.

Lemma string_length_app (s t : string) :
  String.length (s +:+ t) = (String.length s + String.length t)%nat.
Proof. induction s as [|a s IH]; simpl; [done|]. by rewrite IH. Qed.

(** Two strings with suffixes of the same length are equal when the wholes
    are. *)
Lemma string_app_inj_suffix (s1 s2 e1 e2 : string) :
  String.length e1 = String.length e2 → s1 +:+ e1 = s2 +:+ e2 → s1 = s2.
Proof.
  revert s2. induction s1 as [|a s1 IH]; intros [|b s2] Hlen Heq.
  - done.
  - apply (f_equal String.length) in Heq.
    rewrite !string_length_app in Heq. simpl in Heq. lia.
  - apply (f_equal String.length) in Heq.
    rewrite !string_length_app in Heq. simpl in Heq. lia.
  - change (String a (s1 +:+ e1) = String b (s2 +:+ e2)) in Heq.
    injection Heq as -> Heq. f_equal. by eapply IH.
Qed.

Lemma add_effects_inj (evs1 evs2 : list Effect) (w : World) :
  add_effects evs1 w = add_effects evs2 w → evs1 = evs2.
Proof.
  intros H. apply (f_equal effects) in H. simpl in H. by apply app_inv_head in H.
Qed.

Lemma image_ext_length (body : ImageBody) : String.length (image_ext body) = 4%nat.
Proof. unfold image_ext. by destruct (strings_Contains _ _). Qed.

(** The photos of two different indices of a listing have different local
    paths. *)
Lemma photo_for_path_inj (propertyID u1 u2 : string) (k1 k2 : nat) (b1 b2 : ImageBody) :
  Photo.LocalURL (photo_for propertyID u1 k1 b1)
  = Photo.LocalURL (photo_for propertyID u2 k2 b2) →
  k1 = k2.
Proof.
  unfold photo_for, image_filename. simpl. intros H.
  apply (inj (String.app "/images/")) in H.
  apply (inj (String.app propertyID)) in H.
  apply (inj (String.app "_")) in H.
  apply string_app_inj_suffix in H; [|by rewrite !image_ext_length].
  apply (inj pretty) in H. lia.
Qed.

Lemma photo_from_cons propertyID imgs url rest first lo p :
  photo_from propertyID imgs rest (S first) lo p → (S first ≤ lo)%nat →
  photo_from propertyID imgs (url :: rest) first lo p.
Proof.
  intros (k & body & Hlo & Hurl & Hfirst & Himg & Hp) Hle.
  exists k, body. split_and!; try done; [|lia].
  replace (k - first)%nat with (S (k - S first)) by lia. done.
Qed.

Lemma photo_from_weaken propertyID imgs urls first lo lo' p :
  photo_from propertyID imgs urls first lo p → (lo' ≤ lo)%nat →
  photo_from propertyID imgs urls first lo' p.
Proof.
  intros (k & body & Hlo & H) Hle. exists k, body. split; [lia|done].
Qed.

(** What the goroutines of [downloadImages] send. *)
Lemma download_each_spec ctx propertyID imgs urls : ∀ index w,
  ∃ photos errors evs,
    download_each ctx propertyID imgs index urls w
    = Ok (photos, errors) (add_effects evs w)
    ∧ (length photos + length errors = length urls)%nat
    ∧ creates evs = []
    ∧ (is_cancelled ctx w = true → photos = [] ∧ evs = [])
    ∧ (is_cancelled ctx w = false →
       (errors = [] ↔ ∀ k url, urls !! k = Some url → image_arrives (imgs (index + k)%nat)))
    ∧ Forall (photo_from propertyID imgs urls index index) photos.*2
    ∧ NoDup (Photo.LocalURL <$> photos.*2).
Proof.
  induction urls as [|url urls IH]; intros index w; simpl.
  - exists [], [], []. rewrite add_effects_nil. split_and!; try done.
    constructor.
  - unfold bind, gets, ret.
    destruct (is_cancelled ctx w) eqn:Hc.
    + destruct (IH (S index) w)
        as (photos & errors & evs & -> & Hlen & Hcr & Hcan & _ & Hall & Hnd).
      destruct (Hcan Hc) as [-> ->].
      exists [], ((index, context_Canceled) :: errors), []. simpl in *.
      split_and!; try done. lia.
    + destruct (downloadImage_effects ctx url propertyID index (imgs index) w)
        as (res & evs1 & Heff & Hcr1).
      destruct (downloadImage_cases ctx url propertyID index (imgs index) w)
        as (path & err & evs1' & Heq & Hok & Hmsg & Hpath & _).
      rewrite Heff in Heq. injection Heq as -> Hevs.
      apply app_inv_head in Hevs. subst evs1'.
      rewrite Heff. clear Heff. rewrite Hc in Hok.
      destruct (IH (S index) (add_effects evs1 w))
        as (photos & errors & evs & HIH & Hlen & Hcr & _ & Hiff & Hall & Hnd).
      specialize (Hiff Hc).
      assert (creates (evs1 ++ evs) = []) as Hcreates
        by (unfold creates in *; by rewrite omap_app, Hcr1, Hcr).
      assert (Forall (photo_from propertyID imgs (url :: urls) index (S index))
                photos.*2) as Hall'.
      { eapply Forall_impl; [exact Hall|]. intros p Hp. by apply photo_from_cons. }
      destruct err as [e|]; simpl; rewrite HIH, add_effects_app; simpl.
      * (* this image failed *)
        exists photos, ((index, e) :: errors), (evs1 ++ evs). simpl.
        split_and!; try done.
        -- lia.
        -- intros _. split; [done|]. intros Harr.
           assert (image_arrives (imgs index)) as Hi.
           { specialize (Harr 0%nat url eq_refl).
             by replace (index + 0)%nat with index in Harr by lia. }
           assert (Some e = None) as Hnone by (apply Hok; by split). done.
        -- eapply Forall_impl; [exact Hall'|]. intros p Hp.
           eapply photo_from_weaken; [exact Hp|lia].
      * (* this image arrived *)
        destruct (Hpath eq_refl) as (body & Himg & -> & _).
        exists ((index,
                 Photo.mk url ("/images/" +:+ image_filename propertyID index body)
                   ("Property image " +:+ pretty (Z.of_nat index + 1))) :: photos),
          errors, (evs1 ++ evs). simpl.
        split_and!; try done.
        -- lia.
        -- intros _. rewrite Hiff. split.
           ++ intros Harr [|k] url' Hk; simpl in Hk.
              ** replace (index + 0)%nat with index by lia. by apply Hok.
              ** replace (index + S k)%nat with (S index + k)%nat by lia. eauto.
           ++ intros Harr k url' Hk.
              replace (S index + k)%nat with (index + S k)%nat by lia.
              by apply (Harr (S k) url').
        -- constructor.
           ++ exists index, body. split_and!; try done.
              by replace (index - index)%nat with 0%nat by lia.
           ++ eapply Forall_impl; [exact Hall'|]. intros p Hp.
              eapply photo_from_weaken; [exact Hp|lia].
        -- constructor; [|done].
           intros Hin. apply list_elem_of_fmap in Hin as (p & Hp & Hin).
           rewrite Forall_forall in Hall'. apply Hall' in Hin
             as (k & body' & Hk & _ & _ & _ & Hpk).
           rewrite Hpk in Hp.
           change (Photo.LocalURL (photo_for propertyID url index body)
                   = Photo.LocalURL (photo_for propertyID (Photo.URL p) k body')) in Hp.
           apply photo_for_path_inj in Hp. lia.
Qed.

(** The channels deliver what was sent, in another order. *)
Lemma by_arrival_Permutation {A} (arrival : nat → nat) (sent : list (nat * A)) :
  by_arrival arrival sent ≡ₚ sent.*2.
Proof. unfold by_arrival. by rewrite merge_sort_Permutation. Qed.

Lemma by_arrival_length {A} (arrival : nat → nat) (sent : list (nat * A)) :
  length (by_arrival arrival sent) = length sent.
Proof. by rewrite by_arrival_Permutation, length_fmap. Qed.

Lemma by_arrival_nil {A} (arrival : nat → nat) (sent : list (nat * A)) :
  by_arrival arrival sent = [] ↔ sent = [].
Proof.
  split; [|by intros ->].
  intros H. apply (f_equal length) in H. rewrite by_arrival_length in H.
  by destruct sent.
Qed.

Lemma downloadImages_spec ctx urls propertyID imgs arrival w :
  ∃ photos err evs,
    downloadImages ctx urls propertyID imgs arrival w
    = Ok (photos, err) (add_effects evs w)
    ∧ (urls = [] → photos = [] ∧ err = None ∧ evs = [])
    ∧ (∃ errors : list string, (length photos + length errors = length urls)%nat
                 ∧ (err = None ↔ errors = [])
                 ∧ (is_cancelled ctx w = false →
                    (errors = [] ↔ ∀ k url, urls !! k = Some url → image_arrives (imgs k))))
    ∧ creates evs = []
    ∧ (is_cancelled ctx w = true → photos = [] ∧ evs = [])
    ∧ (∀ e, err = Some e → e ≠ "")
    ∧ Forall (photo_from propertyID imgs urls 0 0) photos
    ∧ NoDup (Photo.LocalURL <$> photos).
Proof.
  unfold downloadImages. case_bool_decide as Hlen.
  - exists [], None, []. unfold ret. rewrite add_effects_nil.
    assert (urls = []) as -> by (by destruct urls).
    split_and!; try done.
    + exists []. by split_and!.
    + constructor.
  - unfold bind.
    destruct (download_each_spec ctx propertyID imgs urls 0%nat w)
      as (photos & errors & evs & -> & Hcount & Hcr & Hcan & Hiff & Hall & Hnd).
    simpl.
    assert (Forall (photo_from propertyID imgs urls 0 0) (by_arrival arrival photos))
      as Hall' by (by rewrite by_arrival_Permutation).
    assert (NoDup (Photo.LocalURL <$> by_arrival arrival photos)) as Hnd'
      by (by rewrite by_arrival_Permutation).
    assert (by_arrival arrival photos = [] ↔ photos = []) as Hnilp
      by apply by_arrival_nil.
    case_bool_decide as Herr; unfold ret.
    + eexists _, _, _. split; [reflexivity|]. split_and!; try done.
      * intros ->. done.
      * exists (by_arrival arrival errors). rewrite !by_arrival_length.
        split_and!; try done.
        -- split; [done|]. intros H. rewrite H in Herr. simpl in Herr. lia.
        -- intros Hc. rewrite by_arrival_nil. by apply Hiff.
      * intros Hc. destruct (Hcan Hc) as [-> ->]. done.
      * intros e [= <-]. by apply append_nonempty.
    + eexists _, _, _. split; [reflexivity|]. split_and!; try done.
      * intros ->. done.
      * exists (by_arrival arrival errors). rewrite !by_arrival_length.
        split_and!; try done.
        -- split; [|done]. intros _.
           destruct (by_arrival arrival errors); [done|]. simpl in Herr. lia.
        -- intros Hc. rewrite by_arrival_nil. by apply Hiff.
      * intros Hc. destruct (Hcan Hc) as [-> ->]. done.
Qed.

(** X12. [downloadImages] accounts for every URL: it returns at most one
    photo per URL, and no error exactly when it returns one photo for each
    of them, which, when the context is not cancelled, is exactly when
    every image arrives. For no URL it returns no photo and no error and
    does nothing. With a cancelled context it makes no request and returns
    no photo. It never calls the repository. *)
Theorem downloadImages_accounts_for_every_url
    (ctx : nat) (imageURLs : list string) (propertyID : string)
    (imgs : nat → HttpResult ImageBody) (arrival : nat → nat) (w : World) :
  ∃ photos err evs,
    downloadImages ctx imageURLs propertyID imgs arrival w
    = Ok (photos, err) (add_effects evs w)
    ∧ (length photos ≤ length imageURLs)%nat
    ∧ (err = None ↔ length photos = length imageURLs)
    ∧ (imageURLs = [] → photos = [] ∧ err = None ∧ evs = [])
    ∧ (is_cancelled ctx w = false →
       (err = None ↔ ∀ k url, imageURLs !! k = Some url → image_arrives (imgs k)))
    ∧ (is_cancelled ctx w = true →
       photos = [] ∧ evs = [] ∧ (imageURLs ≠ [] → err ≠ None))
    ∧ creates evs = [].
Proof.
  destruct (downloadImages_spec ctx imageURLs propertyID imgs arrival w)
    as (photos & err & evs & Heq & Hnil & (errors & Hcount & Herr & Hiff)
        & Hcr & Hcan & _).
  exists photos, err, evs. split_and!; try done.
  - lia.
  - rewrite Herr. split; [intros ->; simpl in Hcount; lia|].
    intros Hl. destruct errors; [done|]. simpl in Hcount. lia.
  - intros Hc. rewrite Herr. by apply Hiff.
  - intros Hc. destruct (Hcan Hc) as [-> ->]. split_and!; try done.
    intros Hne Hnone. apply Herr in Hnone. subst errors.
    simpl in Hcount. destruct imageURLs; [done|]. simpl in Hcount. lia.
Qed.

(** X13. Every photo that [downloadImages] returns is the photo of one of
    the URLs: it carries that URL, the caption [Property image k+1] and
    the local path [/images/{id}_{k}{ext}] for the index [k] of the URL,
    whose answer had status 200; and no two photos of a call have the same
    local path. *)
Theorem downloadImages_photos_are_named_apart
    (ctx : nat) (imageURLs : list string) (propertyID : string)
    (imgs : nat → HttpResult ImageBody) (arrival : nat → nat) (w w' : World)
    (photos : PhotoList) (err : option string) :
  downloadImages ctx imageURLs propertyID imgs arrival w = Ok (photos, err) w' →
  Forall (λ p, ∃ k body,
            imageURLs !! k = Some (Photo.URL p)
            ∧ imgs k = Response 200 body
            ∧ Photo.LocalURL p = "/images/" +:+ image_filename propertyID k body
            ∧ Photo.Caption p = "Property image " +:+ pretty (Z.of_nat k + 1)) photos
  ∧ NoDup (Photo.LocalURL <$> photos).
Proof.
  intros Heq.
  destruct (downloadImages_spec ctx imageURLs propertyID imgs arrival w)
    as (photos' & err' & evs & Heq' & _ & _ & _ & _ & _ & Hall & Hnd).
  rewrite Heq in Heq'. injection Heq' as -> -> _. split; [|done].
  eapply Forall_impl; [exact Hall|].
  intros p (k & body & _ & Hurl & _ & Himg & Hp). exists k, body.
  replace (k - 0)%nat with k in Hurl by lia.
  split_and!; try done; by rewrite Hp.
Qed.

Lemma downloadImages_photos_are_named_apart_witness :
  downloadImages 0 ["http://img/0"; "http://img/1"; "http://img/2"] "L1"
    (images second_image_fails) (λ k, 2 - k)%nat empty_world
  = Ok ([Photo.mk "http://img/2" "/images/L1_2.jpg" "Property image 3";
         Photo.mk "http://img/0" "/images/L1_0.jpg" "Property image 1"],
        Some "some images failed to download: image download returned status 404")
       (add_effects [EGet "http://img/0"; EFile "L1_0.jpg"; EGet "http://img/1";
                     EGet "http://img/2"; EFile "L1_2.jpg"] empty_world)
  ∧ NoDup (Photo.LocalURL <$>
             [Photo.mk "http://img/2" "/images/L1_2.jpg" "Property image 3";
              Photo.mk "http://img/0" "/images/L1_0.jpg" "Property image 1"]).
Proof.
  assert (downloadImages 0 ["http://img/0"; "http://img/1"; "http://img/2"] "L1"
            (images second_image_fails) (λ k, 2 - k)%nat empty_world
          = Ok ([Photo.mk "http://img/2" "/images/L1_2.jpg" "Property image 3";
                 Photo.mk "http://img/0" "/images/L1_0.jpg" "Property image 1"],
                Some "some images failed to download: image download returned status 404")
               (add_effects [EGet "http://img/0"; EFile "L1_0.jpg"; EGet "http://img/1";
                             EGet "http://img/2"; EFile "L1_2.jpg"] empty_world))
    as H by (vm_compute; reflexivity).
  split; [exact H|].
  exact (proj2 (downloadImages_photos_are_named_apart _ _ _ _ _ _ _ _ _ H)).
Defined.

(** X14. [processProperty] returns no error exactly when the images are
    all there (the listing has no media URL, or the context is not
    cancelled and every image arrives) and the repository accepts the
    record. It calls the repository exactly when the images are all
    there, once, with the conversion of the listing that carries one
    photo per media URL, no two of them with the same local path. When it
    returns an error, the message is not empty. *)
Theorem processProperty_persists_once
    (ctx : nat) (sp : SimplyRETSProperty.t) (x : WorkerExt) (w : World) :
  let images_ok :=
    SimplyRETSProperty.Photos sp = []
    ∨ (is_cancelled ctx w = false
       ∧ ∀ k url, SimplyRETSProperty.Photos sp !! k = Some url →
                  image_arrives (images x k)) in
  ∃ r evs,
    processProperty ctx sp x w = Ok r (add_effects evs w)
    ∧ (r = None ↔ images_ok ∧ createErr x = None)
    ∧ (creates evs ≠ [] ↔ images_ok)
    ∧ (images_ok →
       ∃ photos, creates evs = [convertToProperty sp photos]
         ∧ length photos = length (SimplyRETSProperty.Photos sp)
         ∧ NoDup (Photo.LocalURL <$> photos))
    ∧ (∀ e, r = Some e → e ≠ "").
Proof.
  intros images_ok. unfold processProperty, bind, ret, modify.
  destruct (downloadImages_spec ctx (SimplyRETSProperty.Photos sp)
              (SimplyRETSProperty.ListingID sp) (images x) (arrival x) w)
    as (photos & err & evs & -> & Hnil & (errors & Hcount & Herr & Harr)
        & Hcr & Hcan & _ & _ & Hnd).
  assert (err = None ↔ images_ok) as Hok.
  { rewrite Herr. unfold images_ok. split.
    - intros ->. destruct (is_cancelled ctx w) eqn:Hc.
      + left. destruct (Hcan eq_refl) as [-> _]. simpl in Hcount.
        destruct (SimplyRETSProperty.Photos sp); [done|]. simpl in Hcount. lia.
      + right. split; [done|]. by apply Harr.
    - intros [Hurls|[Hc Hall]].
      + destruct (Hnil Hurls) as (_ & He & _). by apply Herr.
      + by apply Harr. }
  destruct err as [e|].
  - assert (¬ images_ok) as Hno by (intros H; by apply Hok in H).
    eexists _, _. split; [reflexivity|]. rewrite Hcr. split_and!.
    + split; [done|]. by intros [? _].
    + split; [done|]. done.
    + done.
    + intros e' [= <-]. by apply append_nonempty.
  - assert (images_ok) as Hyes by (by apply Hok).
    rewrite add_effect_add_effects.
    assert (errors = []) as -> by (by apply Herr).
    assert (creates (evs ++ [ECreate (convertToProperty sp photos) (createErr x)])
            = [convertToProperty sp photos]) as Hcreates
      by (unfold creates in *; by rewrite omap_app, Hcr).
    assert (length photos = length (SimplyRETSProperty.Photos sp)) as Hlen
      by (simpl in Hcount; lia).
    destruct (createErr x) as [e|] eqn:Hce.
    + eexists _, _. split; [reflexivity|]. rewrite Hcreates. split_and!.
      * split; [done|]. by intros [_ ?].
      * done.
      * intros _. by exists photos.
      * intros e' [= <-]. by apply append_nonempty.
    + eexists _, _. split; [reflexivity|]. rewrite Hcreates. split_and!; try done.
      intros _. by exists photos.
Qed.

(** ** The shape of a supervisor's run *)

Lemma tally_running (r : option string) (st : ProcessingStatus.t) :
  running_snapshot st → running_snapshot (tally r st).
Proof. unfold running_snapshot. by destruct r. Qed.

Lemma collect_running (rs : list (option string)) (st : ProcessingStatus.t) :
  running_snapshot st → running_snapshot (collect rs st).
Proof.
  unfold collect. revert st. induction rs as [|r rs IH]; intros st H; simpl; [done|].
  by apply IH, tally_running.
Qed.

Lemma finish_terminal name s w :
  name = "failed" ∨ name = "cancelled" ∨ name = "completed" →
  terminal_snapshot (status (finish name s w)).
Proof. intros H. unfold finish, terminal_snapshot, state. simpl. split; [done|eauto]. Qed.

Lemma shape_inv_set_parked b s : shape_inv s → shape_inv (set_parked b s).
Proof. done. Qed.

Lemma sent_shape next s :
  (pc s = PSend next ∨ ∃ k2, pc s = PSelect next k2) →
  shape_inv s →
  shape_inv (set_pc next (publish s)) ∧ ∀ msg, shape_inv (set_pc (PPanic msg) s).
Proof.
  intros Hpc Hs. split; [|intros msg];
    unfold shape_inv in *; simpl;
    destruct Hpc as [Hpc|[k2 Hpc]]; rewrite Hpc in Hs.
  - destruct Hs as [Hall [(-> & Hrun & Hlen)|(-> & Hterm & Hlen)]].
    + split_and!; [done| |].
      * apply Forall_app. split; [done|]. by apply Forall_singleton.
      * exists 0%nat. rewrite length_app. simpl. split_and!; [done|by left|lia].
    + exists (published s). simpl. split_and!; try done. rewrite length_app. simpl. lia.
  - destruct Hs as (Hrun & Hall & [(-> & -> & Hnil)|(b & -> & -> & Hb & Hbn & Hlen)]).
    + rewrite Hnil. simpl. split_and!; [done| |done]. by apply Forall_singleton.
    + split_and!; [done| |].
      * apply Forall_app. split; [done|]. by apply Forall_singleton.
      * exists b. rewrite length_app. simpl. split_and!; [done|by right|lia].
  - destruct Hs as [Hall [(-> & Hrun & Hlen)|(-> & Hterm & Hlen)]];
      (split; [done|lia]).
  - destruct Hs as (Hrun & Hall & [(-> & -> & Hnil)|(b & -> & -> & Hb & Hbn & Hlen)]);
      (split; [done|]).
    + rewrite Hnil. simpl. lia.
    + lia.
Qed.

Lemma send_status_shape next s w :
  (pc s = PSend next ∨ ∃ k2, pc s = PSelect next k2) →
  shape_inv s → shape_inv (send_status next s w).1.
Proof.
  intros Hpc Hs. destruct (sent_shape next s Hpc Hs) as [Hsent Hpanic].
  destruct (send_status_cases next s w) as [[b ->]|[[b ->]|[msg ->]]];
    [by apply shape_inv_set_parked..|done].
Qed.

Lemma processProperties_shape (x : SupExt) (s : Supervisor) (w : World) :
  shape_inv s → shape_inv (processProperties x s w).1.
Proof.
  intros Hs. unfold processProperties, processBatch.
  destruct (pc s) as [|k1 k2| |next| |i|i e pending results| |msg] eqn:Hpc.
  - (* PStart *)
    unfold shape_inv in *. rewrite Hpc in Hs. simpl. rewrite Hs.
    split_and!; [done|constructor|by left].
  - (* PSelect *)
    assert (shape_inv (set_pc k2 s)) as Hdone.
    { unfold shape_inv in *. rewrite Hpc in Hs. simpl.
      destruct Hs as (Hrun & Hall & [(-> & -> & Hnil)|(b & -> & -> & Hb & Hbn & Hlen)]).
      - by left.
      - split_and!; [done..|]. exists b. split_and!; [done|by right|lia]. }
    destruct (sent_shape k1 s) as [Hsent Hpanic]; [by eauto|done|].
    pose proof (select_cases x s w k1 k2 Hpc) as Hcases.
    unfold processProperties in Hcases. rewrite Hpc in Hcases.
    destruct Hcases as [[b ->]|[[b ->]|[[msg ->]|[b ->]]]];
      [by apply shape_inv_set_parked..|done|].
    by apply shape_inv_set_parked.
  - (* PFetch *)
    destruct (fetchProperties_len (ctx s) (limit s) (listings x) w)
      as (props & err & -> & _).
    unfold shape_inv in *. rewrite Hpc in Hs. destruct Hs as (Hrun & Hall & Hlen).
    destruct err as [err|]; simpl.
    + split; [done|]. right. split_and!; [done| |lia].
      unfold terminal_snapshot, state. simpl. split; [by left|eauto].
    + split; [done|]. left. split_and!; try done.
  - (* PSend *)
    apply send_status_shape; eauto.
  - (* PMark *)
    unfold shape_inv in *. rewrite Hpc in Hs. simpl. by right.
  - (* PLoop *)
    unfold shape_inv in *. rewrite Hpc in Hs.
    destruct Hs as (Hrun & Hall & b & -> & Hb & Hlen).
    case_bool_decide as Hi; [destruct (is_cancelled _ _)|]; simpl.
    + split; [done|]. right. split_and!; [done| |lia].
      unfold terminal_snapshot, state. simpl. split; [by right; left|eauto].
    + split_and!; try done.
      * by exists b.
      * unfold batchSize. case_bool_decide; lia.
      * case_bool_decide; lia.
      * apply NoDup_seq.
      * apply Forall_seq. intros k Hk. unfold batchSize in *.
        case_bool_decide; lia.
    + split; [done|]. right. split_and!; [done| |lia].
      unfold terminal_snapshot, state. simpl. split; [by right; right|eauto].
  - (* PWorkers *)
    destruct pending as [|k pending]; [|done].
    unfold shape_inv in *. rewrite Hpc in Hs. simpl.
    destruct Hs as (Hrun & Hall & (b & -> & Hlen) & Hi & _).
    split_and!; [by apply collect_running|done|]. right.
    exists (S b). unfold batchSize. split_and!; try done; try lia.
    + f_equal. lia.
    + f_equal. lia.
  - done.
  - done.
Qed.

Lemma processBatch_worker_shape (j : nat) (x : WorkerExt) (s : Supervisor) (w : World) :
  shape_inv s → shape_inv (processBatch_worker j x s w).1.
Proof.
  intros Hs. unfold processBatch_worker.
  destruct (pc s) as [| | | | | |i e pending results| |] eqn:Hpc; try done.
  destruct (pending !! j) as [k|] eqn:Hj; [|done].
  destruct (properties s !! k) as [property|]; [|done].
  unfold shape_inv in Hs. rewrite Hpc in Hs.
  destruct Hs as (Hrun & Hall & (b & -> & Hlen) & Hi & He & Hen & Hnd & Hin).
  destruct (worker _ _ _ _) as [r w'|msg w']; unfold shape_inv; simpl.
  - split_and!; try done.
    + by exists b.
    + eapply sublist_NoDup; [exact Hnd|apply sublist_delete].
    + rewrite Forall_forall in Hin. apply Forall_forall. intros k' Hk'.
      apply Hin. by apply (sublist_subseteq _ _ (sublist_delete pending j)).
  - split; [done|]. lia.
Qed.

Lemma step_shape (l : Label) (c : Config) :
  Forall shape_inv (sups c) → Forall shape_inv (sups (step l c)).
Proof.
  intros Hall. alive.
  destruct l as [id lim|id|id|id|id|k|d|n x|n j x|id|k]; unfold serve; try done.
  - simpl. apply Forall_app. split; [done|]. by apply Forall_singleton.
  - by case_match.
  - by repeat case_match.
  - unfold with_sup. destruct (sups c !! n) as [s|] eqn:Hn; [|done].
    pose proof (processProperties_shape x s (world c)
                  (Forall_lookup_1 _ _ _ _ Hall Hn)) as H.
    destruct (processProperties x s (world c)). by apply Forall_insert.
  - unfold with_sup. destruct (sups c !! n) as [s|] eqn:Hn; [|done].
    pose proof (processBatch_worker_shape j x s (world c)
                  (Forall_lookup_1 _ _ _ _ Hall Hn)) as H.
    destruct (processBatch_worker j x s (world c)). by apply Forall_insert.
  - destruct (queries c !! k) as [q|]; [|done].
    by destruct (GetJobStatus_step q (world c)).
Qed.

Lemma reachable_shape (trace : list Label) (n : nat) (s : Supervisor) :
  sups (run trace init) !! n = Some s → shape_inv s.
Proof.
  intros Hn. eapply Forall_lookup_1; [|exact Hn]. clear Hn.
  induction trace as [|l trace IH] using rev_ind; [constructor|].
  rewrite run_snoc. by apply step_shape.
Qed.

(** ** The status channel of a supervisor *)

Lemma in_hands_app (r : nat) (qs1 qs2 : list Query.t) :
  in_hands r (qs1 ++ qs2) = (in_hands r qs1 + in_hands r qs2)%nat.
Proof. induction qs1 as [|q qs1 IH]; simpl; [done|]. rewrite IH. lia. Qed.

Lemma in_hands_insert (r : nat) (qs : list Query.t) (k : nat) (q q' : Query.t) :
  qs !! k = Some q →
  (in_hands r (<[k := q']> qs) + (if holding r q then 1 else 0)
   = in_hands r qs + (if holding r q' then 1 else 0))%nat.
Proof.
  revert k. induction qs as [|q0 qs IH]; intros [|k] H; simplify_eq/=; [lia|].
  specialize (IH k H). lia.
Qed.

Lemma in_hands_lookup (r : nat) (qs : list Query.t) (k : nat) (q : Query.t) :
  qs !! k = Some q → holding r q = true → (1 ≤ in_hands r qs)%nat.
Proof.
  revert k. induction qs as [|q0 qs IH]; intros [|k] H Hq; simplify_eq/=.
  - rewrite Hq. lia.
  - specialize (IH k H Hq). lia.
Qed.

Lemma holding_other (r : nat) (q : Query.t) : Query.job q ≠ r → holding r q = false.
Proof. intros H. unfold holding. by rewrite bool_decide_eq_false_2. Qed.

Lemma chan_step_refl (ch : Chan.t) : chan_step ch ch.
Proof. unfold chan_step. split_and!; [done..|]. intros H. split; [done|by left]. Qed.

Lemma chan_step_trans (c1 c2 c3 : Chan.t) :
  chan_step c1 c2 → chan_step c2 c3 → chan_step c1 c3.
Proof.
  intros (A1 & A2 & A3) (B1 & B2 & B3). unfold chan_step.
  split_and!; [congruence|lia|].
  intros H. destruct (B3 H) as [H2 Hl2]. destruct (A3 H2) as [H1 Hl1].
  split; [done|]. rewrite A1 in Hl2. lia.
Qed.

Lemma chans_settle_refl (w : World) : chans_settle w w.
Proof.
  split; [done|]. intros r. destruct (chans w !! r); constructor.
  apply chan_step_refl.
Qed.

Lemma chans_settle_trans (w1 w2 w3 : World) :
  chans_settle w1 w2 → chans_settle w2 w3 → chans_settle w1 w3.
Proof.
  intros [A1 A2] [B1 B2]. split; [congruence|]. intros r.
  specialize (A2 r). specialize (B2 r).
  destruct A2 as [c1 c2 H12|]; inversion B2 as [c2' c3 H23|]; subst; constructor.
  by eapply chan_step_trans.
Qed.

Lemma chans_settle_same (w w' : World) :
  chans w' = chans w → next_ref w' = next_ref w → chans_settle w w'.
Proof.
  intros Hc Hn. split; [done|]. intros r. rewrite Hc.
  destruct (chans w !! r); constructor. apply chan_step_refl.
Qed.

Lemma chans_settle_insert (w : World) (r : nat) (ch ch' : Chan.t) :
  chans w !! r = Some ch → chan_step ch ch' →
  chans_settle w (set_chans (insert r ch') w).
Proof.
  intros Hch Hstep. split; [done|]. intros r'. simpl.
  destruct (decide (r = r')) as [<-|Hne].
  - rewrite lookup_insert_eq, Hch. by constructor.
  - rewrite lookup_insert_ne by done.
    destruct (chans w !! r'); constructor. apply chan_step_refl.
Qed.

Lemma close_settle (ch : nat) (w : World) : chans_settle w (final_world (close ch w)).
Proof.
  unfold close. destruct (chans w !! ch) as [c|] eqn:Hch; [|apply chans_settle_refl].
  destruct (Chan.closed c); [apply chans_settle_refl|]. simpl.
  apply chans_settle_insert with c; [done|].
  unfold chan_step. simpl. split_and!; [done| |done].
  rewrite length_take. lia.
Qed.

Lemma close_unregister_settle (id : string) (ch : nat) (w : World) :
  chans_settle w
    (final_world ((do close ch then
                   modify (λ w, set_jobs (delete id) (detach id w))) w)).
Proof.
  unfold bind, modify. pose proof (close_settle ch w) as H.
  destruct (close ch w) as [[] w1|msg w1]; simpl in *; [|done].
  eapply chans_settle_trans; [exact H|]. by apply chans_settle_same.
Qed.

Lemma RemoveJob_settle (id : string) (w : World) :
  chans_settle w (final_world (RemoveJob id w)).
Proof.
  unfold RemoveJob, GetJob. unfold bind at 1. unfold gets.
  destruct (jobs w !! id) as [job|]; [|apply chans_settle_refl].
  apply close_unregister_settle.
Qed.

Lemma CleanupJob_settle (id : string) (w : World) :
  chans_settle w (final_world (CleanupJob id w)).
Proof.
  unfold CleanupJob, GetJob, time_Since. unfold bind at 1. unfold gets.
  destruct (jobs w !! id) as [job|]; [|apply chans_settle_refl].
  destruct (ProcessingJob.CompletedAt job); [|apply chans_settle_refl].
  unfold bind at 1. destruct (_ && _); [|apply chans_settle_refl].
  apply close_unregister_settle.
Qed.

Lemma MarkJobCompleted_settle (id : string) (st : ProcessingStatus.t) (w : World) :
  chans_settle w (final_world (MarkJobCompleted id st w)).
Proof.
  unfold MarkJobCompleted, GetJob, bind, gets, ret, modify.
  destruct (jobs w !! id); [|apply chans_settle_refl]. by apply chans_settle_same.
Qed.

Lemma CancelJob_settle (id : string) (w : World) :
  chans_settle w (final_world (CancelJob id w)).
Proof.
  unfold CancelJob, GetJob, cancel. unfold bind at 1. unfold gets.
  destruct (jobs w !! id) as [job|]; [|apply chans_settle_refl].
  unfold bind at 1. unfold modify. unfold bind at 1.
  match goal with
  | |- context [RemoveJob id ?w0] =>
      pose proof (RemoveJob_settle id w0) as H; destruct (RemoveJob id w0)
  end; simpl in *;
    (eapply chans_settle_trans; [|exact H]); by apply chans_settle_same.
Qed.

(** A status query puts the snapshot back when there is room. *)
Lemma GetJobStatus_settle (id : string) (w : World) :
  chans_settle w (final_world (GetJobStatus id w)).
Proof.
  unfold GetJobStatus, GetJob, bind, gets, ret, modify.
  destruct (jobs w !! id) as [job|] eqn:Hj; [|apply chans_settle_refl].
  destruct (ProcessingJob.LastStatus job); [apply chans_settle_refl|].
  unfold try_recv.
  destruct (chans w !! ProcessingJob.Status job) as [c|] eqn:Hch;
    [|apply chans_settle_refl].
  destruct (Chan.buf c) as [|v rest] eqn:Hbuf.
  - destruct (Chan.closed c) eqn:Hcl; [|apply chans_settle_refl].
    unfold try_send. simpl. rewrite Hch, Hcl. simpl. by apply chans_settle_same.
  - unfold try_send. simpl. rewrite lookup_insert_eq. simpl.
    destruct (Chan.closed c) eqn:Hcl; simpl.
    + split; [done|]. intros r. simpl. destruct (decide (ProcessingJob.Status job = r))
        as [<-|Hne].
      * rewrite lookup_insert_eq, Hch. constructor. unfold chan_step. simpl.
        rewrite Hbuf, Hcl. simpl. split_and!; [done|lia|done].
      * rewrite lookup_insert_ne by done.
        destruct (chans w !! r); constructor. apply chan_step_refl.
    + unfold Chan.has_room. simpl. case_bool_decide as Hroom; simpl.
      * split; [done|]. intros r. simpl.
        destruct (decide (ProcessingJob.Status job = r)) as [<-|Hne].
        -- rewrite lookup_insert_eq, Hch. constructor. unfold chan_step. simpl.
           rewrite Hbuf, length_app. simpl. split_and!; [done|lia|].
           intros _. split; [done|]. left. lia.
        -- rewrite !lookup_insert_ne by done.
           destruct (chans w !! r); constructor. apply chan_step_refl.
      * split; [done|]. intros r. simpl.
        destruct (decide (ProcessingJob.Status job = r)) as [<-|Hne].
        -- rewrite lookup_insert_eq, Hch. constructor. unfold chan_step. simpl.
           rewrite Hbuf. simpl. split_and!; [done|lia|].
           intros _. split; [done|]. right. lia.
        -- rewrite lookup_insert_ne by done.
           destruct (chans w !! r); constructor. apply chan_step_refl.
Qed.

Lemma sent_ok_step (s : Supervisor) (ch ch' : Chan.t) (h : nat) :
  Chan.cap ch = 100%nat → chan_step ch ch' → sent_ok s ch h → sent_ok s ch' h.
Proof.
  intros Hcap (C1 & C2 & C3) Hs Hlt. destruct (Hs Hlt) as (Hp & Hle & Heq).
  split_and!; [done|lia|].
  intros Hopen. destruct (C3 Hopen) as [Hopen' [Hl|Hl]]; [|lia].
  specialize (Heq Hopen'). lia.
Qed.

Lemma chan_inv_frame (c : Config) (w' : World) :
  chans_settle (world c) w' → chan_inv c →
  chan_inv (mkConfig w' (sups c) (queries c)).
Proof.
  intros [Hn Hs] (A & B & C). unfold chan_inv. simpl. rewrite Hn. split_and!.
  - intros r ch' Hch'. specialize (Hs r). rewrite Hch' in Hs.
    inversion Hs as [ch ch0 (Hc & _) Heq|]; subst. rewrite Hc. eapply A. eauto.
  - intros n s Hsn. destruct (B _ _ Hsn) as (Hlt & ch & Hch & Hok).
    split; [done|]. specialize (Hs (statusChan s)). rewrite Hch in Hs.
    inversion Hs as [ch0 ch' Hstep Heq1 Heq2|]; subst.
    exists ch'. split; [done|]. eapply sent_ok_step; eauto.
  - done.
Qed.

(** The pointer of a status query in flight is the channel of a job that
    was made before. *)
Lemma live_query_ref (c : Config) (k : nat) (q : Query.t) :
  wf (world c) → heap_inv c → queries c !! k = Some q →
  live (Query.pc q) = true → (Query.job q < next_ref (world c))%nat.
Proof.
  intros (WA & _ & WC & _) (_ & HB & HC) Hk Hl.
  destruct (HC k q Hk Hl) as [(k' & job & Hj & <- & _)|(job & Hd & _)].
  - destruct (WA _ _ Hj) as (ch & Hch & _). apply WC. by eauto.
  - by destruct (HB _ _ Hd) as (_ & H & _).
Qed.

Lemma in_hands_zero (r : nat) (qs : list Query.t) :
  (∀ k q, qs !! k = Some q → holding r q = false) → in_hands r qs = 0%nat.
Proof.
  induction qs as [|q qs IH]; intros Hqs; simpl; [done|].
  rewrite IH by (intros k q' Hk; apply (Hqs (S k) q' Hk)).
  by rewrite (Hqs 0%nat q eq_refl).
Qed.

Lemma chan_inv_start (id : string) (lim : Z) (c : Config) :
  wf (world c) → heap_inv c → chan_inv c → chan_inv (serve (LStart id lim) c).
Proof.
  intros Hwf Hheap (A & B & C).
  unfold serve, StartPropertyProcessing, AddJob, bind, gets, ret, modify.
  simpl. unfold chan_inv. simpl.
  assert (in_hands (S (next_ref (world c))) (queries c) = 0%nat) as Hnone.
  { apply in_hands_zero. intros k q Hk.
    destruct (holding _ q) eqn:Hq; [|done]. exfalso.
    unfold holding in Hq. apply andb_true_iff in Hq as [Hr Hpc].
    apply bool_decide_eq_true in Hr.
    assert (live (Query.pc q) = true) as Hl by (by destruct (Query.pc q)).
    pose proof (live_query_ref c k q Hwf Hheap Hk Hl). lia. }
  split_and!.
  - intros r ch H. apply lookup_insert_Some in H as [[_ <-]|[_ H]]; [done|].
    by eapply A.
  - intros n s H. apply lookup_snoc_Some in H as [[_ H]|[_ <-]]; simpl.
    + destruct (B _ _ H) as (Hlt & ch & Hch & Hok). split; [lia|].
      exists ch. rewrite lookup_insert_ne by lia. done.
    + split; [lia|]. exists (Chan.make 100). rewrite lookup_insert_eq.
      split; [done|]. intros _. rewrite Hnone. done.
  - intros n m s s' H1 H2 Heq.
    apply lookup_snoc_Some in H1 as [[Hn H1]|[-> <-]];
      apply lookup_snoc_Some in H2 as [[Hm H2]|[-> <-]]; simpl in *.
    + by eapply C.
    + destruct (B _ _ H1) as [Hlt _]. lia.
    + destruct (B _ _ H2) as [Hlt _]. lia.
    + done.
Qed.

(** *** The steps of a supervisor *)

Lemma sends_same (s s' : Supervisor) (w w' : World) :
  statusChan s' = statusChan s → published s' = published s →
  parked s' = parked s → chans w' = chans w → next_ref w' = next_ref w →
  sends s w s' w'.
Proof.
  intros Hch Hpub Hp Hc Hn. unfold sends. rewrite Hch, Hpub, Hp, Hc, Hn.
  split_and!; [done..|].
  destruct (chans w !! statusChan s); constructor. split; [done|].
  intros Hp' _. split; [done|]. by left.
Qed.

Lemma park_sends (s : Supervisor) (w : World) :
  send_can_proceed (statusChan s) w = false → sends s w (park s w).1 (park s w).2.
Proof.
  intros Hno. unfold park, send_can_proceed in *.
  destruct (chans w !! statusChan s) as [ch|] eqn:Hch; [|by apply sends_same].
  unfold sends. simpl. split_and!; [done..| |].
  - intros r Hne. by rewrite lookup_insert_ne.
  - rewrite Hch, lookup_insert_eq. constructor. split; [done|].
    intros _ Hyes. congruence.
Qed.

Lemma parked_sends (s s' : Supervisor) (w w' : World) :
  parked s = true → statusChan s' = statusChan s → next_ref w' = next_ref w →
  (length (published s) ≤ length (published s'))%nat →
  (∀ r, r ≠ statusChan s → chans w' !! r = chans w !! r) →
  option_Forall2 (λ ch ch', Chan.cap ch' = Chan.cap ch)
    (chans w !! statusChan s) (chans w' !! statusChan s) →
  sends s w s' w'.
Proof.
  intros Hp Hch Hn Hpub Hr Hc. unfold sends. split_and!; [done..|].
  destruct Hc; constructor. split; [done|]. intros Hp'. congruence.
Qed.

Lemma resume_sends (next : PC) (s : Supervisor) (w : World) :
  parked s = true → sends s w (resume next s w).1 (resume next s w).2.
Proof.
  intros Hp. apply parked_sends; simpl; try done.
  - rewrite length_app. lia.
  - by destruct (chans w !! statusChan s); constructor.
Qed.

Lemma withdraw_sends (next : PC) (s : Supervisor) (w : World) :
  parked s = true → sends s w (withdraw next s w).1 (withdraw next s w).2.
Proof.
  intros Hp. apply parked_sends; simpl; try done.
  - intros r Hne. by rewrite lookup_alter_ne.
  - rewrite lookup_alter_eq. by destruct (chans w !! statusChan s); constructor.
Qed.

Lemma send_status_sends (next : PC) (s : Supervisor) (w : World) :
  sends s w (send_status next s w).1 (send_status next s w).2.
Proof.
  unfold send_status. destruct (parked s) eqn:Hp.
  - destruct (was_released s w); [by apply resume_sends|].
    destruct (chan_closed _ _); by apply sends_same.
  - unfold try_send.
    destruct (chans w !! statusChan s) as [ch|] eqn:Hch.
    + destruct (Chan.closed ch) eqn:Hcl; [by apply sends_same|].
      destruct (Chan.has_room ch) eqn:Hroom; simpl.
      * unfold sends. simpl. split_and!; [done..|rewrite length_app; lia| |].
        -- intros r Hne. by rewrite lookup_insert_ne.
        -- rewrite Hch, lookup_insert_eq. constructor. split; [done|].
           intros _ _. split; [done|]. right. done.
      * apply park_sends. unfold send_can_proceed, Chan.send_can_proceed.
        by rewrite Hch, Hcl, Hroom.
    + simpl. apply park_sends. unfold send_can_proceed. by rewrite Hch.
Qed.

Lemma processProperties_sends (x : SupExt) (s : Supervisor) (w : World) :
  sends s w (processProperties x s w).1 (processProperties x s w).2.
Proof.
  unfold processProperties, processBatch.
  destruct (pc s) eqn:Hpc; try (by apply sends_same).
  - destruct (parked s) eqn:Hp.
    + destruct (was_released s w); [by apply resume_sends|].
      destruct (chan_closed _ _), (is_cancelled _ _);
        try destruct (pick_done x);
        first [ by apply withdraw_sends | by apply sends_same ].
    + destruct (send_can_proceed _ _) eqn:Hcan, (is_cancelled _ _);
        try destruct (pick_done x);
        first [ apply send_status_sends | by apply park_sends | by apply sends_same ].
  - destruct (fetchProperties_len (ctx s) (limit s) (listings x) w)
      as (props & err & -> & _). destruct err; by apply sends_same.
  - apply send_status_sends.
  - simpl. destruct (MarkJobCompleted_settle (jobID s) (status s) w) as [Hn _].
    assert (chans (final_world (MarkJobCompleted (jobID s) (status s) w)) = chans w)
      as Hc.
    { unfold MarkJobCompleted, GetJob, bind, gets, ret, modify.
      by destruct (jobs w !! jobID s). }
    by apply sends_same.
  - repeat case_match; by apply sends_same.
  - case_match; by apply sends_same.
Qed.

Lemma processBatch_worker_sends (j : nat) (x : WorkerExt) (s : Supervisor) (w : World) :
  sends s w (processBatch_worker j x s w).1 (processBatch_worker j x s w).2.
Proof.
  unfold processBatch_worker.
  destruct (pc s); try (by apply sends_same).
  destruct (_ !! j); [|by apply sends_same].
  destruct (_ !! _) as [property|]; [|by apply sends_same].
  destruct (worker_effects (ctx s) property x w) as (r & evs & ->).
  by apply sends_same.
Qed.

Lemma chan_inv_sends (n : nat) (f : Supervisor → World → Supervisor * World)
    (c : Config) :
  (∀ s w, sends s w (f s w).1 (f s w).2) →
  chan_inv c → chan_inv (with_sup n f c).
Proof.
  intros Hf (A & B & C). unfold with_sup.
  destruct (sups c !! n) as [s|] eqn:Hn; [|done].
  specialize (Hf s (world c)).
  destruct (f s (world c)) as [s' w']. simpl in *.
  destruct Hf as (Hch & Hnr & Hpub & Hothers & Hown).
  destruct (B _ _ Hn) as (Hlt & ch & Hchan & Hok).
  rewrite Hchan in Hown. inversion Hown as [ch0 ch' [Hcap Hsend] Heq1 Heq2|]; subst.
  symmetry in Heq2.
  assert (∀ m sm, <[n := s']> (sups c) !! m = Some sm →
            (m = n ∧ sm = s') ∨ (m ≠ n ∧ sups c !! m = Some sm)) as Hlook.
  { intros m sm H. apply list_lookup_insert_Some in H as [(-> & -> & _)|[Hne H]]; eauto. }
  unfold chan_inv. simpl. rewrite Hnr. split_and!.
  - intros r cr Hr. destruct (decide (r = statusChan s)) as [->|Hne].
    + assert (cr = ch') as -> by congruence. rewrite Hcap. by eapply A.
    + rewrite Hothers in Hr by done. by eapply A.
  - intros m sm H. destruct (Hlook _ _ H) as [[-> ->]|[Hne Hm]].
    + rewrite Hch. split; [done|]. exists ch'. split; [done|].
      intros Hlt'. assert (length (published s) < 100)%nat as Hlt0 by lia.
      destruct (Hok Hlt0) as (Hp & Hle & Heq).
      assert (Chan.send_can_proceed ch = true) as Hcan.
      { unfold Chan.send_can_proceed, Chan.has_room. apply orb_true_iff. right.
        apply bool_decide_eq_true. rewrite (A _ _ Hchan). lia. }
      destruct (Hsend Hp Hcan) as (Hp' & [[Hsame ->]|(Hopen & Hsent & ->)]).
      * rewrite Hsame. done.
      * rewrite Hsent, length_app. simpl. rewrite length_app. simpl.
        split_and!; [done|lia|]. intros _. specialize (Heq Hopen). lia.
    + destruct (B _ _ Hm) as (Hlt' & chm & Hchm & Hokm). split; [done|].
      exists chm. split; [|done]. rewrite Hothers; [done|].
      intros Heq. apply Hne. by eapply C.
  - intros m1 m2 s1 s2 H1 H2 Heq.
    destruct (Hlook _ _ H1) as [[-> ->]|[Hne1 Hm1]];
      destruct (Hlook _ _ H2) as [[-> ->]|[Hne2 Hm2]]; try done.
    + rewrite Hch in Heq. symmetry. by eapply C.
    + rewrite Hch in Heq. by eapply C.
    + by eapply C.
Qed.

(** *** The parts of a status query *)

(** What one part of a status query does to the channel it holds: on an
    open channel the snapshot goes from the channel to the hands of the
    query and back, unless the channel is full when it is to be put
    back. *)
Lemma GetJobStatus_step_chan (q q' : Query.t) (w w' : World) :
  GetJobStatus_step q w = (q', w') →
  Query.job q' = Query.job q
  ∧ next_ref w' = next_ref w
  ∧ (∀ r, r ≠ Query.job q → chans w' !! r = chans w !! r)
  ∧ option_Forall2
      (λ ch ch',
         Chan.cap ch' = Chan.cap ch ∧ Chan.closed ch' = Chan.closed ch
         ∧ (length (Chan.buf ch') ≤ length (Chan.buf ch)
            + (if holding (Query.job q) q then 1 else 0))%nat
         ∧ (Chan.closed ch = true → (length (Chan.buf ch') ≤ length (Chan.buf ch))%nat)
         ∧ (Chan.closed ch = false →
            (length (Chan.buf ch') + (if holding (Query.job q) q' then 1 else 0)
             = length (Chan.buf ch) + (if holding (Query.job q) q then 1 else 0))%nat
            ∨ (Chan.cap ch ≤ length (Chan.buf ch))%nat))
      (chans w !! Query.job q) (chans w' !! Query.job q).
Proof.
  assert (∀ p, holding (Query.job q) (Query.set_pc p q)
               = match p with QReceived _ | QStored _ => true | _ => false end)
    as Hhold by (intros p; unfold holding; simpl; by rewrite bool_decide_eq_true_2).
  assert (Query.job q' = Query.job q → chans w' = chans w → next_ref w' = next_ref w →
          holding (Query.job q) q' = holding (Query.job q) q →
          Query.job q' = Query.job q
          ∧ next_ref w' = next_ref w
          ∧ (∀ r, r ≠ Query.job q → chans w' !! r = chans w !! r)
          ∧ option_Forall2
              (λ ch ch',
                 Chan.cap ch' = Chan.cap ch ∧ Chan.closed ch' = Chan.closed ch
                 ∧ (length (Chan.buf ch') ≤ length (Chan.buf ch)
                    + (if holding (Query.job q) q then 1 else 0))%nat
                 ∧ (Chan.closed ch = true →
                    (length (Chan.buf ch') ≤ length (Chan.buf ch))%nat)
                 ∧ (Chan.closed ch = false →
                    (length (Chan.buf ch')
                     + (if holding (Query.job q) q' then 1 else 0)
                     = length (Chan.buf ch)
                       + (if holding (Query.job q) q then 1 else 0))%nat
                    ∨ (Chan.cap ch ≤ length (Chan.buf ch))%nat))
              (chans w !! Query.job q) (chans w' !! Query.job q)) as Hsame.
  { intros Hj Hc Hn Hh. rewrite Hc, Hh. split_and!; [done..|].
    destruct (chans w !! Query.job q); constructor.
    split_and!; [done|done|lia|lia|]. intros _. by left. }
  unfold GetJobStatus_step.
  destruct (Query.pc q) as [|v|v|a|msg] eqn:Hpc.
  - (* the test and the receive *)
    assert (holding (Query.job q) q = false) as Hq
      by (unfold holding; rewrite Hpc; apply andb_false_r).
    destruct (held_job (Query.jobID q) (Query.job q) w ≫= ProcessingJob.LastStatus).
    { intros [= <- <-]. apply Hsame; try done. by rewrite Hhold, Hq. }
    unfold try_recv. destruct (chans w !! Query.job q) as [ch|] eqn:Hch.
    2: { intros [= <- <-]. apply Hsame; try done. by rewrite Hhold, Hq. }
    destruct (Chan.buf ch) as [|v rest] eqn:Hbuf.
    + destruct (Chan.closed ch) eqn:Hcl; intros [= <- <-].
      * simpl. rewrite Hch, Hhold, Hq. split_and!; [done..|]. constructor.
        split_and!; [done|done|lia|lia|congruence].
      * apply Hsame; try done. by rewrite Hhold, Hq.
    + intros [= <- <-]. simpl. rewrite Hhold, Hq, lookup_insert_eq.
      split_and!; [done..| |].
      * intros r Hne. by rewrite lookup_insert_ne.
      * constructor. simpl. rewrite Hbuf. simpl.
        split_and!; [done|done|lia|lia|]. intros _. left. lia.
  - (* the write *)
    intros [= <- <-]. apply Hsame; try done.
    + unfold write_LastStatus. by repeat case_match.
    + unfold write_LastStatus. by repeat case_match.
    + rewrite Hhold. unfold holding. rewrite Hpc.
      by rewrite bool_decide_eq_true_2.
  - (* the send that puts the snapshot back *)
    assert (holding (Query.job q) q = true) as Hq
      by (unfold holding; rewrite Hpc; by rewrite bool_decide_eq_true_2).
    unfold try_send. destruct (chans w !! Query.job q) as [ch|] eqn:Hch.
    2: { intros [= <- <-]. simpl. rewrite Hch. split_and!; [done..|constructor]. }
    destruct (Chan.closed ch) eqn:Hcl.
    + intros [= <- <-]. simpl. rewrite Hch, Hhold, Hq. split_and!; [done..|].
      constructor. split_and!; [done|done|lia|lia|congruence].
    + destruct (Chan.has_room ch) eqn:Hroom; intros [= <- <-]; simpl.
      * rewrite Hhold, Hq, lookup_insert_eq. split_and!; [done..| |].
        -- intros r Hne. by rewrite lookup_insert_ne.
        -- constructor. simpl. rewrite length_app. simpl.
           split_and!; [done|done|lia|congruence|]. intros _. left. lia.
      * rewrite Hch, Hhold, Hq. split_and!; [done..|]. constructor.
        split_and!; [done|done|lia|lia|]. intros _. right.
        unfold Chan.has_room in Hroom. apply bool_decide_eq_false in Hroom. lia.
  - intros [= <- <-]. apply Hsame; done.
  - intros [= <- <-]. apply Hsame; done.
Qed.

Lemma chan_inv_query (k : nat) (c : Config) :
  chan_inv c → chan_inv (serve (LQueryStep k) c).
Proof.
  intros (A & B & C). unfold serve.
  destruct (queries c !! k) as [q|] eqn:Hq; [|done].
  destruct (GetJobStatus_step q (world c)) as [q' w'] eqn:Hstep.
  pose proof (in_hands_insert (Query.job q) (queries c) k q q' Hq) as Hcount.
  destruct (GetJobStatus_step_chan q q' (world c) w' Hstep)
    as (Hjob & Hn & Hothers & Hown).
  unfold chan_inv. simpl. rewrite Hn. split_and!; [| |done].
  - intros r cr Hr. destruct (decide (r = Query.job q)) as [->|Hne].
    + rewrite Hr in Hown. inversion Hown as [ch ch' (Hc & _) Heq|]; subst.
      rewrite Hc. eapply A. eauto.
    + rewrite Hothers in Hr by done. by eapply A.
  - intros n s Hs. destruct (B _ _ Hs) as (Hlt & ch & Hch & Hok).
    split; [done|]. destruct (decide (statusChan s = Query.job q)) as [Heq|Hne].
    + rewrite Heq in *. rewrite Hch in Hown.
      inversion Hown as [ch0 ch' (Hcap & Hcl & Hle & Hclosed & Hopen) Heq1 Heq2|];
        subst.
      exists ch'. split; [done|]. intros Hpub.
      destruct (Hok Hpub) as (Hp & Hbuf & Hbal).
      assert ((if holding (Query.job q) q then 1 else 0)
              ≤ in_hands (Query.job q) (queries c))%nat as Hin.
      { destruct (holding (Query.job q) q) eqn:Hh; [|lia].
        by eapply in_hands_lookup. }
      destruct (Chan.closed ch) eqn:Hstate.
      * split_and!; [done|specialize (Hclosed eq_refl); lia|congruence].
      * specialize (Hbal eq_refl).
        destruct (Hopen eq_refl) as [Hmove|Hfull];
          [|rewrite (A _ _ Hch) in Hfull; lia].
        split_and!; [done|lia|]. intros _. lia.
    + exists ch. rewrite Hothers by done. split; [done|].
      assert (in_hands (statusChan s) (<[k := q']> (queries c))
              = in_hands (statusChan s) (queries c)) as ->; [|done].
      pose proof (in_hands_insert (statusChan s) (queries c) k q q' Hq) as H.
      rewrite (holding_other _ q) in H by done.
      rewrite (holding_other _ q') in H by (by rewrite Hjob). lia.
Qed.

Lemma chan_inv_begin (id : string) (c : Config) :
  chan_inv c → chan_inv (serve (LQuery id) c).
Proof.
  intros (A & B & C). unfold chan_inv, serve. simpl. split_and!; [done| |done].
  intros n s Hs. destruct (B _ _ Hs) as (Hlt & ch & Hch & Hok).
  split; [done|]. exists ch. split; [done|].
  rewrite in_hands_app. simpl.
  assert (holding (statusChan s) (GetJobStatus_begin id (world c)) = false) as ->.
  { unfold GetJobStatus_begin, holding.
    destruct (jobs (world c) !! id); simpl; apply andb_false_r. }
  by rewrite !Nat.add_0_r.
Qed.

Lemma step_chan_inv (l : Label) (c : Config) :
  wf (world c) → heap_inv c → chan_inv c → chan_inv (step l c).
Proof.
  intros Hwf Hheap Hc. alive.
  destruct l as [id lim|id|id|id|id|k|d|n x|n j x|id|k].
  - by apply chan_inv_start.
  - apply chan_inv_frame; [|done]. apply GetJobStatus_settle.
  - apply chan_inv_frame; [|done]. apply CancelJob_settle.
  - unfold serve. destruct (jobs (world c) !! id); [|done].
    apply chan_inv_frame; [|done]. by apply chans_settle_same.
  - apply chan_inv_frame; [|done]. apply RemoveJob_settle.
  - unfold serve. destruct (timers (world c) !! k) as [[id due]|]; [|done].
    case_bool_decide; [|done]. apply chan_inv_frame; [|done].
    apply (chans_settle_trans _ (set_timers (delete k) (world c)));
      [by apply chans_settle_same|].
    apply CleanupJob_settle.
  - apply chan_inv_frame; [|done]. by apply chans_settle_same.
  - apply chan_inv_sends; [|done]. intros; apply processProperties_sends.
  - apply chan_inv_sends; [|done]. intros; apply processBatch_worker_sends.
  - by apply chan_inv_begin.
  - by apply chan_inv_query.
Qed.

Lemma reachable_chan_inv (trace : list Label) : chan_inv (run trace init).
Proof.
  induction trace as [|l trace IH] using rev_ind.
  - unfold chan_inv, init. simpl. split_and!; intros *; done.
  - rewrite run_snoc.
    apply step_chan_inv; [apply reachable_wf|apply reachable_heap_inv|done].
Qed.

(** ** What a supervisor sends, and when *)

(** X15. In every run, the snapshots a supervisor has sent are snapshots
    of a running job (state [running], no completion time, no error
    message), except possibly the last one: a snapshot of an ended job
    (state [failed], [cancelled] or [completed], with its completion time)
    is sent at most once, last, and it is the supervisor's final status.
    When the supervisor is about to call [MarkJobCompleted], the snapshot
    it passes is such a snapshot, and it is the last one it has sent. *)
Theorem terminal_snapshot_is_sent_last
    (trace : list Label) (n : nat) (s : Supervisor) :
  sups (run trace init) !! n = Some s →
  (Forall running_snapshot (published s)
   ∨ ∃ pre, published s = pre ++ [status s] ∧ Forall running_snapshot pre
            ∧ terminal_snapshot (status s) ∧ (pc s = PMark ∨ pc s = PReturn))
  ∧ (pc s = PMark →
     terminal_snapshot (status s) ∧ last (published s) = Some (status s)).
Proof.
  intros Hn. pose proof (reachable_shape _ _ _ Hn) as Hs.
  unfold shape_inv in Hs.
  destruct (pc s) as [|k1 k2| |next| |i|i e pending results| |msg] eqn:Hpc;
    (split; [|try done]).
  - left. rewrite Hs. constructor.
  - left. apply Hs.
  - left. apply Hs.
  - left. apply Hs.
  - right. destruct Hs as (pre & Hp & Hall & Hterm & _). exists pre. eauto.
  - intros _. destruct Hs as (pre & Hp & Hall & Hterm & _).
    split; [done|]. by rewrite Hp, last_snoc.
  - left. apply Hs.
  - left. apply Hs.
  - destruct Hs as [[-> _]|(pre & Hp & Hall & Hterm & _)].
    + left. constructor.
    + right. exists pre. eauto.
  - left. apply Hs.
Qed.

Lemma terminal_snapshot_is_sent_last_witness :
  sups (run empty_run init) !! 0%nat = Some (sup_at 0 (run empty_run init))
  ∧ (pc (sup_at 0 (run empty_run init)) = PMark →
     terminal_snapshot (status (sup_at 0 (run empty_run init)))
     ∧ last (published (sup_at 0 (run empty_run init)))
       = Some (status (sup_at 0 (run empty_run init)))).
Proof.
  assert (sups (run empty_run init) !! 0%nat = Some (sup_at 0 (run empty_run init)))
    as H by (vm_compute; reflexivity).
  exact (conj H (proj2 (terminal_snapshot_is_sent_last _ _ _ H))).
Defined.

(** X16. In every run, a supervisor over [n] listings has sent at most
    [3 + ⌈n / 10⌉] snapshots: ten times their number is at most [n + 39]
    (before the fetch [n] is 0). *)
Theorem published_count_bounded_by_batches
    (trace : list Label) (n : nat) (s : Supervisor) :
  sups (run trace init) !! n = Some s →
  (10 * length (published s) ≤ length (properties s) + 39)%nat.
Proof.
  intros Hn. pose proof (reachable_shape _ _ _ Hn) as Hs.
  unfold shape_inv, ends_with_status in Hs.
  destruct (pc s) as [|k1 k2| |next| |i|i e pending results| |msg] eqn:Hpc.
  - rewrite Hs. simpl. lia.
  - destruct Hs as (_ & _ & [(_ & _ & ->)|(b & _ & _ & Hb & Hbn & Hlen)]); simpl; lia.
  - destruct Hs as (_ & _ & ->). lia.
  - destruct Hs as (_ & [(_ & _ & ->)|(_ & _ & Hlen)]); lia.
  - destruct Hs as (pre & _ & _ & _ & Hlen). done.
  - destruct Hs as (_ & _ & b & _ & Hb & Hlen). lia.
  - destruct Hs as (_ & _ & (b & -> & Hlen) & Hi & _). lia.
  - destruct Hs as [[-> _]|(pre & _ & _ & _ & Hlen)]; [simpl; lia|done].
  - destruct Hs as (_ & Hlen). lia.
Qed.

(** X17. In every run, while a batch is in flight it starts at a multiple
    of 10, holds between 1 and 10 listings, all of them fetched ones; the
    workers still running are working on different listings of the batch;
    and the workers running and the results sent add up to the size of the
    batch. *)
Theorem batch_hands_each_listing_to_one_worker
    (trace : list Label) (n : nat) (s : Supervisor)
    (i e : nat) (pending : list nat) (results : list (option string)) :
  sups (run trace init) !! n = Some s →
  pc s = PWorkers i e pending results →
  (∃ b, i = (b * 10)%nat)
  ∧ (i < e ≤ i + 10)%nat ∧ (e ≤ length (properties s))%nat
  ∧ NoDup pending
  ∧ Forall (λ k, (i ≤ k < e)%nat ∧ is_Some (properties s !! k)) pending
  ∧ (length pending + length results = e - i)%nat.
Proof.
  intros Hn Hpc. pose proof (reachable_shape _ _ _ Hn) as Hs.
  destruct (reachable_sup_inv _ _ _ Hn) as (_ & _ & Hp).
  unfold shape_inv in Hs. unfold pc_inv in Hp. rewrite Hpc in Hs, Hp.
  destruct Hs as (_ & _ & (b & -> & _) & Hi & He & Hen & Hnd & Hin).
  destruct Hp as (_ & _ & _ & _ & Hemin & Hcount).
  unfold batchSize in Hemin.
  split_and!; try done; try lia.
  - by exists b.
  - eapply Forall_impl; [exact Hin|]. intros k Hk. simpl in Hk. split; [done|].
    apply lookup_lt_is_Some. lia.
Qed.

Lemma batch_hands_each_listing_to_one_worker_witness :
  (sups (run first_batch_started init) !! 0%nat
   = Some (sup_at 0 (run first_batch_started init))
   ∧ pc (sup_at 0 (run first_batch_started init)) = PWorkers 0 1 [0%nat] [])
  ∧ NoDup [0%nat].
Proof.
  assert (sups (run first_batch_started init) !! 0%nat
          = Some (sup_at 0 (run first_batch_started init)))
    as H1 by (vm_compute; reflexivity).
  assert (pc (sup_at 0 (run first_batch_started init)) = PWorkers 0 1 [0%nat] [])
    as H2 by (vm_compute; reflexivity).
  exact (conj (conj H1 H2)
           (proj1 (proj2 (proj2 (proj2
              (batch_hands_each_listing_to_one_worker _ _ _ _ _ _ _ H1 H2)))))).
Defined.

Lemma published_count_bounded_by_batches_witness :
  sups (run whole_run init) !! 0%nat = Some (sup_at 0 (run whole_run init))
  ∧ (10 * length (published (sup_at 0 (run whole_run init)))
     ≤ length (properties (sup_at 0 (run whole_run init))) + 39)%nat.
Proof.
  assert (sups (run whole_run init) !! 0%nat = Some (sup_at 0 (run whole_run init)))
    as H by (vm_compute; reflexivity).
  exact (conj H (published_count_bounded_by_batches _ _ _ H)).
Defined.

Lemma step_winding_down (l : Label) (c : Config) (n : nat) (s : Supervisor) :
  sups c !! n = Some s → winding_down (pc s) = true →
  ∃ s', sups (step l c) !! n = Some s' ∧ winding_down (pc s') = true
        ∧ status s' = status s ∧ properties s' = properties s
        ∧ published s `prefix_of` published s'.
Proof.
  intros Hn Hw.
  assert (∃ s', sups c !! n = Some s' ∧ winding_down (pc s') = true
        ∧ status s' = status s ∧ properties s' = properties s
        ∧ published s `prefix_of` published s')
    as Hsame by (by exists s).
  unfold step. destruct (crashed c); [done|].
  destruct l as [id lim|id|id|id|id|k|d|m x|m j x|id|k]; unfold serve; try done.
  - simpl. exists s. split_and!; try done.
    apply lookup_app_l_Some. done.
  - by case_match.
  - by repeat case_match.
  - unfold with_sup. destruct (sups c !! m) as [sm|] eqn:Hm; [|done].
    destruct (decide (m = n)) as [->|Hne].
    + assert (sm = s) as -> by congruence.
      assert (n < length (sups c))%nat as Hlt by (by eapply lookup_lt_Some).
      unfold processProperties.
      destruct (pc s) as [| | |next| | | | |] eqn:Hpc; try done; simpl.
      * destruct next; try done.
        destruct (send_status_cases PMark s (world c)) as [[b H]|[[b H]|[msg H]]];
          destruct (send_status PMark s (world c)) as [s' w']; simpl in *; subst s';
          rewrite list_lookup_insert_eq by done; eexists; (split; [done|]);
          simpl; rewrite ?Hpc; split_and!; try done.
        by apply prefix_app_r.
      * rewrite list_lookup_insert_eq by done. eexists; split; [done|].
        by split_and!.
      * rewrite list_lookup_insert_eq by done. eexists; split; [done|].
        simpl. rewrite Hpc. by split_and!.
      * rewrite list_lookup_insert_eq by done. eexists; split; [done|].
        simpl. rewrite Hpc. by split_and!.
    + destruct (processProperties x sm (world c)). simpl.
      rewrite list_lookup_insert_ne by done. done.
  - unfold with_sup. destruct (sups c !! m) as [sm|] eqn:Hm; [|done].
    destruct (decide (m = n)) as [->|Hne].
    + assert (sm = s) as -> by congruence.
      assert (n < length (sups c))%nat as Hlt by (by eapply lookup_lt_Some).
      unfold processBatch_worker.
      destruct (pc s) eqn:Hpc; try done; simpl;
        rewrite list_lookup_insert_eq by done; eexists; (split; [done|]);
        rewrite ?Hpc; by split_and!.
    + destruct (processBatch_worker j x sm (world c)). simpl.
      rewrite list_lookup_insert_ne by done. done.
  - destruct (queries c !! k) as [q|]; [|done].
    by destruct (GetJobStatus_step q (world c)).
Qed.

(** X18. From any state on, once a supervisor is past its last batch (it
    is about to send its final status or to call [MarkJobCompleted], or it
    has returned or panicked), no step of anybody changes its status or
    its listings, and it never starts a batch again; the snapshots it has
    sent stay as they are, with at most more sent after them. *)
Theorem terminal_status_is_final
    (c : Config) (trace : list Label) (n : nat) (s : Supervisor) :
  sups c !! n = Some s → winding_down (pc s) = true →
  ∃ s', sups (run trace c) !! n = Some s' ∧ winding_down (pc s') = true
        ∧ status s' = status s ∧ properties s' = properties s
        ∧ published s `prefix_of` published s'.
Proof.
  intros Hn Hw. induction trace as [|l trace IH] using rev_ind.
  - by exists s.
  - destruct IH as (s1 & Hn1 & Hw1 & Hst & Hpr & Hpub).
    rewrite run_snoc.
    destruct (step_winding_down l _ _ _ Hn1 Hw1)
      as (s' & Hn' & Hw' & Hst' & Hpr' & Hpub').
    exists s'. split_and!; try done; try congruence.
    by etrans.
Qed.

Lemma terminal_status_is_final_witness :
  (sups (run empty_run init) !! 0%nat = Some (sup_at 0 (run empty_run init))
   ∧ winding_down (pc (sup_at 0 (run empty_run init))) = true)
  ∧ ∃ s', sups (run [LStatus "job"; LSup 0 no_io] (run empty_run init)) !! 0%nat = Some s'
          ∧ status s' = status (sup_at 0 (run empty_run init)).
Proof.
  assert (sups (run empty_run init) !! 0%nat = Some (sup_at 0 (run empty_run init)))
    as H1 by (vm_compute; reflexivity).
  assert (winding_down (pc (sup_at 0 (run empty_run init))) = true)
    as H2 by (vm_compute; reflexivity).
  split; [exact (conj H1 H2)|].
  destruct (terminal_status_is_final _ [LStatus "job"; LSup 0 no_io] _ _ H1 H2)
    as (s' & Hs' & _ & Hst & _).
  exact (ex_intro _ s' (conj Hs' Hst)).
Defined.

(** X19. In every run, the status channel of a supervisor exists, has
    capacity 100 and holds exactly as many values as the supervisor has
    sent, which is at most 100: nothing ever makes room in it. So a send
    of the supervisor can proceed exactly when the channel is closed (and
    the send panics) or fewer than 100 snapshots have been sent. *)
(** X19. In every run, the status channel of a supervisor exists and has
    capacity 100. As long as the supervisor has sent fewer than 100
    snapshots, it is not blocked in a send and its next send can proceed
    (on a closed channel, by panicking); its channel holds no more
    snapshots than it has sent; and while the channel is open none is
    lost: each snapshot sent is in the channel or in the hands of a
    status query, between its receive and the send that puts it back. *)
Theorem status_channel_holds_what_was_sent
    (trace : list Label) (n : nat) (s : Supervisor) :
  sups (run trace init) !! n = Some s →
  ∃ ch, chans (reached trace) !! statusChan s = Some ch
        ∧ Chan.cap ch = 100%nat
        ∧ ((length (published s) < 100)%nat →
           parked s = false
           ∧ (length (Chan.buf ch) ≤ length (published s))%nat
           ∧ (Chan.closed ch = false →
              (length (Chan.buf ch)
               + in_hands (statusChan s) (queries (run trace init))
               = length (published s))%nat)
           ∧ send_can_proceed (statusChan s) (reached trace) = true).
Proof.
  intros Hn. destruct (reachable_chan_inv trace) as (A & B & _).
  destruct (B _ _ Hn) as (_ & ch & Hch & Hok). exists ch.
  pose proof (A _ _ Hch) as Hcap. unfold reached. split_and!; [done..|].
  intros Hlt. destruct (Hok Hlt) as (Hp & Hle & Heq). split_and!; [done..|].
  unfold send_can_proceed, Chan.send_can_proceed, Chan.has_room. rewrite Hch.
  apply orb_true_iff. right. apply bool_decide_eq_true. lia.
Qed.

Lemma status_channel_holds_what_was_sent_witness :
  sups (run query_holds_snapshot init) !! 0%nat
  = Some (sup_at 0 (run query_holds_snapshot init))
  ∧ ∃ ch, chans (reached query_holds_snapshot)
            !! statusChan (sup_at 0 (run query_holds_snapshot init)) = Some ch
          ∧ Chan.cap ch = 100%nat.
Proof.
  assert (sups (run query_holds_snapshot init) !! 0%nat
          = Some (sup_at 0 (run query_holds_snapshot init)))
    as H by (vm_compute; reflexivity).
  split; [exact H|].
  destruct (status_channel_holds_what_was_sent _ _ _ H) as (ch & Hch & Hcap & _).
  exact (ex_intro _ ch (conj Hch Hcap)).
Defined.

(** X20. In every run, a status query that runs without interruption
    leaves every channel with its capacity, open or closed as it was, and
    with the number of values it had: it sends the snapshot it has
    received back into the channel, and that send finds room. The one
    exception is a channel on whose full buffer a sender is blocked: the
    value of the sender takes the place, and the snapshot received is not
    put back. *)
Theorem GetJobStatus_puts_the_snapshot_back (trace : list Label) (id : string) :
  next_ref (final_world (GetJobStatus id (reached trace))) = next_ref (reached trace)
  ∧ ∀ r, option_Forall2
           (λ ch ch',
              Chan.cap ch' = Chan.cap ch ∧ Chan.closed ch' = Chan.closed ch
              ∧ (length (Chan.buf ch') = length (Chan.buf ch)
                 ∨ ((Chan.cap ch < length (Chan.buf ch))%nat
                    ∧ S (length (Chan.buf ch')) = length (Chan.buf ch))))
           (chans (reached trace) !! r)
           (chans (final_world (GetJobStatus id (reached trace))) !! r).
Proof.
  pose proof (reachable_wf trace) as (WA & _). fold (reached trace) in WA.
  set (w := reached trace) in *.
  assert (∀ w', chans w' = chans w → next_ref w' = next_ref w →
            next_ref w' = next_ref w
            ∧ ∀ r, option_Forall2
                     (λ ch ch',
                        Chan.cap ch' = Chan.cap ch ∧ Chan.closed ch' = Chan.closed ch
                        ∧ (length (Chan.buf ch') = length (Chan.buf ch)
                           ∨ ((Chan.cap ch < length (Chan.buf ch))%nat
                              ∧ S (length (Chan.buf ch')) = length (Chan.buf ch))))
                     (chans w !! r) (chans w' !! r)) as Hsame.
  { intros w' Hc Hn. split; [done|]. intros r. rewrite Hc.
    destruct (chans w !! r); constructor. split_and!; [done..|by left]. }
  unfold GetJobStatus, GetJob, bind, gets, ret, modify.
  destruct (jobs w !! id) as [job|] eqn:Hj; [|by apply Hsame].
  destruct (ProcessingJob.LastStatus job); [by apply Hsame|].
  destruct (WA _ _ Hj) as (c & Hch & Hopen).
  unfold try_recv. rewrite Hch.
  destruct (Chan.buf c) as [|v rest] eqn:Hbuf.
  - rewrite Hopen. by apply Hsame.
  - unfold try_send. simpl. rewrite lookup_insert_eq. simpl. rewrite Hopen.
    unfold Chan.has_room. simpl. case_bool_decide as Hroom; simpl.
    + split; [done|]. intros r.
      destruct (decide (ProcessingJob.Status job = r)) as [<-|Hne].
      * rewrite lookup_insert_eq, Hch. constructor. simpl.
        rewrite Hbuf, length_app. simpl. split_and!; [done..|]. left. lia.
      * rewrite !lookup_insert_ne by done.
        destruct (chans w !! r); constructor. split_and!; [done..|by left].
    + split; [done|]. intros r.
      destruct (decide (ProcessingJob.Status job = r)) as [<-|Hne].
      * rewrite lookup_insert_eq, Hch. constructor. simpl.
        rewrite Hbuf. simpl. split_and!; [done..|]. right. lia.
      * rewrite lookup_insert_ne by done.
        destruct (chans w !! r); constructor. split_and!; [done..|by left].
Qed.

(** X21. In every run, a supervisor over at most 970 listings that is at
    a send of a snapshot has sent fewer than 100 of them, and its channel
    has room: the send does not block. *)
Theorem status_send_has_room_up_to_970_listings
    (trace : list Label) (n : nat) (s : Supervisor) :
  sups (run trace init) !! n = Some s →
  (length (properties s) ≤ 970)%nat →
  sending (pc s) = true →
  (length (published s) < 100)%nat
  ∧ ∃ ch, chans (reached trace) !! statusChan s = Some ch ∧ Chan.has_room ch = true.
Proof.
  intros Hn Hle Hpc. pose proof (reachable_shape _ _ _ Hn) as Hs.
  assert (length (published s) < 100)%nat as Hlt.
  { unfold shape_inv in Hs. destruct (pc s); try done.
    - destruct Hs as (_ & _ & [(_ & _ & ->)|(b & _ & _ & Hb & Hbn & Hlen)]); simpl; lia.
    - destruct Hs as (_ & [(_ & _ & ->)|(_ & _ & Hlen)]); lia. }
  split; [done|].
  destruct (reachable_chan_inv trace) as (A & B & _).
  destruct (B _ _ Hn) as (_ & ch & Hch & Hok).
  destruct (Hok Hlt) as (_ & Hbuf & _).
  exists ch. split; [done|].
  unfold Chan.has_room. rewrite (A _ _ Hch). apply bool_decide_eq_true. lia.
Qed.

Lemma status_send_has_room_up_to_970_listings_witness :
  (sups (run listings_fetched init) !! 0%nat
   = Some (sup_at 0 (run listings_fetched init))
   ∧ (length (properties (sup_at 0 (run listings_fetched init))) ≤ 970)%nat
   ∧ sending (pc (sup_at 0 (run listings_fetched init))) = true)
  ∧ (length (published (sup_at 0 (run listings_fetched init))) < 100)%nat.
Proof.
  assert (sups (run listings_fetched init) !! 0%nat
          = Some (sup_at 0 (run listings_fetched init)))
    as H1 by (vm_compute; reflexivity).
  assert (length (properties (sup_at 0 (run listings_fetched init))) ≤ 970)%nat
    as H2 by (vm_compute; lia).
  assert (sending (pc (sup_at 0 (run listings_fetched init))) = true)
    as H3 by (vm_compute; reflexivity).
  exact (conj (conj H1 (conj H2 H3))
           (proj1 (status_send_has_room_up_to_970_listings _ _ _ H1 H2 H3))).
Defined.

(** X26. A job over 971 listings sends 101 snapshots, one more than its
    channel holds. With no status query its supervisor blocks in the send
    of the final snapshot and stays there: the job is never marked
    completed. A status query receives the oldest snapshot, which hands
    the place over to the blocked supervisor: the final snapshot is in
    the channel, the snapshot received is not put back, and the
    supervisor goes on to mark the job completed. *)
Theorem blocked_send_released_by_status_query :
  map (λ s, (pc s, parked s, length (published s), state (status s)))
      (sups (run (all_batches_done ++ [LSup 0 no_io; LSup 0 no_io]) init))
  = [(PSend PMark, true, 100%nat, "completed")]
  ∧ (ProcessingJob.CompletedAt
       <$> jobs (reached (all_batches_done ++ [LSup 0 no_io; LSup 0 no_io])) !! "job")
    = Some None
  ∧ match GetJobStatus "job" (reached (all_batches_done ++ [LSup 0 no_io])) with
    | Ok answer _ =>
        answer = (Some (ProcessingStatus.mk 0 "running" 0 0 0 0 None ""), true)
    | Panic _ _ => False
    end
  ∧ ((λ ch, (length (Chan.buf ch), state <$> last (Chan.buf ch)))
       <$> chans (reached (all_batches_done ++ [LSup 0 no_io; LStatus "job"])) !! 1%nat)
    = Some (100%nat, Some "completed")
  ∧ map (λ s, (pc s, parked s, length (published s)))
        (sups (run (all_batches_done
                    ++ [LSup 0 no_io; LStatus "job"; LSup 0 no_io; LSup 0 no_io]) init))
    = [(PReturn, false, 101%nat)]
  ∧ (λ job, state <$> ProcessingJob.LastStatus job)
      <$> jobs (reached (all_batches_done
                         ++ [LSup 0 no_io; LStatus "job"; LSup 0 no_io; LSup 0 no_io]))
          !! "job"
    = Some (Some "completed").
Proof. vm_compute. repeat split. Qed.

(** ** The name of a converted listing *)

(** X22. The name [convertToProperty] gives a listing is never empty: it
    is the street number, one space and the street name, so a listing
    that carries neither is named by a single space. *)
Theorem convertToProperty_name_never_empty
    (simplyProperty : SimplyRETSProperty.t) (photos : PhotoList) :
  let address := SimplyRETSProperty.Address simplyProperty in
  let name := Property.Name (convertToProperty simplyProperty photos) in
  name ≠ ""
  ∧ String.length name
    = (String.length (FlexibleString_String (SimplyRETSAddress.StreetNumber address))
       + 1 + String.length (SimplyRETSAddress.StreetName address))%nat
  ∧ (SimplyRETSAddress.StreetNumber address = "" →
     SimplyRETSAddress.StreetName address = "" → name = " ").
Proof.
  simpl. unfold FlexibleString_String. split_and!.
  - intros H. apply (f_equal String.length) in H.
    rewrite !string_length_app in H. simpl in H. lia.
  - rewrite !string_length_app. simpl. lia.
  - by intros -> ->.
Qed.
